(** * ckeditor5-typing: text transformation, text watcher, unsafe keystrokes
      and delete handling, embedded in Rocq.

    The development follows the JavaScript sources:
      - src/texttransformation.js                      (module [TextTransformation])
      - src/utils/injectunsafekeystrokeshandling.js    (module [UnsafeKeystrokes])
      - src/delete.js                                  (module [Delete])
    and, for the watcher whose source file is not part of the tree, the
    specification text (module [TextWatcher]).

    JavaScript strings are sequences of UTF-16 code units; regular
    expressions are the backtracking matchers of ECMAScript. *)

From Stdlib Require Import NArith ZArith Ascii String List Lia Bool.
From stdpp Require Import base option list strings gmap.

Local Open Scope N_scope.

(* ===================================================================== *)
(** * JavaScript values used by the sources                               *)
(* ===================================================================== *)

Module JS.

(** A JavaScript string: its UTF-16 code units. *)
Definition jsstring := list N.

(** Code unit of an ASCII character. *)
Definition ch (a : ascii) : N := N_of_ascii a.

(** The JavaScript string with the characters of an ASCII literal. *)
Definition str (s : string) : jsstring := ch <$> list_ascii_of_string s.

(** Errors a script can throw.  [OutOfFuel] is not a JavaScript error: it
    marks a run of the model that stopped because a bounded search was cut
    short.  It is propagated unchanged, so a run that ends in a value or in
    another error never met it; the matcher is shown below never to raise
    it. *)
Inductive error := TypeError | SyntaxError | OutOfFuel.

Inductive outcome (A : Type) :=
| Ok (a : A)
| Throw (e : error).
Arguments Ok {A} a.
Arguments Throw {A} e.

(** Sequencing: a thrown error skips the rest of the statements. *)
Global Instance outcome_ret : MRet outcome := fun A a => Ok a.
Global Instance outcome_bind : MBind outcome := fun A B f m =>
  match m with
  | Ok a => f a
  | Throw e => Throw e
  end.

Definition is_ok {A} (m : outcome A) : bool :=
  match m with Ok _ => true | Throw _ => false end.

(** [s.substring(i, j)] for [i <= j]. *)
Definition substring (i j : nat) (s : jsstring) : jsstring :=
  take (j - i) (drop i s).

Global Instance error_eq_dec : EqDecision error.
Proof. solve_decision. Defined.

(** The value of an expression evaluated while a module is loaded, given
    that the evaluation did not throw. *)
Definition loaded {A} (o : outcome A) : is_ok o = true -> A :=
  match o with
  | Ok a => fun _ => a
  | Throw _ => fun H => False_rect A (Bool.diff_false_true H)
  end.

End JS.

Import JS.


(* ===================================================================== *)
(** * Regular expressions ([new RegExp], [exec], [test])                  *)
(* ===================================================================== *)

Module RegExp.

(** ** Abstract syntax of the pattern fragment the sources use *)

Inductive class_item :=
| CChar (c : N)
| CRange (lo hi : N)
| CSpace (positive : bool)      (* \s, \S *)
| CDigit (positive : bool)      (* \d, \D *)
| CWord (positive : bool).      (* \w, \W *)

Inductive re :=
| REmpty
| RChar (c : N)
| RAny                                   (* . *)
| RClass (negated : bool) (items : list class_item)
| RBol                                   (* ^ *)
| REol                                   (* $ *)
| RSeq (a b : re)
| RAlt (a b : re)
| RRepeat (min : nat) (max : option nat) (a : re)   (* greedy *, +, ? *)
| RGroup (i : nat) (a : re)              (* i-th capturing group *)
| RNonCapture (a : re).                  (* (?: ... ) *)

(** A compiled regular expression: the pattern and its number of
    capturing groups. *)
Record regexp := { pattern : re; nGroups : nat }.

(** ** Character predicates *)

Definition between (lo hi c : N) : bool := (lo <=? c) && (c <=? hi).

(** WhiteSpace and LineTerminator code units. *)
Definition isSpace (c : N) : bool :=
  between 9 13 c || (c =? 32) || (c =? 160) || (c =? 5760)
  || between 8192 8202 c || (c =? 8232) || (c =? 8233) || (c =? 8239)
  || (c =? 8287) || (c =? 12288) || (c =? 65279).

Definition isDigit (c : N) : bool := between 48 57 c.

Definition isWord (c : N) : bool :=
  between 97 122 c || between 65 90 c || isDigit c || (c =? 95).

Definition isLineTerminator (c : N) : bool :=
  (c =? 10) || (c =? 13) || (c =? 8232) || (c =? 8233).

Definition item_matches (c : N) (it : class_item) : bool :=
  match it with
  | CChar d => c =? d
  | CRange lo hi => between lo hi c
  | CSpace p => eqb p (isSpace c)
  | CDigit p => eqb p (isDigit c)
  | CWord p => eqb p (isWord c)
  end.

Definition class_matches (negated : bool) (items : list class_item) (c : N) : bool :=
  xorb negated (existsb (item_matches c) items).

(** The syntax characters of a pattern: [^$\.*+?()[]{}|]. *)
Definition syntaxChars : list N := str "^$\.*+?()[]{}|".

Definition isSyntaxChar (c : N) : bool := bool_decide (c ∈ syntaxChars).

(** ** Parsing a pattern source

    Recursive descent over Disjunction / Alternative / Term, the three
    functions sharing one fuel counter.  [g] counts the capturing groups
    opened so far: a group is numbered when its parenthesis opens.
    [None] stands for a pattern that is rejected (a syntax error, or
    syntax outside the fragment: lazy quantifiers, braces, look-around,
    back-references, named groups, \b, \u and \x escapes). *)

Definition parsed (A : Type) : Type := option (A * jsstring * nat).

(** A class escape or a character escape, after the backslash. *)
Definition parseEscape (c : N) : option (re + N) :=
  if c =? ch "s" then Some (inl (RClass false [CSpace true]))
  else if c =? ch "S" then Some (inl (RClass false [CSpace false]))
  else if c =? ch "d" then Some (inl (RClass false [CDigit true]))
  else if c =? ch "D" then Some (inl (RClass false [CDigit false]))
  else if c =? ch "w" then Some (inl (RClass false [CWord true]))
  else if c =? ch "W" then Some (inl (RClass false [CWord false]))
  else if c =? ch "t" then Some (inr 9)
  else if c =? ch "n" then Some (inr 10)
  else if c =? ch "v" then Some (inr 11)
  else if c =? ch "f" then Some (inr 12)
  else if c =? ch "r" then Some (inr 13)
  else if isSyntaxChar c || (c =? ch "/") || (c =? ch "-") then Some (inr c)
  else None.

Definition escapeItem (c : N) : option class_item :=
  match parseEscape c with
  | Some (inl (RClass false [it])) => Some it
  | Some (inr d) => Some (CChar d)
  | _ => None
  end.

(** One class atom: a character or an escape. *)
Definition parseClassAtom (s : jsstring) : option (class_item * jsstring) :=
  match s with
  | [] => None
  | c :: r =>
      if c =? ch "\" then
        match r with
        | e :: r' => it ← escapeItem e; Some (it, r')
        | [] => None
        end
      else Some (CChar c, r)
  end.

(** The items of a character class up to the closing bracket. *)
Fixpoint parseClassItems (fuel : nat) (s : jsstring) : option (list class_item * jsstring) :=
  match fuel with
  | O => None
  | S fuel =>
      match s with
      | [] => None
      | c :: r =>
          if c =? ch "]" then Some ([], r)
          else
            '(a, r1) ← parseClassAtom s;
            match a, r1 with
            | CChar lo, d :: r2 =>
                if (d =? ch "-") && negb (bool_decide (head r2 = Some (ch "]"))) then
                  '(b, r3) ← parseClassAtom r2;
                  match b with
                  | CChar hi =>
                      if lo <=? hi
                      then '(its, r4) ← parseClassItems fuel r3; Some (CRange lo hi :: its, r4)
                      else None
                  | _ => None
                  end
                else '(its, r4) ← parseClassItems fuel r1; Some (a :: its, r4)
            | _, _ => '(its, r4) ← parseClassItems fuel r1; Some (a :: its, r4)
            end
      end
  end.

Definition parseClass (s : jsstring) : option (re * jsstring) :=
  match s with
  | c :: r =>
      if c =? ch "^"
      then '(its, r') ← parseClassItems (S (length r)) r; Some (RClass true its, r')
      else '(its, r') ← parseClassItems (S (length s)) s; Some (RClass false its, r')
  | [] => None
  end.

(** An optional greedy quantifier after an atom. *)
Definition parseQuantifier (a : re) (s : jsstring) : option (re * jsstring) :=
  let lazy (r : jsstring) := bool_decide (head r = Some (ch "?")) in
  match s with
  | c :: r =>
      if c =? ch "*" then (if lazy r then None else Some (RRepeat 0 None a, r))
      else if c =? ch "+" then (if lazy r then None else Some (RRepeat 1 None a, r))
      else if c =? ch "?" then (if lazy r then None else Some (RRepeat 0 (Some 1%nat) a, r))
      else if c =? ch "{" then None
      else Some (a, s)
  | [] => Some (a, s)
  end.

Fixpoint parseDisjunction (fuel : nat) (s : jsstring) (g : nat) : parsed re :=
  match fuel with
  | O => None
  | S fuel =>
      '(a, r, g1) ← parseAlternative fuel s g;
      match r with
      | c :: r' =>
          if c =? ch "|"
          then '(b, r2, g2) ← parseDisjunction fuel r' g1; Some (RAlt a b, r2, g2)
          else Some (a, r, g1)
      | [] => Some (a, r, g1)
      end
  end
with parseAlternative (fuel : nat) (s : jsstring) (g : nat) : parsed re :=
  match fuel with
  | O => None
  | S fuel =>
      match s with
      | [] => Some (REmpty, s, g)
      | c :: _ =>
          if (c =? ch "|") || (c =? ch ")") then Some (REmpty, s, g)
          else
            '(t, r, g1) ← parseTerm fuel s g;
            '(a, r2, g2) ← parseAlternative fuel r g1;
            Some (RSeq t a, r2, g2)
      end
  end
with parseTerm (fuel : nat) (s : jsstring) (g : nat) : parsed re :=
  match fuel with
  | O => None
  | S fuel =>
      match s with
      | [] => None
      | c :: r =>
          if c =? ch "^" then Some (RBol, r, g)
          else if c =? ch "$" then Some (REol, r, g)
          else if c =? ch "(" then
            match r with
            | q :: r' =>
                if q =? ch "?" then
                  match r' with
                  | k :: r'' =>
                      if k =? ch ":" then
                        '(d, r1, g1) ← parseDisjunction fuel r'' g;
                        match r1 with
                        | p :: r2 =>
                            if p =? ch ")"
                            then '(t, r3) ← parseQuantifier (RNonCapture d) r2; Some (t, r3, g1)
                            else None
                        | [] => None
                        end
                      else None
                  | [] => None
                  end
                else
                  '(d, r1, g1) ← parseDisjunction fuel r (S g);
                  match r1 with
                  | p :: r2 =>
                      if p =? ch ")"
                      then '(t, r3) ← parseQuantifier (RGroup (S g) d) r2; Some (t, r3, g1)
                      else None
                  | [] => None
                  end
            | [] => None
            end
          else if c =? ch "." then '(t, r1) ← parseQuantifier RAny r; Some (t, r1, g)
          else if c =? ch "[" then
            '(cl, r1) ← parseClass r;
            '(t, r2) ← parseQuantifier cl r1; Some (t, r2, g)
          else if c =? ch "\" then
            match r with
            | e :: r1 =>
                a ← parseEscape e;
                let atom := match a with inl cl => cl | inr d => RChar d end in
                '(t, r2) ← parseQuantifier atom r1; Some (t, r2, g)
            | [] => None
            end
          else if (c =? ch "*") || (c =? ch "+") || (c =? ch "?") || (c =? ch "{")
                  || (c =? ch ")") || (c =? ch "|") then None
          else '(t, r1) ← parseQuantifier (RChar c) r; Some (t, r1, g)
      end
  end.

(** [new RegExp(source)]: the whole source must be one Disjunction. *)
Definition compile (source : jsstring) : outcome regexp :=
  match parseDisjunction (3 * length source + 3) source 0 with
  | Some (r, [], n) => Ok {| pattern := r; nGroups := n |}
  | _ => Throw SyntaxError
  end.

(** ** Matching

    The backtracking matcher of ECMAScript in continuation-passing style.
    A state is the index reached in the input and the substrings captured
    so far (group [i] at position [i - 1]).  A matcher returns [Ok (Some x)]
    on success, [Ok None] on failure; running out of fuel in a repetition
    is thrown, never turned into a failure. *)

Record mstate := { endIndex : nat; captures : list (option jsstring) }.

Definition continuation := mstate -> outcome (option mstate).

Definition advance (x : mstate) : mstate :=
  {| endIndex := S (endIndex x); captures := captures x |}.

(** Match one code unit satisfying [p]. *)
Definition matchChar (p : N -> bool) (input : jsstring) (x : mstate) (c : continuation)
  : outcome (option mstate) :=
  match input !! endIndex x with
  | Some ch => if p ch then c (advance x) else Ok None
  | None => Ok None
  end.

(** The capturing groups inside a pattern. *)
Fixpoint groupsOf (r : re) : list nat :=
  match r with
  | RSeq a b | RAlt a b => groupsOf a ++ groupsOf b
  | RRepeat _ _ a | RNonCapture a => groupsOf a
  | RGroup i a => i :: groupsOf a
  | _ => []
  end.

Definition clearCaptures (gs : list nat) (caps : list (option jsstring))
  : list (option jsstring) :=
  foldr (fun i acc => <[pred i := None]> acc) caps gs.

(** RepeatMatcher of the language specification, for a greedy quantifier
    over the matcher [m] whose capturing groups are [gs]: an iteration that
    starts once [min] is reached must consume input, and the captures of
    the body are reset at each iteration.  Each iteration lowers [min] or
    consumes input, so [min] plus what is left of the input bounds their
    number; [fuel] is one more. *)
Fixpoint repeatMatcher (fuel : nat) (m : mstate -> continuation -> outcome (option mstate))
  (gs : list nat) (min : nat) (max : option nat) (x : mstate) (c : continuation)
  {struct fuel} : outcome (option mstate) :=
  match fuel with
  | O => Throw OutOfFuel
  | S fuel =>
      if bool_decide (max = Some O) then c x
      else
        let d (y : mstate) :=
          if (min =? 0)%nat && (endIndex y =? endIndex x)%nat then Ok None
          else repeatMatcher fuel m gs (pred min) (pred <$> max) y c in
        let xr := {| endIndex := endIndex x;
                     captures := clearCaptures gs (captures x) |} in
        if (min =? 0)%nat then
          z ← m xr d;
          match z with
          | Some _ => Ok z
          | None => c x
          end
        else m xr d
  end.

Fixpoint matcher (r : re) (input : jsstring) (x : mstate) (c : continuation)
  {struct r} : outcome (option mstate) :=
  match r with
  | REmpty => c x
  | RChar d => matchChar (N.eqb d) input x c
  | RAny => matchChar (fun ch => negb (isLineTerminator ch)) input x c
  | RClass neg items => matchChar (class_matches neg items) input x c
  | RBol => if (endIndex x =? 0)%nat then c x else Ok None
  | REol => if (endIndex x =? length input)%nat then c x else Ok None
  | RSeq a b => matcher a input x (fun y => matcher b input y c)
  | RAlt a b =>
      z ← matcher a input x c;
      match z with
      | Some _ => Ok z
      | None => matcher b input x c
      end
  | RNonCapture a => matcher a input x c
  | RGroup i a =>
      matcher a input x (fun y =>
        let cap := substring (endIndex x) (endIndex y) input in
        c {| endIndex := endIndex y; captures := <[pred i := Some cap]> (captures y) |})
  | RRepeat min max a =>
      repeatMatcher (S (min + (length input - endIndex x)))
        (fun y d => matcher a input y d) (groupsOf a) min max x c
  end.

(** The array returned by [exec]: [matches[0]] is the whole match,
    [matches[i]] the i-th capture ([None] for [undefined]), and [index]
    the offset of the match in the input. *)
Record match_array := { matches : list (option jsstring); index : nat }.

(** Try the start positions [start], [start + 1], ... in turn. *)
Fixpoint execFrom (n : nat) (rx : regexp) (input : jsstring) (start : nat)
  : outcome (option match_array) :=
  let x := {| endIndex := start; captures := replicate (nGroups rx) None |} in
  z ← matcher (pattern rx) input x (fun y => Ok (Some y));
  match z with
  | Some y =>
      Ok (Some {| matches := Some (substring start (endIndex y) input) :: captures y;
                  index := start |})
  | None =>
      match n with
      | O => Ok None
      | S n => execFrom n rx input (S start)
      end
  end.

(** [rx.exec(input)] for a regular expression without flags: [null] is
    [None]. *)
Definition exec (rx : regexp) (input : jsstring) : outcome (option match_array) :=
  execFrom (length input) rx input 0.

(** [rx.test(input)]. *)
Definition test (rx : regexp) (input : jsstring) : outcome bool :=
  m ← exec rx input; Ok (bool_decide (is_Some m)).

(** ** Patterns and predicates used to state facts about the matcher *)

(** The pattern that matches the characters of [s] one after the other. *)
Definition literal (s : jsstring) : re :=
  foldr (fun c r => RSeq (RChar c) r) REmpty s.

(** The regular expression of a string [from]. *)
Definition suffixRegExp (s : jsstring) : regexp :=
  {| pattern := RSeq (RGroup 1 (literal s)) (RSeq REol REmpty); nGroups := 1 |}.

(** A pattern that starts with the group [(^|L)], for a matcher [L] of one
    character, and goes on with [T]. *)
Definition leadPattern (L T : re) : re :=
  RSeq (RGroup 1 (RAlt (RSeq RBol REmpty) (RSeq L REmpty))) T.

(** The pattern that [buildQuotesRegExp] builds for a quote character that
    is one code unit: an opening quote, any number of other characters, a
    closing quote, the end of the input. *)
Definition quotesTail (q : N) : re :=
  RSeq (RGroup 2 (literal [q]))
    (RSeq (RGroup 3 (RSeq (RRepeat 0 None (RClass true [CChar q])) REmpty))
       (RSeq (RGroup 4 (literal [q])) (RSeq REol REmpty))).

Definition quotesPattern (q : N) : regexp :=
  {| pattern := leadPattern (RClass false [CSpace true]) (quotesTail q); nGroups := 4 |}.

(** The pattern of the dash rules: the dashes, a space, the end of the
    input. *)
Definition dashTail (dashes : jsstring) : re :=
  RSeq (RGroup 2 (literal dashes)) (RSeq (RGroup 3 (literal [32])) (RSeq REol REmpty)).

Definition dashPattern (dashes : jsstring) : regexp :=
  {| pattern := leadPattern (RChar 32) (dashTail dashes); nGroups := 3 |}.

(** The state [k] code units after [x]. *)
Definition shift (x : mstate) (k : nat) : mstate :=
  {| endIndex := endIndex x + k; captures := captures x |}.

(** States of a run on [input]: those that lie in the input, at or after
    [x]. *)
Definition reachable (input : jsstring) (x y : mstate) : Prop :=
  (endIndex x ≤ endIndex y ≤ length input)%nat.

(** A matcher answers when every continuation that answers on the states
    it can reach makes it answer. *)
Definition answers (input : jsstring)
  (m : mstate -> continuation -> outcome (option mstate)) : Prop :=
  ∀ x c, (endIndex x ≤ length input)%nat →
         (∀ y, reachable input x y → is_ok (c y) = true) →
         is_ok (m x c) = true.

End RegExp.

(* ===================================================================== *)
(** * The host document model (engine), as far as the sources use it     *)
(* ===================================================================== *)

Module Model.

(** Attributes of a node: a map from attribute name to value. *)
Abbreviation attributes := (gmap string string).

(** The children of the element that holds the caret, one entry per
    offset: a character of text, or an inline element.  A text node of the
    engine is a maximal run of characters with equal attributes. *)
Inductive item :=
| Char (c : N) (attrs : attributes)
| Element (name : string) (attrs : attributes).

Global Instance item_eq_dec : EqDecision item.
Proof. solve_decision. Defined.

Definition getAttributes (n : item) : attributes :=
  match n with
  | Char _ a => a
  | Element _ a => a
  end.

(** The text of a list of items (inline elements carry no text). *)
Definition textOf (l : list item) : jsstring :=
  omap (fun n => match n with Char c _ => Some c | Element _ _ => None end) l.

(** Unformatted text. *)
Definition plain (s : jsstring) : list item := (fun c => Char c ∅) <$> s.

(** [position.textNode]: the text node the position is inside of
    ("foo[]bar" in the words of the source), [null] at a node boundary. *)
Definition textNode (parent : list item) (offset : nat) : option item :=
  match offset with
  | O => None
  | S before =>
      match parent !! before, parent !! offset with
      | Some (Char _ a), Some (Char c b) =>
          if decide (a = b) then Some (Char c b) else None
      | _, _ => None
      end
  end.

(** [position.nodeAfter]: the node that starts at the position
    ("foo[]<$text bold>bar</$text>"), [null] inside a text node or at the
    end of the parent. *)
Definition nodeAfter (parent : list item) (offset : nat) : option item :=
  match textNode parent offset with
  | Some _ => None
  | None => parent !! offset
  end.

(** [writer.createText( data, attributes )]. *)
Definition createText (data : jsstring) (attrs : attributes) : list item :=
  (fun c => Char c attrs) <$> data.

(** Modelled from the spec: the engine's [model.insertContent( content,
    range )] is not part of this repository; "Replace the span [cursor,
    cursor + capturedLength) with the replacement value carrying those
    attributes". *)
Definition insertContent (content : list item) (from to : nat) (parent : list item)
  : list item :=
  take from parent ++ content ++ drop to parent.

(** The state of the model the sources act on: the children of the
    selection's focus parent, and one entry per completed transaction with
    the content its change listeners were shown. *)
Record state := { parent : list item; observed : list (list item) }.

(** Modelled from the spec: the engine's [model.enqueueChange( callback )]
    is not part of this repository; "a transaction groups one or more
    primitive edits into one atomic, undoable unit and guarantees listeners
    observe either the fully-applied or the not-yet-applied state, never
    partial", and "a failure during a replacement transaction aborts that
    transaction; the document rolls back to its pre-transaction state". *)
Definition enqueueChange (callback : list item -> outcome (list item)) (st : state)
  : state * outcome () :=
  match callback (parent st) with
  | Ok p => ({| parent := p; observed := observed st ++ [p] |}, Ok ())
  | Throw e => (st, Throw e)
  end.

(** A paragraph of text with the given attributes, character by
    character. *)
Definition formatted (text : jsstring) (attrs : list attributes) : list item :=
  zip_with Char text attrs.

End Model.

Import RegExp Model.

(* ===================================================================== *)
(** * src/texttransformation.js                                           *)
(* ===================================================================== *)

Module TextTransformation.

(** ** Transformation descriptions

    [from] is a string or a RegExp, [to] a string, an array of strings and
    [null]s, or a function from the captured substrings to such an array;
    a property that is missing reads as [undefined]. *)

Abbreviation jsarray := (list (option jsstring)).

Inductive from_value :=
| FromUndefined
| FromString (s : jsstring)
| FromRegExp (rx : regexp).

Inductive to_value :=
| ToUndefined
| ToString (s : jsstring)
| ToArray (a : jsarray)
| ToFunction (f : jsarray -> jsarray).

Record description := { from : from_value; to : to_value }.

(** lodash's [escapeRegExp]: a backslash before each syntax character. *)
Definition escapeRegExp (s : jsstring) : jsstring :=
  s ≫= (fun c => if isSyntaxChar c then [ch "\"; c] else [c]).

(** [buildQuotesRegExp( quoteCharacter )]. *)
Definition buildQuotesRegExp (quoteCharacter : jsstring) : outcome regexp :=
  compile (str "(^|\s)(" ++ quoteCharacter ++ str ")([^" ++ quoteCharacter
           ++ str "]*)(" ++ quoteCharacter ++ str ")$").

Definition doubleQuote : jsstring := [34].
Definition singleQuote : jsstring := [39].

(** The value of [buildQuotesRegExp( q )] and of a regular expression
    literal in the table below, which is built when the module is loaded. *)
Definition quotesRegExp (q : jsstring) (H : is_ok (buildQuotesRegExp q) = true) : from_value :=
  FromRegExp (loaded (buildQuotesRegExp q) H).

Definition literalRegExp (source : jsstring) (H : is_ok (compile source) = true) : from_value :=
  FromRegExp (loaded (compile source) H).

Definition simple (f t : jsstring) : description :=
  {| from := FromString f; to := ToString t |}.

(** All named transformations. *)
Definition TRANSFORMATIONS : gmap string description :=
  list_to_map [
    (* Common symbols: *)
    ("copyright", simple (str "(c)") [169]);
    ("registeredTrademark", simple (str "(r)") [174]);
    ("trademark", simple (str "(tm)") [8482]);
    (* Mathematical: *)
    ("oneHalf", simple (str "1/2") [189]);
    ("oneThird", simple (str "1/3") [8531]);
    ("twoThirds", simple (str "2/3") [8532]);
    ("oneForth", simple (str "1/4") [188]);
    ("threeQuarters", simple (str "3/4") [190]);
    ("lessThanOrEqual", simple (str "<=") [8804]);
    ("greaterThanOrEqual", simple (str ">=") [8805]);
    ("notEqual", simple (str "!=") [8800]);
    ("arrowLeft", simple (str "<-") [8592]);
    ("arrowRight", simple (str "->") [8594]);
    (* Typography: *)
    ("horizontalEllipsis", simple (str "...") [8230]);
    ("enDash", {| from := literalRegExp (str "(^| )(--)( )$") eq_refl;
                  to := ToArray [None; Some [8211]; None] |});
    ("emDash", {| from := literalRegExp (str "(^| )(---)( )$") eq_refl;
                  to := ToArray [None; Some [8212]; None] |});
    (* Quotations: English, US *)
    ("quotesPrimary", {| from := quotesRegExp doubleQuote eq_refl;
                         to := ToArray [None; Some [8220]; None; Some [8221]] |});
    ("quotesSecondary", {| from := quotesRegExp singleQuote eq_refl;
                           to := ToArray [None; Some [8216]; None; Some [8217]] |});
    (* English, UK *)
    ("quotesPrimaryEnGb", {| from := quotesRegExp singleQuote eq_refl;
                             to := ToArray [None; Some [8216]; None; Some [8217]] |});
    ("quotesSecondaryEnGb", {| from := quotesRegExp doubleQuote eq_refl;
                               to := ToArray [None; Some [8220]; None; Some [8221]] |});
    (* Polish *)
    ("quotesPrimaryPl", {| from := quotesRegExp doubleQuote eq_refl;
                           to := ToArray [None; Some [8222]; None; Some [8221]] |});
    ("quotesSecondaryPl", {| from := quotesRegExp singleQuote eq_refl;
                             to := ToArray [None; Some [8218]; None; Some [8217]] |})
  ].

(** Transformation groups. *)
Definition TRANSFORMATION_GROUPS : gmap string (list string) :=
  list_to_map [
    ("symbols", ["copyright"; "registeredTrademark"; "trademark"]);
    ("mathematical", ["oneHalf"; "oneThird"; "twoThirds"; "oneForth"; "threeQuarters";
                      "lessThanOrEqual"; "greaterThanOrEqual"; "notEqual";
                      "arrowLeft"; "arrowRight"]);
    ("typography", ["horizontalEllipsis"; "enDash"; "emDash"]);
    ("quotes", ["quotesPrimary"; "quotesSecondary"])
  ].

(** Set of default transformations provided by the feature. *)
Definition DEFAULT_TRANSFORMATIONS : list string :=
  ["symbols"; "mathematical"; "typography"; "quotes"].

(** ** Property lookup on the two tables

    Both tables are object literals, so a key that is not an own property
    is looked up on [Object.prototype]: its members are all truthy and none
    is iterable. *)

Definition objectPrototypeKeys : list string :=
  ["constructor"; "__defineGetter__"; "__defineSetter__"; "hasOwnProperty";
   "__lookupGetter__"; "__lookupSetter__"; "isPrototypeOf";
   "propertyIsEnumerable"; "toString"; "valueOf"; "__proto__"; "toLocaleString"].

Inductive property (A : Type) :=
| Own (a : A)
| Inherited
| Undefined.
Arguments Own {A} a.
Arguments Inherited {A}.
Arguments Undefined {A}.

Definition getProperty {A} (table : gmap string A) (key : string) : property A :=
  match table !! key with
  | Some a => Own a
  | None => if decide (key ∈ objectPrototypeKeys) then Inherited else Undefined
  end.

(** ** Entries of the configuration and of the resolved list

    An entry of [include], [extra] or [remove] is a name or an object
    literal; objects are compared by reference, so an object is its
    reference and its properties are read from the store of the
    configuration's objects. *)

Inductive definition :=
| DString (s : string)
| DObject (ref : nat).

Global Instance definition_eq_dec : EqDecision definition.
Proof. solve_decision. Defined.

(** An entry of the resolved list: a definition that was kept as it is, or
    a reference to a built-in description (or, for completeness, to a
    member of [Object.prototype]). *)
Inductive value :=
| VDefinition (d : definition)
| VBuiltin (name : string)       (* the object TRANSFORMATIONS[name] *)
| VInherited (name : string).    (* the value Object.prototype[name] *)

Global Instance value_eq_dec : EqDecision value.
Proof. solve_decision. Defined.

(** The property key a definition is converted to when it indexes an
    object. *)
Definition toPropertyKey (d : definition) : string :=
  match d with
  | DString s => s
  | DObject _ => "[object Object]"
  end.

Record config := {
  include : list definition;
  extra : option (list definition);
  remove : option (list definition)
}.

(** [editor.config.define( 'typing', { transformations: { include:
    DEFAULT_TRANSFORMATIONS } } )] in the constructor: the default is used
    when the configuration sets no [include]. *)
Definition defineConfig (include_ extra_ remove_ : option (list definition)) : config :=
  {| include := default (DString <$> DEFAULT_TRANSFORMATIONS) include_;
     extra := extra_;
     remove := remove_ |}.

(** A JavaScript [Set] of definitions: its elements in insertion order. *)
Definition setAdd (s : list definition) (v : definition) : list definition :=
  if decide (v ∈ s) then s else s ++ [v].

(** [expandGroupsAndRemoveDuplicates( definitions )]: [for ... of] over an
    inherited member of [Object.prototype] throws a TypeError. *)
Fixpoint expandInto (definedTransformations : list definition)
  (definitions : list definition) : outcome (list definition) :=
  match definitions with
  | [] => Ok definedTransformations
  | transformationOrGroup :: rest =>
      match getProperty TRANSFORMATION_GROUPS (toPropertyKey transformationOrGroup) with
      | Own members =>
          expandInto (foldl setAdd definedTransformations (DString <$> members)) rest
      | Inherited => Throw TypeError
      | Undefined => expandInto (setAdd definedTransformations transformationOrGroup) rest
      end
  end.

Definition expandGroupsAndRemoveDuplicates (definitions : list definition)
  : outcome (list definition) :=
  expandInto [] definitions.

(** [transformation => TRANSFORMATIONS[ transformation ] || transformation]. *)
Definition lookupTransformation (transformation : definition) : value :=
  match getProperty TRANSFORMATIONS (toPropertyKey transformation) with
  | Own _ => VBuiltin (toPropertyKey transformation)
  | Inherited => VInherited (toPropertyKey transformation)
  | Undefined => VDefinition transformation
  end.

(** [getConfiguredTransformations( config )]. *)
Definition getConfiguredTransformations (config : config) : outcome (list value) :=
  let extra := default [] (extra config) in
  let remove := default [] (remove config) in
  let isNotRemoved (transformation : definition) := transformation ∉ remove in
  let configured := filter isNotRemoved (include config ++ extra) in
  expanded ← expandGroupsAndRemoveDuplicates configured;
  Ok (lookupTransformation <$> filter isNotRemoved (expanded : list definition)).

(** [TRANSFORMATION_GROUPS[ d ]]: the members of the group that [d]
    names, if it names one. *)
Definition groupOf (d : definition) : property (list string) :=
  getProperty TRANSFORMATION_GROUPS (toPropertyKey d).

(** The first group a name is a member of; the default list names all the
    groups of the table. *)
Definition ownerOf (m : string) : option string :=
  head (filter (fun g => m ∈ default [] (TRANSFORMATION_GROUPS !! g))
               DEFAULT_TRANSFORMATIONS).

(** ** Normalisation of [from] and [to] *)

(** [normalizeFrom( from )]. *)
Definition normalizeFrom (from : from_value) : outcome from_value :=
  match from with
  | FromString s =>
      rx ← compile (str "(" ++ escapeRegExp s ++ str ")$");
      Ok (FromRegExp rx)
  | _ => Ok from
  end.

(** [normalizeTo( to )]. *)
Definition normalizeTo (to : to_value) : to_value :=
  match to with
  | ToString s => ToFunction (fun _ => [Some s])
  | ToArray a => ToFunction (fun _ => a)
  | _ => to
  end.

(** [from.test( text )] and [from.exec( text )]: only a RegExp has these
    methods. *)
Definition fromTest (from : from_value) (text : jsstring) : outcome bool :=
  match from with
  | FromRegExp rx => RegExp.test rx text
  | _ => Throw TypeError
  end.

Definition fromExec (from : from_value) (text : jsstring) : outcome (option match_array) :=
  match from with
  | FromRegExp rx => RegExp.exec rx text
  | _ => Throw TypeError
  end.

(** [to( captures )]: only a function can be called. *)
Definition callTo (to : to_value) (captures : jsarray) : outcome jsarray :=
  match to with
  | ToFunction f => Ok (f captures)
  | _ => Throw TypeError
  end.

(** [match.length]: a group that did not take part in the match is
    [undefined]. *)
Definition lengthOf (match_ : option jsstring) : outcome nat :=
  match match_ with
  | Some s => Ok (length s)
  | None => Throw TypeError
  end.

(** [getTextAttributesAfterPosition( position )]: [getAttributes] of
    [null] throws. *)
Definition getTextAttributesAfterPosition (parent : list item) (offset : nat)
  : outcome attributes :=
  let textNode :=
    match Model.textNode parent offset with
    | Some n => Some n
    | None => Model.nodeAfter parent offset
    end in
  match textNode with
  | Some n => Ok (getAttributes n)
  | None => Throw TypeError
  end.

(** ** The [matched:data] listener *)

(** The body of the loop [for ( let i = 1; i < matches.length; i++ )] run
    on the groups from [i] on; [groups] is [matches] from index [i]. *)
Fixpoint replaceGroups (groups : jsarray) (i : nat) (replaces : jsarray)
  (changeIndex : nat) (selectionParent : list item) : outcome (list item) :=
  match groups with
  | [] => Ok selectionParent
  | match_ :: rest =>
      match replaces !! (i - 1)%nat with
      | Some (Some replaceWith) =>
          len ← lengthOf match_;
          attributes ← getTextAttributesAfterPosition selectionParent changeIndex;
          replaceGroups rest (S i) replaces (changeIndex + length replaceWith)%nat
            (insertContent (createText replaceWith attributes)
               changeIndex (changeIndex + len)%nat selectionParent)
      | _ =>
          (* replaceWith == null *)
          len ← lengthOf match_;
          replaceGroups rest (S i) replaces (changeIndex + len)%nat selectionParent
      end
  end.

(** The same replacement as the specification words it, on the items from
    the position of the match on: "For each capturing group, in
    left-to-right order, maintaining a running insertion cursor: if the
    corresponding replacement value is null, advance the cursor by the
    original captured substring's length; do not modify text.  Else ...
    replace the span [cursor, cursor + capturedLength) with the replacement
    value carrying [the attributes of the text immediately following the
    replacement position]".  A group takes its length from the front of
    [following]; the result is what replaces [following]. *)
Fixpoint replaceSegments (groups : jsarray) (i : nat) (replaces : jsarray)
  (following : list item) : outcome (list item) :=
  match groups with
  | [] => Ok following
  | match_ :: rest =>
      len ← lengthOf match_;
      match replaces !! (i - 1)%nat with
      | Some (Some replaceWith) =>
          attributes ← match following with
                       | n :: _ => Ok (getAttributes n)
                       | [] => Throw TypeError
                       end;
          tail ← replaceSegments rest (S i) replaces (drop len following);
          Ok (createText replaceWith attributes ++ tail)
      | _ =>
          tail ← replaceSegments rest (S i) replaces (drop len following);
          Ok (take len following ++ tail)
      end
  end.

(** The text that takes the place of the captured groups: for each group,
    from the [i]-th on, its replacement, or the captured text itself where
    the replacement is [null] or missing. *)
Fixpoint replacedText (captures : list jsstring) (i : nat) (replaces : jsarray) : jsstring :=
  match captures with
  | [] => []
  | captured :: rest =>
      match replaces !! (i - 1)%nat with
      | Some (Some replaceWith) => replaceWith
      | _ => captured
      end ++ replacedText rest (S i) replaces
  end.

Section Listener.

(** Batches of the engine, and [input.isInput( batch )] of the Input
    plugin. *)
Context {Batch : Type} (isInput : Batch -> bool).

(** The data of a [matched:data] event. *)
Record matched_data := { text : jsstring; batch : Batch }.

(** The listener registered with [watcher.on( 'matched:data', ... )] for
    a transformation with normalised [from] and [to]. *)
Definition onMatchedData (from : from_value) (to : to_value)
  (data : matched_data) (st : state) : state * outcome () :=
  if negb (isInput (batch data)) then (st, Ok ())
  else
    match fromExec from (text data) with
    | Throw e => (st, Throw e)
    | Ok None => (st, Throw TypeError)
    | Ok (Some matches) =>
        match callTo to (drop 1 (RegExp.matches matches)) with
        | Throw e => (st, Throw e)
        | Ok replaces =>
            let changeIndex := RegExp.index matches in
            enqueueChange
              (replaceGroups (drop 1 (RegExp.matches matches)) 1 replaces changeIndex)
              st
        end
    end.

(** The events of a text watcher; the feature listens to the first. *)
Inductive watcher_event :=
| MatchedData (data : matched_data)
| MatchedSelection (text : jsstring)
| Unmatched.

(** What the feature does when the watcher of a transformation fires. *)
Definition onWatcherEvent (from : from_value) (to : to_value)
  (evt : watcher_event) (st : state) : state * outcome () :=
  match evt with
  | MatchedData data => onMatchedData from to data st
  | MatchedSelection _ | Unmatched => (st, Ok ())
  end.

End Listener.

(** ** [init]: one watcher per configured transformation *)

Section Init.

(** The object literals of the configuration, by reference. *)
Context (objects : gmap nat description).

Definition getFrom (transformation : value) : from_value :=
  match transformation with
  | VBuiltin name => from_option from FromUndefined (TRANSFORMATIONS !! name)
  | VDefinition (DObject ref) => from_option from FromUndefined (objects !! ref)
  | VDefinition (DString _) | VInherited _ => FromUndefined
  end.

Definition getTo (transformation : value) : to_value :=
  match transformation with
  | VBuiltin name => from_option to ToUndefined (TRANSFORMATIONS !! name)
  | VDefinition (DObject ref) => from_option to ToUndefined (objects !! ref)
  | VDefinition (DString _) | VInherited _ => ToUndefined
  end.

(** The normalised [from] and [to] of the watchers [init] creates, in
    order. *)
Definition init (config : config) : outcome (list (from_value * to_value)) :=
  configuredTransformations ← getConfiguredTransformations config;
  mapM (fun transformation =>
          from ← normalizeFrom (getFrom transformation);
          Ok (from, normalizeTo (getTo transformation)))
       configuredTransformations.

(** The normalised [from] and [to] of one resolved value, when building
    the regular expression of a string [from] does not throw. *)
Definition watcherOf (transformation : value) : from_value * to_value :=
  (match getFrom transformation with
   | FromString s => FromRegExp (suffixRegExp s)
   | _ => getFrom transformation
   end,
   normalizeTo (getTo transformation)).

End Init.

End TextTransformation.

(* ===================================================================== *)
(** * The caret-context watcher (src/textwatcher.js)                      *)
(* ===================================================================== *)

Module TextWatcher.

(** Modelled from the spec: the watcher's source file is missing from the
    tree (only its tests are there).  The definitions of this module follow
    section 4.1 of the specification, "Caret-Context Watcher", sentence by
    sentence. *)

(** What the watcher reads from the document when it is notified: the
    children of the container that holds the caret, and the selection as
    its anchor and focus offsets. *)
Record snapshot := {
  content : list item;
  anchor : nat;
  focus : nat
}.

(** Modelled from the spec: "Collapsed selection: a selection with
    zero-length span (a simple caret, not a range)". *)
Definition isCollapsed (s : snapshot) : bool := bool_decide (anchor s = focus s).

(** Modelled from the spec: "walk backward from the caret position through
    sibling text content within the same text-bearing container, stopping
    at the first non-text inline node (extraction excludes it) or at the
    start of the container.  Concatenate the scanned characters in original
    order."  [before] is the content before the caret, nearest item
    first. *)
Fixpoint scanBackward (before : list item) : jsstring :=
  match before with
  | Char c _ :: rest => scanBackward rest ++ [c]
  | _ => []
  end.

Definition caretContext (s : snapshot) : jsstring :=
  scanBackward (reverse (take (focus s) (content s))).

(** Modelled from the spec: "MatchState: per-Watcher instance, a boolean
    'currently matched' flag plus the last evaluated CaretContext". *)
Record MatchState := { hasMatch : bool; lastContext : jsstring }.

Definition initial : MatchState := {| hasMatch := false; lastContext := [] |}.

Section Watcher.

(** Modelled from the spec: "Construction inputs: a reference to the live
    document model, and a predicate test(context: string) -> bool";
    batches carry the mark "transparent". *)
Context {Batch : Type} (isTransparent : Batch -> bool) (test : jsstring -> bool).

Inductive event :=
| MatchedData (text : jsstring) (batch : Batch) (range : nat * nat)
| MatchedSelection (text : jsstring)
| Unmatched.

(** The two notifications the watcher subscribes to, with the document
    as it is when the notification is delivered. *)
Inductive notification :=
| ChangeApplied (batch : Batch) (doc : snapshot)
| SelectionChanged (doc : snapshot).

(** Modelled from the spec, "On change-applied", steps 1 to 4. *)
Definition onChangeApplied (batch : Batch) (doc : snapshot) (st : MatchState)
  : MatchState * list event :=
  if isTransparent batch then (st, [])
  else if negb (isCollapsed doc) then (st, [])
  else
    let context := caretContext doc in
    if test context then
      ({| hasMatch := true; lastContext := context |},
       [MatchedData context batch (focus doc - length context, focus doc)%nat])
    else if hasMatch st then (initial, [Unmatched])
    else (st, []).

(** Modelled from the spec, "On selection-changed (no content change)". *)
Definition onSelectionChanged (doc : snapshot) (st : MatchState)
  : MatchState * list event :=
  if negb (isCollapsed doc) then
    if hasMatch st then (initial, [Unmatched]) else (st, [])
  else
    let context := caretContext doc in
    if test context then
      ({| hasMatch := true; lastContext := context |},
       if hasMatch st then [] else [MatchedSelection context])
    else if hasMatch st then (initial, [Unmatched])
    else (st, []).

Definition notify (n : notification) (st : MatchState) : MatchState * list event :=
  match n with
  | ChangeApplied batch doc => onChangeApplied batch doc st
  | SelectionChanged doc => onSelectionChanged doc st
  end.

(** The events emitted over a sequence of notifications. *)
Fixpoint run (ns : list notification) (st : MatchState) : list event :=
  match ns with
  | [] => []
  | n :: rest => let '(st', evs) := notify n st in evs ++ run rest st'
  end.

(** The value of the predicate at a notification, when the watcher
    evaluates it there: not for a transparent batch, and not while the
    selection is a range. *)
Definition evaluated (n : notification) : option bool :=
  match n with
  | ChangeApplied batch doc =>
      if isTransparent batch || negb (isCollapsed doc) then None
      else Some (test (caretContext doc))
  | SelectionChanged doc =>
      if negb (isCollapsed doc) then None else Some (test (caretContext doc))
  end.

(** The predicate toggles: each evaluation differs from the one before
    it ([previous] is the last value so far, if any). *)
Fixpoint toggles (previous : option bool) (ns : list notification) : Prop :=
  match ns with
  | [] => True
  | n :: rest =>
      match evaluated n with
      | Some v => previous ≠ Some v ∧ toggles (Some v) rest
      | None => toggles previous rest
      end
  end.

(** The predicate toggles between edits, as section 8 of the specification
    words it ("for a predicate toggled between edits"): its value on the
    caret context after each change of the content differs from its value
    after the change before, whatever the batch and the selection are and
    whatever happens to the selection in between. *)
Definition valueAtEdit (n : notification) : option bool :=
  match n with
  | ChangeApplied _ doc => Some (test (caretContext doc))
  | SelectionChanged _ => None
  end.

Fixpoint togglesBetweenEdits (previous : option bool) (ns : list notification) : Prop :=
  match ns with
  | [] => True
  | n :: rest =>
      match valueAtEdit n with
      | Some v => previous ≠ Some v ∧ togglesBetweenEdits (Some v) rest
      | None => togglesBetweenEdits previous rest
      end
  end.

Definition isMatched (e : event) : bool :=
  match e with
  | MatchedData _ _ _ | MatchedSelection _ => true
  | Unmatched => false
  end.

(** Strict alternation of matched and unmatched events, the first one
    being matched exactly when [expectMatched]. *)
Fixpoint alternates (expectMatched : bool) (evs : list event) : Prop :=
  match evs with
  | [] => True
  | e :: rest => isMatched e = expectMatched ∧ alternates (negb expectMatched) rest
  end.

End Watcher.

End TextWatcher.

(* ===================================================================== *)
(** * src/utils/injectunsafekeystrokeshandling.js                         *)
(* ===================================================================== *)

Module UnsafeKeystrokes.

(** A position of the model is a path from the root; a range is a pair of
    positions, a selection a list of ranges. *)
Definition position := list nat.
Record range := { start : position; end_ : position }.
Record selection := { ranges : list range; isBackward : bool }.

Global Instance range_eq_dec : EqDecision range.
Proof. solve_decision. Defined.
Global Instance selection_eq_dec : EqDecision selection.
Proof. solve_decision. Defined.

(** [range.isFlat]: both ends have the same parent. *)
Definition isFlat (r : range) : bool :=
  bool_decide (removelast (start r) = removelast (end_ r)).

(** [selection.isCollapsed]: one range, whose ends coincide. *)
Definition isCollapsed (s : selection) : bool :=
  match ranges s with
  | [r] => bool_decide (start r = end_ r)
  | _ => false
  end.

(** [selection.anchor] and [selection.focus]: the ends of the range
    added last, the anchor being its end when the selection is backward;
    [null] without a range. *)
Definition anchor (s : selection) : option position :=
  (fun r => if isBackward s then end_ r else start r) <$> last (ranges s).

Definition focus (s : selection) : option position :=
  (fun r => if isBackward s then start r else end_ r) <$> last (ranges s).

(** [selection.isEqual( other )] of the engine: the same number of ranges,
    the same anchor and focus, and every range of the one is a range of the
    other, in whatever order the ranges are stored. *)
Definition isEqual (s other : selection) : bool :=
  if negb (length (ranges s) =? length (ranges other))%nat then false
  else if (length (ranges s) =? 0)%nat then true
  else if negb (bool_decide (anchor s = anchor other))
          || negb (bool_decide (focus s = focus other)) then false
  else forallb (fun thisRange =>
                  existsb (fun otherRange => bool_decide (thisRange = otherRange))
                    (ranges other))
         (ranges s).

(** What the handlers read from the editor when an event arrives. *)
Record editor := {
  isEnabled : bool;            (* inputCommand.isEnabled *)
  isComposing : bool;          (* view.document.isComposing *)
  docSelection : selection     (* model.document.selection *)
}.

Record KeyEventData := { keyCode : Z; ctrlKey : bool }.

(** What the handlers do to the editor. *)
Inductive action :=
| BufferLock
| DeleteContent (s : selection)    (* in one enqueueChange on buffer.batch *)
| BufferUnlock.

Section Handling.

(** [getCode] of the keyboard utilities, and [env.isAndroid]. *)
Context (getCode : string -> Z) (isAndroid : bool).

(** The function keys pushed by [for ( let code = 112; code <= 135; code++ )]. *)
Definition functionKeys : list Z := (fun i => 112 + Z.of_nat i)%Z <$> seq 0 24.

Definition safeKeycodes : list Z :=
  [ getCode "arrowUp"; getCode "arrowRight"; getCode "arrowDown"; getCode "arrowLeft";
    9; 16; 17; 18; 19; 20; 27; 33; 34; 35; 36; 45; 91; 93; 144; 145;
    173; 174; 175; 176; 177; 178; 179; 255 ]%Z ++ functionKeys.

(** [isSafeKeystroke( keyData )]. *)
Definition isSafeKeystroke (keyData : KeyEventData) : bool :=
  if ctrlKey keyData then true
  else bool_decide (keyCode keyData ∈ safeKeycodes).

(** [deleteSelectionContent()]. *)
Definition deleteSelectionContent (ed : editor) : list action :=
  [BufferLock; DeleteContent (docSelection ed); BufferUnlock].

(** [handleUnsafeKeystroke( evtData )]: the new value of
    [latestCompositionSelection] and what was done to the editor. *)
Definition handleUnsafeKeystroke (evtData : KeyEventData) (ed : editor)
  (latestCompositionSelection : option selection) : option selection * list action :=
  let isComposing := isComposing ed in
  let isSelectionUnchanged :=
    match latestCompositionSelection with
    | Some s => isEqual s (docSelection ed)
    | None => false
    end in
  (* Reset stored composition selection. *)
  let latestCompositionSelection := None in
  if negb (isEnabled ed) then (latestCompositionSelection, [])
  else if isSafeKeystroke evtData || isCollapsed (docSelection ed)
  then (latestCompositionSelection, [])
  else if isComposing && (keyCode evtData =? 229)%Z
  then (latestCompositionSelection, [])
  else if negb isComposing && (keyCode evtData =? 229)%Z && isSelectionUnchanged
  then (latestCompositionSelection, [])
  else (latestCompositionSelection, deleteSelectionContent ed).

(** [handleCompositionStart()]. *)
Definition handleCompositionStart (ed : editor) : list action :=
  let isFlatSelection :=
    match ranges (docSelection ed) with
    | [r] => isFlat r
    | _ => true
    end in
  if isCollapsed (docSelection ed) || isFlatSelection then []
  else deleteSelectionContent ed.

(** The events of the view document the function listens to. *)
Inductive view_event :=
| BeforeInput (evtData : KeyEventData)
| KeyDown (evtData : KeyEventData)
| CompositionStart
| CompositionEnd.

(** The listeners registered by [injectUnsafeKeystrokesHandling]. *)
Definition dispatch (ev : view_event) (ed : editor)
  (latestCompositionSelection : option selection) : option selection * list action :=
  match ev with
  | BeforeInput evtData =>
      if isAndroid then handleUnsafeKeystroke evtData ed latestCompositionSelection
      else (latestCompositionSelection, [])
  | KeyDown evtData =>
      if isAndroid then (latestCompositionSelection, [])
      else handleUnsafeKeystroke evtData ed latestCompositionSelection
  | CompositionStart => (latestCompositionSelection, handleCompositionStart ed)
  | CompositionEnd => (Some (docSelection ed), [])
  end.

(** A deletion that the buffered selection held back: with the buffer
    the event deletes nothing, without it the event would delete. *)
Definition heldBack (ev : view_event) (ed : editor) (latest : option selection) : bool :=
  bool_decide (snd (dispatch ev ed latest) = [] ∧ snd (dispatch ev ed None) ≠ []).

(** How many deletions the buffered selection holds back over a sequence
    of events, each with the editor as it is when the event arrives. *)
Fixpoint countHeldBack (evs : list (view_event * editor)) (latest : option selection) : nat :=
  match evs with
  | [] => O
  | (ev, ed) :: rest =>
      ((if heldBack ev ed latest then 1 else 0)
       + countHeldBack rest (fst (dispatch ev ed latest)))%nat
  end.

Definition isCompositionEnd (ev : view_event) : bool :=
  match ev with CompositionEnd => true | _ => false end.

End Handling.

End UnsafeKeystrokes.

(* ===================================================================== *)
(** * src/delete.js                                                       *)
(* ===================================================================== *)

Module Delete.

Inductive direction := Forward | Backward.

Section Listener.

(** Ranges of the view and of the model, and
    [editor.editing.mapper.toModelRange], which can throw. *)
Context {ViewRange ModelRange : Type} (toModelRange : ViewRange -> outcome ModelRange).

(** The data of a [delete] event of the view document. *)
Record DeleteEventData := {
  unit_ : string;
  sequence : nat;
  direction_ : direction;
  selectionToRemove : option (list ViewRange)
}.

(** The parameters passed to the delete command. *)
Record deleteCommandParams := {
  paramUnit : string;
  paramSequence : nat;
  paramSelection : option (list ModelRange)
}.

Inductive effect :=
| Execute (command : string) (params : deleteCommandParams)
| PreventDefault
| ScrollToTheSelection.

(** The listener of the [delete] event. *)
Definition onDelete (data : DeleteEventData) : outcome (list effect) :=
  selection ←
    match selectionToRemove data with
    | Some viewRanges =>
        ranges ← mapM toModelRange viewRanges;
        Ok (Some ranges)
    | None => Ok None
    end;
  let deleteCommandParams :=
    {| paramUnit := unit_ data; paramSequence := sequence data;
       paramSelection := selection |} in
  Ok [ Execute (match direction_ data with
                | Forward => "forwardDelete"
                | Backward => "delete"
                end) deleteCommandParams;
       PreventDefault;
       ScrollToTheSelection ].

(** Modelled from the spec: the delete command's source file is missing
    from the tree; "given the current selection (or an explicitly supplied
    override selection) ... it deletes content".  The ranges the command
    operates on. *)
Definition commandSelection (params : deleteCommandParams) (current : list ModelRange)
  : list ModelRange :=
  default current (paramSelection params).

(** The ranges the executed command operates on, if a command was
    executed. *)
Definition operatedOn (effects : list effect) (current : list ModelRange)
  : option (list ModelRange) :=
  match effects with
  | Execute _ params :: _ => Some (commandSelection params current)
  | _ => None
  end.

End Listener.

(** ** The listeners for Android

    They are registered when [env.isAndroid] holds and share the variable
    [domSelectionAfterDeletion]. *)

(** The selection of the DOM, [defaultView.getSelection()]: nodes are named
    by numbers. *)
Record DomSelection := {
  anchorNode : nat;
  anchorOffset : nat;
  focusNode : nat;
  focusOffset : nat
}.

(** [domSelection.collapse( node, offset )] of the DOM: both ends at the
    given point. *)
Definition collapse (node offset : nat) (s : DomSelection) : DomSelection :=
  {| anchorNode := node; anchorOffset := offset;
     focusNode := node; focusOffset := offset |}.

(** [domSelection.extend( node, offset )] of the DOM: the focus moves, the
    anchor stays. *)
Definition extend (node offset : nat) (s : DomSelection) : DomSelection :=
  {| anchorNode := anchorNode s; anchorOffset := anchorOffset s;
     focusNode := node; focusOffset := offset |}.

(** The events the two listeners are registered for, each with the
    selection of the DOM at the time it arrives. *)
Inductive android_event :=
| DeleteEvent (domSelection : DomSelection)
| KeyupEvent (domSelection : DomSelection).

(** The listener of [delete] with the lowest priority: the new value of
    [domSelectionAfterDeletion]. *)
Definition onDeleteLowest (domSelection : DomSelection) : option DomSelection :=
  Some {| anchorNode := anchorNode domSelection;
          anchorOffset := anchorOffset domSelection;
          focusNode := focusNode domSelection;
          focusOffset := focusOffset domSelection |}.

(** The listener of [keyup]: the selection of the DOM afterwards and the new
    value of [domSelectionAfterDeletion]; reading a property of [null]
    throws. *)
Definition onKeyup (domSelectionAfterDeletion : option DomSelection)
  (domSelection : DomSelection) : outcome (DomSelection * option DomSelection) :=
  match domSelectionAfterDeletion with
  | None => Throw TypeError
  | Some saved =>
      Ok (extend (focusNode saved) (focusOffset saved)
            (collapse (anchorNode saved) (anchorOffset saved) domSelection),
          None)
  end.

(** The events in turn: the selections of the DOM that the [keyup]
    listener has set, or the error at which the run stops.  Without
    [isAndroid] no listener is registered. *)
Fixpoint runAndroid (isAndroid : bool) (evs : list android_event)
  (domSelectionAfterDeletion : option DomSelection) : outcome (list DomSelection) :=
  match evs with
  | [] => Ok []
  | DeleteEvent domSelection :: rest =>
      runAndroid isAndroid rest
        (if isAndroid then onDeleteLowest domSelection else domSelectionAfterDeletion)
  | KeyupEvent domSelection :: rest =>
      if isAndroid then
        '(restored, saved) ← onKeyup domSelectionAfterDeletion domSelection;
        set ← runAndroid isAndroid rest saved;
        Ok (restored :: set)
      else runAndroid isAndroid rest domSelectionAfterDeletion
  end.

(** The number of [keyup] events in a run. *)
Fixpoint keyups (evs : list android_event) : nat :=
  match evs with
  | [] => O
  | DeleteEvent _ :: rest => keyups rest
  | KeyupEvent _ :: rest => S (keyups rest)
  end.

(** Every [keyup] comes after a [delete] with no other [keyup] in between;
    [pending] tells whether a [delete] is waiting for its [keyup]. *)
Fixpoint keyupsFollowDeletes (pending : bool) (evs : list android_event) : bool :=
  match evs with
  | [] => true
  | DeleteEvent _ :: rest => keyupsFollowDeletes true rest
  | KeyupEvent _ :: rest => pending && keyupsFollowDeletes false rest
  end.

End Delete.

(* ===================================================================== *)
(** * Inputs of the examples                                              *)
(* ===================================================================== *)

(** Bold text, as [<$text bold="true">]. *)
Definition bold : Model.attributes := {[ "bold" := "true" ]}.

(** The sentence of the quotation test, in straight double quotes (U+0022)
    after a space, and in curly ones (U+201C, U+201D); the dash is U+2014. *)
Definition sentence : jsstring :=
  str "Foo 1992 " ++ [8212] ++ str " bar(1) baz: xyz.".
Definition straightQuoted : jsstring := str " " ++ [34] ++ sentence ++ [34].
Definition curlyQuoted : jsstring := str " " ++ [8220] ++ sentence ++ [8221].

(** The paragraph "foo " of the watcher's tests, with the caret at its end,
    after [n] characters "@" were typed. *)
Definition fooTyped (n : nat) : TextWatcher.snapshot :=
  {| TextWatcher.content := plain (str "foo " ++ replicate n (ch "@"));
     TextWatcher.anchor := (4 + n)%nat;
     TextWatcher.focus := (4 + n)%nat |}.

(** A soft break, an inline element: the caret context of the watcher ends
    at it (tests/textwatcher.js, "should evaluate text before caret up to
    <softBreak>"). *)
Definition softBreak : item := Element "softBreak" ∅.

(** A predicate that holds when the context has odd length. *)
Definition oddLength (s : jsstring) : bool := Nat.odd (length s).

(** The key codes of the four arrow keys in the keyboard utilities. *)
Definition arrowCodes (key : string) : Z :=
  if decide (key = "arrowLeft") then 37
  else if decide (key = "arrowUp") then 38
  else if decide (key = "arrowRight") then 39
  else if decide (key = "arrowDown") then 40
  else 0.

(** A selection over the first three characters of the first paragraph. *)
Definition threeSelected : UnsafeKeystrokes.selection :=
  {| UnsafeKeystrokes.ranges :=
       [ {| UnsafeKeystrokes.start := [0; 0]%nat; UnsafeKeystrokes.end_ := [0; 3]%nat |} ];
     UnsafeKeystrokes.isBackward := false |}.

(** A mapper that knows the view ranges 1, 2, ... and throws for 0. *)
Definition staleAtZero (v : nat) : outcome nat :=
  match v with
  | O => Throw TypeError
  | S n => Ok (10 * v)%nat
  end.

Definition deleteData (viewRanges : list nat) : Delete.DeleteEventData :=
  {| Delete.unit_ := "character"; Delete.sequence := 1%nat;
     Delete.direction_ := Delete.Backward;
     Delete.selectionToRemove := Some viewRanges |}.

(* ===================================================================== *)
(** * Properties                                                          *)
(* ===================================================================== *)

(** ** Sequencing of outcomes, and lists *)

Lemma bind_Ok {A B : Type} (f : A -> outcome B) (m : outcome A) (b : B) :
  m ≫= f = Ok b ↔ ∃ a, m = Ok a ∧ f a = Ok b.
Proof.
  destruct m as [a|e]; simpl; split.
  - intros H. by exists a.
  - by intros (a' & [= ->] & H).
  - intros [=].
  - by intros (a' & [=] & _).
Qed.

Section OutcomeFacts.

Context {A B : Type}.

Lemma mapM_Ok (f : A -> outcome B) (l : list A) (k : list B) :
  mapM f l = Ok k ↔ Forall2 (fun x y => f x = Ok y) l k.
Proof.
  revert k. induction l as [|x l IH]; intros k; simpl.
  - split.
    + intros [= <-]. constructor.
    + intros H. by inversion H.
  - split.
    + intros H. apply bind_Ok in H as (y & Hy & H).
      apply bind_Ok in H as (k' & Hk' & [= <-]).
      constructor; [done | by apply IH].
    + intros H. inversion H as [|? y ? k' Hy Hk']; subst.
      apply bind_Ok. exists y. split; [done|].
      apply bind_Ok. exists k'. split; [by apply IH | done].
Qed.

Lemma mapM_Throw (f : A -> outcome B) (l : list A) (x : A) (e : error) :
  x ∈ l → f x = Throw e → ∃ e', mapM f l = Throw e'.
Proof.
  induction l as [|y l IH]; intros Hin Hx.
  - by apply elem_of_nil in Hin.
  - apply elem_of_cons in Hin as [<- | Hin]; simpl.
    + rewrite Hx. by exists e.
    + destruct (f y) as [b|e1]; simpl; [|by exists e1].
      destruct (IH Hin Hx) as [e' ->]. by exists e'.
Qed.

End OutcomeFacts.

Lemma lookup_head_drop {A} (l : list A) (i : nat) : l !! i = head (drop i l).
Proof.
  revert i. induction l as [|x l IH]; intros [|i]; simpl; done.
Qed.

(** ** The matcher always answers *)

Section MatcherFacts.

Context (input : jsstring).

Lemma matchChar_answers (p : N -> bool) : answers input (matchChar p input).
Proof.
  intros x c Hx Hc. unfold matchChar.
  destruct (input !! endIndex x) as [d|] eqn:Hd; [|done].
  destruct (p d); [|done].
  apply Hc. apply lookup_lt_Some in Hd. unfold reachable. simpl. lia.
Qed.

Lemma repeatMatcher_answers (m : mstate -> continuation -> outcome (option mstate))
  (gs : list nat) (fuel min : nat) (max : option nat) :
  answers input m →
  ∀ x c, (endIndex x ≤ length input)%nat →
         (min + (length input - endIndex x) < fuel)%nat →
         (∀ y, reachable input x y → is_ok (c y) = true) →
         is_ok (repeatMatcher fuel m gs min max x c) = true.
Proof.
  intros Hm. revert min max.
  induction fuel as [|fuel IH]; intros min max x c Hx Hfuel Hc; [lia|].
  cbn [repeatMatcher].
  assert (is_ok (c x) = true) as Hcx by (apply Hc; unfold reachable; lia).
  destruct (bool_decide (max = Some O)); [done|].
  cbv zeta.
  set (xr := {| endIndex := endIndex x; captures := clearCaptures gs (captures x) |}).
  match goal with |- context [m xr ?k] => set (d := k) end.
  assert (is_ok (m xr d) = true) as Hbody.
  { apply Hm; [done|]. intros y [Hxy Hy]. subst d xr. cbn [endIndex] in *. cbv beta.
    destruct (min =? 0)%nat eqn:Hmin; cbn [andb].
    - destruct (endIndex y =? endIndex x)%nat eqn:Hsame; [done|].
      apply Nat.eqb_neq in Hsame. apply Nat.eqb_eq in Hmin.
      apply IH; [done|lia|]. intros z [? ?]. apply Hc. unfold reachable. lia.
    - apply Nat.eqb_neq in Hmin.
      apply IH; [done|lia|]. intros z [? ?]. apply Hc. unfold reachable. lia. }
  destruct (min =? 0)%nat; [|done].
  destruct (m xr d) as [[z|]|e]; done.
Qed.

Lemma matcher_answers (r : re) : answers input (matcher r input).
Proof.
  induction r as [|d| |neg items| | |a IHa b IHb|a IHa b IHb|min max a IHa|i a IHa|a IHa];
    intros x c Hx Hc; cbn [matcher].
  - apply Hc. unfold reachable. lia.
  - by apply matchChar_answers.
  - by apply matchChar_answers.
  - by apply matchChar_answers.
  - destruct (endIndex x =? 0)%nat; [|done]. apply Hc. unfold reachable. lia.
  - destruct (endIndex x =? length input)%nat; [|done]. apply Hc. unfold reachable. lia.
  - apply IHa; [done|]. intros y [? ?]. apply IHb; [done|].
    intros z [? ?]. apply Hc. unfold reachable. lia.
  - specialize (IHa x c Hx Hc). specialize (IHb x c Hx Hc).
    destruct (matcher a input x c) as [[z|]|e]; done.
  - apply (repeatMatcher_answers (fun y d => matcher a input y d)); [exact IHa|done|lia|done].
  - apply IHa; [done|]. intros y Hy. apply Hc. exact Hy.
  - by apply IHa.
Qed.

(** [exec] and [test] never run out of fuel: they return. *)
Lemma execFrom_answers (rx : regexp) (n start : nat) :
  (start + n = length input)%nat →
  is_ok (execFrom n rx input start) = true.
Proof.
  revert start. induction n as [|n IH]; intros start Hlen; cbn [execFrom].
  - pose proof (matcher_answers (pattern rx)
                  {| endIndex := start; captures := replicate (nGroups rx) None |}
                  (fun y => Ok (Some y))) as H.
    destruct (matcher _ _ _ _) as [[y|]|e]; [done..|].
    apply H; [simpl; lia|done].
  - pose proof (matcher_answers (pattern rx)
                  {| endIndex := start; captures := replicate (nGroups rx) None |}
                  (fun y => Ok (Some y))) as H.
    destruct (matcher _ _ _ _) as [[y|]|e]; [done| |].
    + apply IH. lia.
    + apply H; [simpl; lia|done].
Qed.

Lemma exec_answers (rx : regexp) : ∃ m, exec rx input = Ok m.
Proof.
  pose proof (execFrom_answers rx (length input) 0 eq_refl) as H.
  unfold exec. destruct (execFrom _ _ _ _) as [m|e]; [by exists m|done].
Qed.

End MatcherFacts.

(** ** A string as [from]: the pattern that [normalizeFrom] builds *)

Section LiteralFacts.

Import TextTransformation.

Lemma not_syntax (c k : N) :
  isSyntaxChar c = false → k ∈ syntaxChars → (c =? k) = false.
Proof.
  intros Hc Hk. apply N.eqb_neq. intros ->.
  unfold isSyntaxChar in Hc. by apply bool_decide_eq_false in Hc.
Qed.

Ltac syntax_char := apply (bool_decide_unpack _); vm_compute; exact I.

(** After an escaped string and a closing parenthesis there is no
    quantifier to read. *)
Lemma parseQuantifier_escaped (a : re) (s rest : jsstring) :
  parseQuantifier a (escapeRegExp s ++ ch ")" :: rest)
  = Some (a, escapeRegExp s ++ ch ")" :: rest).
Proof.
  destruct s as [|c s]; [reflexivity|].
  unfold escapeRegExp. cbn [mbind list_bind]. fold (escapeRegExp s).
  destruct (isSyntaxChar c) eqn:Hc; [reflexivity|].
  cbn [app]. unfold parseQuantifier.
  rewrite !(not_syntax c _ Hc); [done|syntax_char..].
Qed.

(** One character of the escaped string is one Term. *)
Lemma parseTerm_escaped (fuel : nat) (c : N) (s rest : jsstring) (g : nat) :
  parseTerm (S fuel) (escapeRegExp (c :: s) ++ ch ")" :: rest) g
  = Some (RChar c, escapeRegExp s ++ ch ")" :: rest, g).
Proof.
  unfold escapeRegExp at 1. cbn [mbind list_bind]. fold (escapeRegExp s).
  destruct (isSyntaxChar c) eqn:Hc.
  - (* a backslash and the character *)
    cbn [app].
    assert (parseEscape c = Some (inr c)) as Hescape.
    { unfold isSyntaxChar in Hc. apply bool_decide_eq_true in Hc.
      unfold syntaxChars in Hc. vm_compute in Hc.
      repeat (apply elem_of_cons in Hc as [->|Hc]; [reflexivity|]).
      by apply elem_of_nil in Hc. }
    change (parseTerm (S fuel) (ch "\" :: c :: escapeRegExp s ++ ch ")" :: rest) g)
      with (a ← parseEscape c;
            let atom := match a with inl cl => cl | inr d => RChar d end in
            '(t, r2) ← parseQuantifier atom (escapeRegExp s ++ ch ")" :: rest);
            Some (t, r2, g)).
    rewrite Hescape. cbn [mbind option_bind]. cbv zeta.
    by rewrite parseQuantifier_escaped.
  - cbn [app parseTerm].
    rewrite !(not_syntax c _ Hc); [|syntax_char..].
    cbn [orb]. by rewrite parseQuantifier_escaped.
Qed.

(** The escaped string is read as the literal pattern of the string. *)
Lemma parseAlternative_escaped (s rest : jsstring) (fuel g : nat) :
  (length s < fuel)%nat →
  parseAlternative fuel (escapeRegExp s ++ ch ")" :: rest) g
  = Some (literal s, ch ")" :: rest, g).
Proof.
  revert fuel. induction s as [|c s IH]; intros fuel Hfuel.
  - destruct fuel as [|fuel]; [simpl in Hfuel; lia|]. reflexivity.
  - destruct fuel as [|fuel]; [simpl in Hfuel; lia|].
    assert (∃ d r, escapeRegExp (c :: s) ++ ch ")" :: rest = d :: r
                   ∧ (d =? ch "|") || (d =? ch ")") = false) as (d & r & Hd & Hnot).
    { unfold escapeRegExp at 1. cbn [mbind list_bind]. fold (escapeRegExp s).
      destruct (isSyntaxChar c) eqn:Hc.
      - eexists _, _. split; reflexivity.
      - eexists _, _. split; [reflexivity|].
        rewrite !(not_syntax c _ Hc); [done|syntax_char..]. }
    cbn [parseAlternative]. rewrite Hd, Hnot, <- Hd.
    destruct fuel as [|fuel]; [simpl in Hfuel; lia|].
    rewrite parseTerm_escaped. cbn [mbind option_bind].
    rewrite (IH (S fuel)) by (simpl in Hfuel; lia). reflexivity.
Qed.

Lemma length_escapeRegExp (s : jsstring) : (length s ≤ length (escapeRegExp s))%nat.
Proof.
  induction s as [|c s IH]; [done|].
  unfold escapeRegExp. cbn [mbind list_bind]. fold (escapeRegExp s).
  rewrite length_app. destruct (isSyntaxChar c); simpl; lia.
Qed.

(** The first character after the opening parenthesis is no question
    mark. *)
Lemma escaped_head (s rest : jsstring) :
  ∃ d r, escapeRegExp s ++ ch ")" :: rest = d :: r ∧ (d =? ch "?") = false.
Proof.
  destruct s as [|c s]; [by eexists _, _|].
  unfold escapeRegExp. cbn [mbind list_bind]. fold (escapeRegExp s).
  destruct (isSyntaxChar c) eqn:Hc; [by eexists _, _|].
  eexists _, _. split; [reflexivity|]. apply (not_syntax c _ Hc). syntax_char.
Qed.

Lemma parseTerm_group (fuel : nat) (q : N) (r : jsstring) (g : nat) :
  (q =? ch "?") = false →
  parseTerm (S fuel) (ch "(" :: q :: r) g
  = '(d, r1, g1) ← parseDisjunction fuel (q :: r) (S g);
    match r1 with
    | p :: r2 =>
        if p =? ch ")"
        then '(t, r3) ← parseQuantifier (RGroup (S g) d) r2; Some (t, r3, g1)
        else None
    | [] => None
    end.
Proof. intros Hq. cbn [parseTerm]. rewrite Hq. reflexivity. Qed.

(** [new RegExp( `(${ escapeRegExp( from ) })$` )] never throws: it is the
    literal pattern in one group, followed by the end of the input. *)
Lemma compile_escaped (s : jsstring) :
  compile (str "(" ++ escapeRegExp s ++ str ")$")
  = Ok {| pattern := RSeq (RGroup 1 (literal s)) (RSeq REol REmpty); nGroups := 1 |}.
Proof.
  unfold compile.
  set (fuel := (3 * length (str "(" ++ escapeRegExp s ++ str ")$") + 3)%nat).
  assert (∃ f, fuel = S (S (S (S f))) ∧ (length s < f)%nat) as (f & -> & Hf).
  { exists (fuel - 4)%nat. subst fuel. rewrite !length_app.
    pose proof (length_escapeRegExp s). simpl. lia. }
  change (str "(" ++ escapeRegExp s ++ str ")$")
    with (ch "(" :: (escapeRegExp s ++ ch ")" :: [ch "$"])).
  destruct (escaped_head s [ch "$"]) as (d & r & Hd & Hq).
  assert (parseTerm (S (S f)) (ch "(" :: (escapeRegExp s ++ ch ")" :: [ch "$"])) 0
          = Some (RGroup 1 (literal s), [ch "$"], 1%nat)) as Hterm.
  { rewrite Hd, (parseTerm_group _ _ _ _ Hq), <- Hd.
    cbn [parseDisjunction]. rewrite parseAlternative_escaped by done.
    reflexivity. }
  cbn [parseDisjunction parseAlternative].
  change ((ch "(" =? ch "|") || (ch "(" =? ch ")")) with false. cbv iota.
  rewrite Hterm. reflexivity.
Qed.

Lemma normalizeFrom_string (s : jsstring) :
  normalizeFrom (FromString s) = Ok (FromRegExp (suffixRegExp s)).
Proof. unfold normalizeFrom. by rewrite compile_escaped. Qed.

(** The literal pattern matches exactly when the input continues with the
    string, and then consumes it. *)
Lemma matcher_literal (s input : jsstring) (x : mstate) (c : continuation) :
  matcher (literal s) input x c
  = if bool_decide (take (length s) (drop (endIndex x) input) = s)
    then c {| endIndex := endIndex x + length s; captures := captures x |}
    else Ok None.
Proof.
  revert x. induction s as [|d s IH]; intros [e caps]; cbn [literal foldr matcher endIndex
                                                            captures].
  - rewrite take_0, Nat.add_0_r. by rewrite bool_decide_eq_true_2.
  - fold (literal s). unfold matchChar. cbn [endIndex].
    replace (input !! e) with (head (drop e input))
      by (symmetry; apply lookup_head_drop).
    destruct (drop e input) as [|d' rest] eqn:Hdrop; cbn [head].
    + rewrite bool_decide_eq_false_2; [done|]. by rewrite take_nil.
    + assert (drop (S e) input = rest) as Hrest.
      { replace (S e) with (e + 1)%nat by lia. by rewrite <- drop_drop, Hdrop. }
      destruct (N.eqb_spec d d') as [<-|Hne].
      * rewrite IH. unfold advance. cbn [endIndex captures length take].
        rewrite Hrest. replace (S e + length s)%nat with (e + S (length s))%nat by lia.
        destruct (decide (take (length s) rest = s)) as [Heq|Hneq].
        -- rewrite !bool_decide_eq_true_2; [done|by rewrite Heq|done].
        -- rewrite !bool_decide_eq_false_2; [done|congruence|done].
      * rewrite bool_decide_eq_false_2; [done|]. cbn [length take]. congruence.
Qed.

(** The pattern of a string [from], started at [start]. *)
Lemma matcher_suffix (s input : jsstring) (start : nat) (c : continuation) :
  matcher (pattern (suffixRegExp s)) input
    {| endIndex := start; captures := [None] |} c
  = if bool_decide (take (length s) (drop start input) = s)
       && (start + length s =? length input)%nat
    then c {| endIndex := start + length s;
              captures := [Some (substring start (start + length s) input)] |}
    else Ok None.
Proof.
  cbn [suffixRegExp pattern matcher]. rewrite matcher_literal. cbn [endIndex captures].
  destruct (bool_decide _); [|done]. cbn [andb pred].
  by destruct (_ =? _)%nat.
Qed.

(** [exec] finds the string at the end of the text, and nowhere before. *)
Lemma execFrom_suffix (s pre : jsstring) (n start : nat) :
  (start + n = length (pre ++ s))%nat →
  (start ≤ length pre)%nat →
  execFrom n (suffixRegExp s) (pre ++ s) start
  = Ok (Some {| matches := [Some s; Some s]; index := length pre |}).
Proof.
  revert start. induction n as [|n IH]; intros start Hn Hstart.
  - (* only the empty string is left: [start] is the end of [pre] *)
    rewrite length_app in Hn. assert (start = length pre ∧ s = []) as [-> ->].
    { split; [lia|]. apply nil_length_inv. lia. }
    cbn [execFrom nGroups suffixRegExp replicate]. rewrite matcher_suffix.
    rewrite app_nil_r, drop_all. cbn. rewrite Nat.add_0_r, Nat.eqb_refl.
    cbn. unfold substring. rewrite bool_decide_eq_true_2 by done.
    cbn. by rewrite Nat.sub_diag.
  - cbn [execFrom nGroups suffixRegExp replicate].
    fold (suffixRegExp s). rewrite matcher_suffix.
    destruct (decide (start = length pre)) as [->|Hne].
    + rewrite drop_app_length, firstn_all, bool_decide_eq_true_2 by done.
      rewrite <- length_app, Nat.eqb_refl.
      cbn [andb mbind outcome_bind endIndex captures]. unfold substring.
      rewrite drop_app_length.
      replace (length (pre ++ s) - length pre)%nat with (length s)
        by (rewrite length_app; lia).
      by rewrite firstn_all.
    + assert ((start + length s =? length (pre ++ s))%nat = false) as ->.
      { apply Nat.eqb_neq. rewrite length_app. lia. }
      rewrite andb_false_r. cbn [mbind outcome_bind].
      apply IH; lia.
Qed.

Lemma exec_suffix (s pre : jsstring) :
  exec (suffixRegExp s) (pre ++ s)
  = Ok (Some {| matches := [Some s; Some s]; index := length pre |}).
Proof. apply execFrom_suffix; lia. Qed.

End LiteralFacts.

(** ** The replacement loop *)

Section ReplacementFacts.

Import TextTransformation.

(** The attributes read after a position are those of the item at its
    offset, inside a text node as well as at its start. *)
Lemma getTextAttributesAfterPosition_lookup (parent : list item) (offset : nat) :
  getTextAttributesAfterPosition parent offset
  = match parent !! offset with
    | Some n => Ok (getAttributes n)
    | None => Throw TypeError
    end.
Proof.
  unfold getTextAttributesAfterPosition, nodeAfter, textNode.
  destruct offset as [|before]; [done|].
  destruct (parent !! before) as [[c a|name a]|]; [|done..].
  destruct (parent !! S before) as [[d b|name b]|]; [|done..].
  by destruct (decide (a = b)).
Qed.

(** The loop over the offsets of the parent computes the replacement by
    segments. *)
Lemma replaceGroups_segments (groups : jsarray) (i : nat) (replaces : jsarray)
  (changeIndex : nat) (parent : list item) :
  replaceGroups groups i replaces changeIndex parent
  = following ← replaceSegments groups i replaces (drop changeIndex parent);
    Ok (take changeIndex parent ++ following).
Proof.
  revert i changeIndex parent.
  induction groups as [|match_ rest IH]; intros i changeIndex parent.
  - simpl. by rewrite take_drop.
  - cbn [replaceGroups replaceSegments].
    destruct match_ as [captured|]; cbn [lengthOf].
    2: { by destruct (replaces !! (i - 1)%nat) as [[?|]|]. }
    cbn [mbind outcome_bind].
    destruct (replaces !! (i - 1)%nat) as [[replaceWith|]|].
    + rewrite getTextAttributesAfterPosition_lookup, lookup_head_drop.
      destruct (drop changeIndex parent) as [|n following] eqn:Hdrop; [done|].
      cbn [head mbind outcome_bind].
      assert (changeIndex < length parent)%nat as Hlt.
      { apply (f_equal length) in Hdrop. rewrite length_drop in Hdrop.
        simpl in Hdrop. lia. }
      rewrite IH. unfold insertContent.
      assert (length (take changeIndex parent ++ createText replaceWith (getAttributes n))
              = (changeIndex + length replaceWith)%nat) as Hlen.
      { rewrite length_app, length_take. unfold createText.
        rewrite length_fmap. lia. }
      rewrite app_assoc, <- Hlen, drop_app_length, take_app_length.
      rewrite <- Hdrop, drop_drop.
      destruct (replaceSegments rest (S i) replaces
                  (drop (changeIndex + length captured) parent)); simpl; [|done].
      by rewrite <- app_assoc.
    + rewrite IH, <- drop_drop.
      destruct (replaceSegments rest (S i) replaces
                  (drop (length captured) (drop changeIndex parent))); simpl; [|done].
      by rewrite app_assoc, take_take_drop.
    + rewrite IH, <- drop_drop.
      destruct (replaceSegments rest (S i) replaces
                  (drop (length captured) (drop changeIndex parent))); simpl; [|done].
      by rewrite app_assoc, take_take_drop.
Qed.

(** Text and formatting of the items. *)
Lemma textOf_app (l k : list item) : textOf (l ++ k) = textOf l ++ textOf k.
Proof. apply omap_app. Qed.

Lemma textOf_createText (data : jsstring) (attrs : attributes) :
  textOf (createText data attrs) = data.
Proof. induction data as [|c data IH]; [done|]. cbn. by f_equal. Qed.

Lemma textOf_formatted (text : jsstring) (attrs : list attributes) :
  (length text ≤ length attrs)%nat → textOf (formatted text attrs) = text.
Proof.
  revert attrs. induction text as [|c text IH]; intros [|a attrs] Hlen; try done.
  - simpl in Hlen. lia.
  - cbn. f_equal. apply IH. simpl in Hlen. lia.
Qed.

Lemma length_formatted (text : jsstring) (attrs : list attributes) :
  length attrs = length text → length (formatted text attrs) = length text.
Proof. intros Hlen. unfold formatted. by rewrite length_zip_with_l_eq. Qed.

Lemma formatted_app (pre s : jsstring) (attrs : list attributes) :
  formatted (pre ++ s) attrs
  = formatted pre (take (length pre) attrs) ++ formatted s (drop (length pre) attrs).
Proof.
  revert attrs. induction pre as [|c pre IH]; intros attrs.
  - by rewrite drop_0.
  - destruct attrs as [|a attrs]; cbn.
    + unfold formatted. by destruct s.
    + f_equal. apply IH.
Qed.

End ReplacementFacts.

(** ** The rules on the texts of the tests *)

Section RuleFacts.

Import TextTransformation.
Context {Batch : Type} (isInput : Batch -> bool).

(** A rule from a string to a string, on any text that ends with the
    string: the normalised [from] matches, the listener does not throw, and
    afterwards the paragraph reads the text before the string followed by
    the replacement, whatever the formatting was. *)
Lemma literal_rule_replaces (s t pre : jsstring) (attrs : list attributes)
  (batch : Batch) (seen : list (list item)) :
  isInput batch = true →
  s ≠ [] →
  length attrs = length (pre ++ s) →
  ∃ from st',
    normalizeFrom (FromString s) = Ok from
    ∧ fromTest from (pre ++ s) = Ok true
    ∧ onMatchedData isInput from (normalizeTo (ToString t))
        {| text := pre ++ s; batch := batch |}
        {| parent := formatted (pre ++ s) attrs; observed := seen |}
      = (st', Ok ())
    ∧ textOf (parent st') = pre ++ t.
Proof.
  intros Hinput Hs Hattrs. rewrite length_app in Hattrs.
  assert (length (formatted pre (take (length pre) attrs)) = length pre) as Hpre.
  { apply length_formatted. rewrite length_take. lia. }
  destruct (drop (length pre) attrs) as [|a rest] eqn:Hdrop.
  { apply (f_equal length) in Hdrop. rewrite length_drop in Hdrop.
    destruct s; [done|]. simpl in *. lia. }
  assert (S (length rest) = length s) as Hrest.
  { apply (f_equal length) in Hdrop. rewrite length_drop in Hdrop. simpl in *. lia. }
  exists (FromRegExp (suffixRegExp s)). eexists.
  split; [apply normalizeFrom_string|].
  split; [by cbn [fromTest]; unfold RegExp.test; rewrite exec_suffix|].
  unfold onMatchedData. cbn [TextTransformation.batch TextTransformation.text].
  rewrite Hinput. cbn [negb fromExec]. rewrite exec_suffix.
  cbn [normalizeTo callTo RegExp.matches RegExp.index drop].
  unfold enqueueChange. cbn [parent observed].
  rewrite replaceGroups_segments, formatted_app, Hdrop.
  rewrite drop_app_length', take_app_length' by done.
  destruct s as [|c s]; [done|].
  cbn [replaceSegments lengthOf mbind outcome_bind lookup list_lookup Nat.sub
       formatted zip_with getAttributes length drop].
  fold (formatted s rest).
  rewrite drop_ge by (rewrite length_formatted; simpl in Hrest; lia).
  split; [reflexivity|]. cbn [parent].
  rewrite !textOf_app, textOf_createText, app_nil_r.
  f_equal. apply textOf_formatted. rewrite length_take. lia.
Qed.

(** C1.  For the rule [{ from: '(c)', to: (c)-sign }] and a [matched:data]
    event of an input batch with the caret context "A foo(c)": the
    normalised [from] matches the context, the listener does not throw, and
    it replaces the three items of the paragraph at the offset that the
    match has in the context.  In a paragraph that holds nothing before the
    context, the paragraph reads "A foo" followed by the copyright sign
    (U+00A9) afterwards, whatever the formatting of its characters was.  In
    a paragraph where a soft break comes before the same context, these
    offsets lie one item to the left of the typed string: the paragraph
    reads "A fo", the copyright sign and ")" afterwards, and not "A foo"
    followed by the copyright sign. *)
Theorem C1_replaced_at_context_offset (batch : Batch) (attrs : list attributes)
  (seen : list (list item)) :
  isInput batch = true →
  length attrs = 8%nat →
  let typed := formatted (str "A foo(c)") attrs in
  let data := {| text := str "A foo(c)"; batch := batch |} in
  ∃ from alone afterBreak,
    normalizeFrom (FromString (str "(c)")) = Ok from
    ∧ fromTest from (str "A foo(c)") = Ok true
    ∧ TextWatcher.caretContext
        {| TextWatcher.content := typed;
           TextWatcher.anchor := 8%nat; TextWatcher.focus := 8%nat |}
      = str "A foo(c)"
    ∧ onMatchedData isInput from (normalizeTo (ToString [169])) data
        {| parent := typed; observed := seen |}
      = (alone, Ok ())
    ∧ textOf (parent alone) = str "A foo" ++ [169]
    ∧ TextWatcher.caretContext
        {| TextWatcher.content := softBreak :: typed;
           TextWatcher.anchor := 9%nat; TextWatcher.focus := 9%nat |}
      = str "A foo(c)"
    ∧ onMatchedData isInput from (normalizeTo (ToString [169])) data
        {| parent := softBreak :: typed; observed := seen |}
      = (afterBreak, Ok ())
    ∧ textOf (parent afterBreak) = str "A fo" ++ [169] ++ str ")".
Proof.
  intros Hinput Hattrs typed data.
  destruct (literal_rule_replaces (str "(c)") [169] (str "A foo") attrs batch seen
              Hinput ltac:(discriminate) Hattrs)
    as (from & alone & Hfrom & Htest & Halone & Htext).
  rewrite normalizeFrom_string in Hfrom. injection Hfrom as <-.
  subst typed data.
  do 8 (destruct attrs as [|? attrs]; [discriminate|]).
  destruct attrs; [|discriminate]. clear Hattrs.
  exists (FromRegExp (suffixRegExp (str "(c)"))), alone. eexists.
  split; [apply normalizeFrom_string|]. split; [exact Htest|].
  split; [reflexivity|]. split; [exact Halone|]. split; [exact Htext|].
  split; [reflexivity|].
  unfold onMatchedData. cbn [TextTransformation.batch TextTransformation.text].
  rewrite Hinput. cbn [negb].
  set (found := fromExec _ _). vm_compute in found. subst found.
  cbn [normalizeTo callTo RegExp.matches RegExp.index drop].
  unfold enqueueChange. cbn [parent observed].
  rewrite replaceGroups_segments.
  set (content := mbind _ _). vm_compute in content. subst content.
  cbv beta iota. split; reflexivity.
Qed.

(** C2.  For the rule [quotesPrimary] and a [matched:data] event of an input
    batch with the quoted sentence as the caret context: the listener does
    not throw, and it works on the items of the paragraph at the offsets
    that the groups have in the context.  In a paragraph that holds nothing
    before the context, the paragraph reads the sentence in curly quotes
    afterwards, and the items of the two groups whose replacement is
    [null], the leading space and the 27 characters between the quotes, are
    the items that were there, with their attributes.  In a paragraph where
    a soft break comes before the same context, the offsets lie one item to
    the left: the leading space and the full stop are replaced by the curly
    quotes and both straight quotes stay. *)
Theorem C2_quotes_at_context_offsets (batch : Batch) (attrs : list attributes)
  (seen : list (list item)) :
  isInput batch = true →
  length attrs = 30%nat →
  let before := formatted straightQuoted attrs in
  let data := {| text := straightQuoted; batch := batch |} in
  ∃ rule from alone afterBreak,
    TRANSFORMATIONS !! "quotesPrimary" = Some rule
    ∧ to rule = ToArray [None; Some [8220]; None; Some [8221]]
    ∧ normalizeFrom (TextTransformation.from rule) = Ok from
    ∧ onMatchedData isInput from (normalizeTo (to rule)) data
        {| parent := before; observed := seen |}
      = (alone, Ok ())
    ∧ textOf (parent alone) = curlyQuoted
    ∧ length (parent alone) = 30%nat
    ∧ take 1 (parent alone) = take 1 before
    ∧ take 27 (drop 2 (parent alone)) = take 27 (drop 2 before)
    ∧ TextWatcher.caretContext
        {| TextWatcher.content := softBreak :: before;
           TextWatcher.anchor := 31%nat; TextWatcher.focus := 31%nat |}
      = straightQuoted
    ∧ onMatchedData isInput from (normalizeTo (to rule)) data
        {| parent := softBreak :: before; observed := seen |}
      = (afterBreak, Ok ())
    ∧ textOf (parent afterBreak)
      = [8220; 34] ++ str "Foo 1992 " ++ [8212] ++ str " bar(1) baz: xyz" ++ [8221; 34].
Proof.
  intros Hinput Hattrs before data. subst before data.
  do 30 (destruct attrs as [|? attrs]; [discriminate|]).
  destruct attrs; [|discriminate]. clear Hattrs.
  eexists. eexists. eexists. eexists.
  split; [by vm_compute|]. split; [reflexivity|]. split; [by vm_compute|].
  unfold onMatchedData. cbn [TextTransformation.batch TextTransformation.text].
  rewrite Hinput. cbn [negb].
  set (found := fromExec _ _). vm_compute in found. subst found.
  cbn [normalizeTo to callTo RegExp.matches RegExp.index drop].
  unfold enqueueChange. cbn [parent observed].
  rewrite !replaceGroups_segments.
  set (content := mbind _ _). vm_compute in content. subst content.
  cbv beta iota. split; [reflexivity|].
  split; [vm_compute; reflexivity|]. split; [vm_compute; reflexivity|].
  split; [vm_compute; reflexivity|]. split; [vm_compute; reflexivity|].
  split; [vm_compute; reflexivity|].
  set (content := mbind _ _). vm_compute in content. subst content.
  cbv beta iota. split; [reflexivity|]. vm_compute. reflexivity.
Qed.

End RuleFacts.

Lemma C1_witness :
  let typed := formatted (str "A foo(c)") (replicate 5 ∅ ++ replicate 3 bold) in
  let data := {| TextTransformation.text := str "A foo(c)";
                 TextTransformation.batch := 1%nat |} in
  ∃ from alone afterBreak,
    TextTransformation.normalizeFrom (TextTransformation.FromString (str "(c)")) = Ok from
    ∧ TextTransformation.fromTest from (str "A foo(c)") = Ok true
    ∧ TextWatcher.caretContext
        {| TextWatcher.content := typed;
           TextWatcher.anchor := 8%nat; TextWatcher.focus := 8%nat |}
      = str "A foo(c)"
    ∧ TextTransformation.onMatchedData (fun b : nat => bool_decide (b = 1%nat)) from
        (TextTransformation.normalizeTo (TextTransformation.ToString [169])) data
        {| parent := typed; observed := [] |}
      = (alone, Ok ())
    ∧ textOf (parent alone) = str "A foo" ++ [169]
    ∧ TextWatcher.caretContext
        {| TextWatcher.content := softBreak :: typed;
           TextWatcher.anchor := 9%nat; TextWatcher.focus := 9%nat |}
      = str "A foo(c)"
    ∧ TextTransformation.onMatchedData (fun b : nat => bool_decide (b = 1%nat)) from
        (TextTransformation.normalizeTo (TextTransformation.ToString [169])) data
        {| parent := softBreak :: typed; observed := [] |}
      = (afterBreak, Ok ())
    ∧ textOf (parent afterBreak) = str "A fo" ++ [169] ++ str ")".
Proof.
  apply (C1_replaced_at_context_offset (fun b : nat => bool_decide (b = 1%nat)) 1%nat
           (replicate 5 ∅ ++ replicate 3 bold) []).
  - reflexivity.
  - reflexivity.
Defined.

Lemma C2_witness :
  let before := formatted straightQuoted (replicate 30 bold) in
  let data := {| TextTransformation.text := straightQuoted;
                 TextTransformation.batch := 1%nat |} in
  ∃ rule from alone afterBreak,
    TextTransformation.TRANSFORMATIONS !! "quotesPrimary" = Some rule
    ∧ TextTransformation.to rule
      = TextTransformation.ToArray [None; Some [8220]; None; Some [8221]]
    ∧ TextTransformation.normalizeFrom (TextTransformation.from rule) = Ok from
    ∧ TextTransformation.onMatchedData (fun b : nat => bool_decide (b = 1%nat)) from
        (TextTransformation.normalizeTo (TextTransformation.to rule)) data
        {| parent := before; observed := [] |}
      = (alone, Ok ())
    ∧ textOf (parent alone) = curlyQuoted
    ∧ length (parent alone) = 30%nat
    ∧ take 1 (parent alone) = take 1 before
    ∧ take 27 (drop 2 (parent alone)) = take 27 (drop 2 before)
    ∧ TextWatcher.caretContext
        {| TextWatcher.content := softBreak :: before;
           TextWatcher.anchor := 31%nat; TextWatcher.focus := 31%nat |}
      = straightQuoted
    ∧ TextTransformation.onMatchedData (fun b : nat => bool_decide (b = 1%nat)) from
        (TextTransformation.normalizeTo (TextTransformation.to rule)) data
        {| parent := softBreak :: before; observed := [] |}
      = (afterBreak, Ok ())
    ∧ textOf (parent afterBreak)
      = [8220; 34] ++ str "Foo 1992 " ++ [8212] ++ str " bar(1) baz: xyz" ++ [8221; 34].
Proof.
  apply (C2_quotes_at_context_offsets (fun b : nat => bool_decide (b = 1%nat)) 1%nat
           (replicate 30 bold) []).
  - reflexivity.
  - reflexivity.
Defined.

(** ** The listener and its transaction *)

Section ListenerFacts.

Import TextTransformation.
Context {Batch : Type} (isInput : Batch -> bool).

(** C3.  A batch that is not user input, and every watcher event other
    than [matched:data] (the watcher's answer to a bare selection change),
    leaves the model as it is: the listener returns before it reads the
    match, so no transaction is opened and nothing is replaced. *)
Theorem C3_no_change_without_input (from : from_value) (to : to_value)
  (evt : watcher_event) (st : state) :
  match evt with
  | MatchedData data => isInput (batch data) = false
  | _ => True
  end →
  onWatcherEvent isInput from to evt st = (st, Ok ()).
Proof.
  destruct evt as [data| |]; simpl; [|done..].
  intros Hinput. unfold onMatchedData. by rewrite Hinput.
Qed.

(** C4.  The listener opens at most one transaction, and the whole loop over
    the capture groups runs inside it: either the model is left as it was
    (nothing was shown to the change listeners), or the change listeners are
    shown one new state, the content after all the groups were replaced.
    When the listener throws, the model is in its state from before. *)
Theorem C4_single_transaction (from : from_value) (to : to_value)
  (data : matched_data) (st : state) :
  let result := onMatchedData isInput from to data st in
  (fst result = st
   ∨ ∃ matches replaces content,
       fromExec from (text data) = Ok (Some matches)
       ∧ callTo to (drop 1 (RegExp.matches matches)) = Ok replaces
       ∧ replaceGroups (drop 1 (RegExp.matches matches)) 1 replaces
           (RegExp.index matches) (parent st) = Ok content
       ∧ result = ({| parent := content; observed := observed st ++ [content] |}, Ok ()))
  ∧ ∀ e, snd result = Throw e → fst result = st.
Proof.
  cbv zeta. unfold onMatchedData.
  destruct (isInput (batch data)); cbn [negb]; [|by split; [left|]].
  destruct (fromExec from (text data)) as [[matches|]|e1] eqn:Hexec;
    [|by split; [left|]..].
  destruct (callTo to (drop 1 (RegExp.matches matches))) as [replaces|e2] eqn:Hcall;
    [|by split; [left|]].
  unfold enqueueChange.
  destruct (replaceGroups _ _ _ _ _) as [content|e3] eqn:Hloop; cbn [fst snd].
  - split; [|done]. right. by exists matches, replaces, content.
  - by split; [left|].
Qed.

End ListenerFacts.

Lemma C3_witness :
  let from := TextTransformation.FromRegExp {| pattern := REol; nGroups := 0 |} in
  let data := {| TextTransformation.text := str "(tm)"; TextTransformation.batch := 7%nat |} in
  let st := {| parent := plain (str "(tm)"); observed := [] |} in
  TextTransformation.onWatcherEvent (fun b : nat => bool_decide (b = 1%nat)) from
    (TextTransformation.ToArray []) (TextTransformation.MatchedData data) st
  = (st, Ok ()).
Proof.
  intros from data st.
  apply (C3_no_change_without_input (fun b : nat => bool_decide (b = 1%nat))
           from (TextTransformation.ToArray []) (TextTransformation.MatchedData data) st).
  reflexivity.
Defined.

(** A transaction that throws after its first replacement: for a rule with
    two groups, an "a" and then any number of "b", both replaced (by "X" and
    by "Y"), and the text "a", the first group is replaced by "X", and the
    second, empty and at the end of the paragraph, has no text after it to
    take the attributes from.  The listener throws and the paragraph still
    reads "a". *)
Lemma C4_witness :
  ∃ from,
    TextTransformation.normalizeFrom
      (TextTransformation.literalRegExp (str "(a)(b*)$") eq_refl) = Ok from
    ∧ let st := {| parent := plain (str "a"); observed := [] |} in
      let result :=
        TextTransformation.onMatchedData (fun b : nat => bool_decide (b = 1%nat)) from
          (TextTransformation.normalizeTo
             (TextTransformation.ToArray [Some (str "X"); Some (str "Y")]))
          {| TextTransformation.text := str "a"; TextTransformation.batch := 1%nat |} st in
      TextTransformation.replaceGroups [Some (str "a")] 1
        [Some (str "X"); Some (str "Y")] 0 (parent st) = Ok (plain (str "X"))
      ∧ snd result = Throw TypeError ∧ fst result = st.
Proof.
  eexists. split; [reflexivity|].
  intros st result. split; [vm_compute; reflexivity|].
  assert (snd result = Throw TypeError) as Hthrown by (vm_compute; reflexivity).
  split; [exact Hthrown|].
  exact (proj2 (C4_single_transaction (fun b : nat => bool_decide (b = 1%nat)) _ _ _ st)
           TypeError Hthrown).
Defined.

(** ** Resolution of the configured transformations *)

Section ResolutionFacts.

Import TextTransformation.

Lemma elem_of_setAdd (s : list definition) (v x : definition) :
  x ∈ setAdd s v ↔ x ∈ s ∨ x = v.
Proof.
  unfold setAdd. destruct (decide (v ∈ s)) as [Hin|Hnotin].
  - split; [by left | by intros [?| ->]].
  - rewrite elem_of_app, list_elem_of_singleton. done.
Qed.

Lemma elem_of_foldl_setAdd (vs s : list definition) (x : definition) :
  x ∈ foldl setAdd s vs ↔ x ∈ s ∨ x ∈ vs.
Proof.
  revert s. induction vs as [|v vs IH]; intros s; simpl.
  - rewrite elem_of_nil. tauto.
  - rewrite IH, elem_of_setAdd, elem_of_cons. tauto.
Qed.

Lemma NoDup_setAdd (s : list definition) (v : definition) : NoDup s → NoDup (setAdd s v).
Proof.
  intros Hs. unfold setAdd. destruct (decide (v ∈ s)); [done|].
  apply NoDup_app. split; [done|]. split; [|apply NoDup_singleton].
  intros x Hx ->%list_elem_of_singleton. done.
Qed.

Lemma NoDup_foldl_setAdd (vs s : list definition) : NoDup s → NoDup (foldl setAdd s vs).
Proof.
  revert s. induction vs as [|v vs IH]; intros s Hs; simpl; [done|].
  by apply IH, NoDup_setAdd.
Qed.

(** The elements of the expanded set: what was there, the definitions
    that are no group, and the members of the definitions that are. *)
Lemma elem_of_expandInto (definitions acc l : list definition) (x : definition) :
  expandInto acc definitions = Ok l →
  x ∈ l ↔ x ∈ acc
          ∨ (x ∈ definitions ∧ groupOf x = Undefined)
          ∨ ∃ d members m, d ∈ definitions ∧ groupOf d = Own members
                           ∧ m ∈ members ∧ x = DString m.
Proof.
  revert acc. induction definitions as [|d ds IH]; intros acc; simpl.
  - intros [= <-]. split; [by left|].
    intros [?|[[H _]|(d & ms & m & H & _)]]; [done|by apply elem_of_nil in H..].
  - fold (groupOf d). destruct (groupOf d) as [members| |] eqn:Hd; [|done|]; intros Hl.
    + rewrite (IH _ Hl), elem_of_foldl_setAdd, list_elem_of_fmap.
      setoid_rewrite elem_of_cons. split.
      * intros [[?|(m & -> & Hm)]|[[? ?]|(d' & ms & m & ? & ? & ? & ?)]];
          [by left| |by right; left; split; [right|]|].
        -- right. right. exists d, members, m. by intuition.
        -- right. right. exists d', ms, m. by intuition.
      * intros [?|[[[-> | ?] Hx]|(d' & ms & m & [-> | ?] & Hms & Hm & ->)]].
        -- by left; left.
        -- congruence.
        -- by right; left.
        -- left. right. exists m. split; [done|]. congruence.
        -- right. right. exists d', ms, m. by intuition.
    + rewrite (IH _ Hl), elem_of_setAdd.
      setoid_rewrite elem_of_cons. split.
      * intros [[?| ->]|[[? ?]|(d' & ms & m & ? & ? & ? & ?)]];
          [by left|by right; left; split; [left|]|by right; left; split; [right|]|].
        right. right. exists d', ms, m. by intuition.
      * intros [?|[[[-> | ?] Hx]|(d' & ms & m & [-> | ?] & Hms & Hm & ->)]].
        -- by left; left.
        -- by left; right.
        -- by right; left.
        -- congruence.
        -- right. right. exists d', ms, m. by intuition.
Qed.

(** The result of the expansion has no duplicates. *)
Lemma NoDup_expandInto (definitions acc l : list definition) :
  NoDup acc → expandInto acc definitions = Ok l → NoDup l.
Proof.
  revert acc. induction definitions as [|d ds IH]; intros acc Hacc; simpl.
  - by intros [= <-].
  - destruct (getProperty _ _) as [members| |]; [|done|]; apply IH.
    + by apply NoDup_foldl_setAdd.
    + by apply NoDup_setAdd.
Qed.

(** The expansion throws exactly when a definition names a member of
    [Object.prototype]. *)
Lemma expandInto_total (definitions acc : list definition) :
  Forall (fun d => groupOf d ≠ Inherited) definitions →
  ∃ l, expandInto acc definitions = Ok l.
Proof.
  intros Hall. revert acc.
  induction Hall as [|d ds Hd _ IH]; intros acc; simpl; [by eexists|].
  fold (groupOf d). destruct (groupOf d); [apply IH|done|apply IH].
Qed.

(** The groups of the table, one by one. *)
Lemma lookup_group (g : string) (members : list string) :
  TRANSFORMATION_GROUPS !! g = Some members →
  (g, members) ∈ [ ("symbols", ["copyright"; "registeredTrademark"; "trademark"]);
                   ("mathematical", ["oneHalf"; "oneThird"; "twoThirds"; "oneForth";
                                     "threeQuarters"; "lessThanOrEqual";
                                     "greaterThanOrEqual"; "notEqual"; "arrowLeft";
                                     "arrowRight"]);
                   ("typography", ["horizontalEllipsis"; "enDash"; "emDash"]);
                   ("quotes", ["quotesPrimary"; "quotesSecondary"]) ].
Proof. intros H. by apply elem_of_list_to_map_2 in H. Qed.

Ltac each_group H :=
  apply lookup_group in H;
  repeat (apply elem_of_cons in H as [[= -> ->]|H]);
  [..|by apply elem_of_nil in H].

Ltac each_member H :=
  repeat (apply elem_of_cons in H as [->|H]);
  [..|by apply elem_of_nil in H].

(** A member of a group names a built-in transformation and no group, and
    it belongs to that group only. *)
Lemma group_member (g : string) (members : list string) (m : string) :
  TRANSFORMATION_GROUPS !! g = Some members → m ∈ members →
  is_Some (TRANSFORMATIONS !! m)
  ∧ groupOf (DString m) = Undefined
  ∧ m ≠ "[object Object]".
Proof.
  intros Hg Hm. each_group Hg; each_member Hm.
  all: split; [by eexists|].
  all: split; [by vm_compute|].
  all: done.
Qed.

Lemma group_member_unique (g g' : string) (members members' : list string) (m : string) :
  TRANSFORMATION_GROUPS !! g = Some members → m ∈ members →
  TRANSFORMATION_GROUPS !! g' = Some members' → m ∈ members' →
  g' = g.
Proof.
  intros Hg Hm Hg' Hm'.
  assert (ownerOf m = Some g) as Hown
    by (clear Hg' Hm'; each_group Hg; each_member Hm; reflexivity).
  assert (ownerOf m = Some g') as Hown'
    by (clear Hg Hm Hown; each_group Hg'; each_member Hm'; reflexivity).
  congruence.
Qed.

(** Only a name indexes the tables with the key of a group or of a
    member. *)
Lemma groupOf_Own (d : definition) (members : list string) :
  groupOf d = Own members →
  ∃ g, d = DString g ∧ TRANSFORMATION_GROUPS !! g = Some members.
Proof.
  unfold groupOf, getProperty.
  destruct (TRANSFORMATION_GROUPS !! toPropertyKey d) as [ms|] eqn:Hd;
    [|by destruct (decide _)].
  intros [= <-]. destruct d as [s|ref]; cbn [toPropertyKey] in Hd.
  - by exists s.
  - by vm_compute in Hd.
Qed.

Lemma lookupTransformation_builtin (t : definition) (g : string) (members : list string)
  (m : string) :
  TRANSFORMATION_GROUPS !! g = Some members → m ∈ members →
  lookupTransformation t = VBuiltin m ↔ t = DString m.
Proof.
  intros Hg Hm. destruct (group_member g members m Hg Hm) as ([r Hr] & _ & Hobj).
  unfold lookupTransformation, getProperty. split.
  - destruct (TRANSFORMATIONS !! toPropertyKey t) eqn:Ht.
    + intros [= Hkey]. clear Ht Hr.
      destruct t; cbn [toPropertyKey] in Hkey; congruence.
    + by destruct (decide _).
  - intros ->. cbn [toPropertyKey]. by rewrite Hr.
Qed.

(** The resolution throws only for a configured name that is a member of
    [Object.prototype]. *)
Lemma getConfiguredTransformations_total (config : config) :
  Forall (fun d => groupOf d ≠ Inherited)
         (include config ++ default [] (extra config)) →
  ∃ l, getConfiguredTransformations config = Ok l.
Proof.
  intros Hall. unfold getConfiguredTransformations, expandGroupsAndRemoveDuplicates.
  destruct (expandInto_total
              (filter (fun t => t ∉ default [] (remove config))
                      (include config ++ default [] (extra config))) []) as [l Hl].
  - apply Forall_forall. intros d [_ Hd]%list_elem_of_filter.
    by apply (proj1 (Forall_forall _ _) Hall).
  - rewrite Hl. by eexists.
Qed.

(** C6, amended.  When [remove] names a group, the group is not expanded,
    and a member of that group is in the resolved list exactly when its own
    name is listed in [include] or [extra] and is not itself in [remove]:
    the subtraction, before and after the expansion, is by name, and the
    group names in [remove] are not expanded to their members. *)
Theorem C6_removed_group_member (config : config) (g : string)
  (members : list string) (m : string) (l : list value) :
  DString g ∈ default [] (remove config) →
  TRANSFORMATION_GROUPS !! g = Some members →
  m ∈ members →
  getConfiguredTransformations config = Ok l →
  VBuiltin m ∈ l ↔ DString m ∈ include config ++ default [] (extra config)
                   ∧ DString m ∉ default [] (remove config).
Proof.
  intros Hremoved Hg Hm Hl.
  unfold getConfiguredTransformations, expandGroupsAndRemoveDuplicates in Hl.
  apply bind_Ok in Hl as (expanded & Hexpanded & [= <-]).
  destruct (group_member g members m Hg Hm) as (_ & Hnogroup & _).
  rewrite list_elem_of_fmap.
  setoid_rewrite list_elem_of_filter.
  setoid_rewrite (elem_of_expandInto _ _ _ _ Hexpanded).
  setoid_rewrite list_elem_of_filter.
  split.
  - intros (t & Ht & Hkept & Hin).
    symmetry in Ht. apply (lookupTransformation_builtin t g members m Hg Hm) in Ht as ->.
    destruct Hin as [Hin|[[[_ Hin] _]|(d & ms & m' & [Hd Hin] & Hms & Hm' & [= <-])]].
    + by apply elem_of_nil in Hin.
    + done.
    + (* the member came from a group: that group is [g], which was removed *)
      apply groupOf_Own in Hms as (g' & -> & Hg').
      assert (g' = g) as -> by exact (group_member_unique g g' members ms m Hg Hm Hg' Hm').
      done.
  - intros [Hin Hkept]. exists (DString m). split; [|split; [done|]].
    + symmetry. by apply (lookupTransformation_builtin _ g members m Hg Hm).
    + right. left. done.
Qed.

End ResolutionFacts.

(** C5, on the code.  The name "bogus" is not dropped: it stays in the
    resolved list as a string, after the three rules of the group; [init]
    then makes a watcher for it whose [from] and [to] are undefined, and
    whose test callback throws a TypeError when it is first called. *)
Theorem C5_unknown_name_is_kept :
  let config :=
    TextTransformation.defineConfig
      (Some [TextTransformation.DString "symbols"; TextTransformation.DString "bogus"])
      None None in
  TextTransformation.getConfiguredTransformations config
  = Ok [ TextTransformation.VBuiltin "copyright";
         TextTransformation.VBuiltin "registeredTrademark";
         TextTransformation.VBuiltin "trademark";
         TextTransformation.VDefinition (TextTransformation.DString "bogus") ]
  ∧ (∃ watchers, TextTransformation.init ∅ config = Ok watchers
       ∧ watchers !! 3%nat
         = Some (TextTransformation.FromUndefined, TextTransformation.ToUndefined))
  ∧ ∀ text, TextTransformation.fromTest TextTransformation.FromUndefined text
            = Throw TypeError.
Proof.
  intros config. split; [by vm_compute|]. split; [|done].
  eexists. split; [by vm_compute|]. reflexivity.
Qed.

(** C6, as stated, fails: "symbols" is removed, "copyright" is a member of
    that group, and it was listed by its own name; it is in the resolved
    list. *)
Lemma C6_counterexample :
  ¬ ∀ (config : TextTransformation.config) (g : string) (members : list string)
      (m : string) (l : list TextTransformation.value),
      TextTransformation.DString g ∈ default [] (TextTransformation.remove config) →
      TextTransformation.TRANSFORMATION_GROUPS !! g = Some members →
      m ∈ members →
      TextTransformation.getConfiguredTransformations config = Ok l →
      TextTransformation.VBuiltin m ∉ l.
Proof.
  intros Hclaim.
  apply (Hclaim (TextTransformation.defineConfig
                   (Some [TextTransformation.DString "copyright"]) None
                   (Some [TextTransformation.DString "symbols"]))
                "symbols" ["copyright"; "registeredTrademark"; "trademark"] "copyright"
                [TextTransformation.VBuiltin "copyright"]).
  - set_solver.
  - by vm_compute.
  - set_solver.
  - by vm_compute.
  - set_solver.
Qed.

Lemma C6_witness :
  let config :=
    TextTransformation.defineConfig
      (Some [TextTransformation.DString "symbols"; TextTransformation.DString "typography";
             TextTransformation.DString "trademark"])
      None (Some [TextTransformation.DString "symbols"]) in
  let l := [ TextTransformation.VBuiltin "horizontalEllipsis";
             TextTransformation.VBuiltin "enDash";
             TextTransformation.VBuiltin "emDash";
             TextTransformation.VBuiltin "trademark" ] in
  TextTransformation.getConfiguredTransformations config = Ok l
  ∧ (TextTransformation.VBuiltin "copyright" ∈ l
     ↔ TextTransformation.DString "copyright"
         ∈ TextTransformation.include config ++ default [] (TextTransformation.extra config)
       ∧ TextTransformation.DString "copyright"
           ∉ default [] (TextTransformation.remove config)).
Proof.
  intros config l.
  assert (TextTransformation.getConfiguredTransformations config = Ok l) as Hl
    by (vm_compute; reflexivity).
  split; [exact Hl|].
  apply (C6_removed_group_member config "symbols"
           ["copyright"; "registeredTrademark"; "trademark"] "copyright" l).
  - apply list_elem_of_here.
  - vm_compute. reflexivity.
  - apply list_elem_of_here.
  - exact Hl.
Defined.

(** ** The caret-context watcher *)

Section WatcherFacts.

Import TextWatcher.
Context {Batch : Type} (isTransparent : Batch -> bool) (test : jsstring -> bool).

(** While the predicate toggles, the events emitted from a state alternate,
    starting with a matched event from the unmatched state and with an
    unmatched event from the matched state.  [previous] is the value of the
    last evaluation: it was [true] whenever the watcher is matched. *)
Lemma run_alternates (ns : list (notification (Batch := Batch)))
  (st : MatchState) (previous : option bool) :
  (hasMatch st = true → previous = Some true) →
  toggles isTransparent test previous ns →
  alternates (negb (hasMatch st)) (run isTransparent test ns st).
Proof.
  revert st previous.
  induction ns as [|n ns IH]; intros st previous Hinv Htoggles; [done|].
  destruct n as [batch doc|doc]; cbn [run notify toggles evaluated] in *;
    unfold onChangeApplied, onSelectionChanged.
  - (* change applied *)
    destruct (isTransparent batch); cbn [orb negb] in *; [by eapply IH|].
    destruct (isCollapsed doc); cbn [orb negb] in *; [|by eapply IH].
    destruct Htoggles as [Hprev Htoggles].
    destruct (test (caretContext doc)).
    + destruct (hasMatch st) eqn:Hst; [by destruct (Hprev (Hinv eq_refl))|].
      split; [done|].
        by apply (IH {| hasMatch := true; lastContext := caretContext doc |} (Some true)).
    + destruct (hasMatch st) eqn:Hst.
      * split; [done|]. by apply (IH initial (Some false)).
      * rewrite <- Hst. apply (IH st (Some false)); [by rewrite Hst | done].
  - (* selection changed *)
    destruct (isCollapsed doc); cbn [orb negb] in *.
    + destruct Htoggles as [Hprev Htoggles].
      destruct (test (caretContext doc)).
      * destruct (hasMatch st) eqn:Hst; [by destruct (Hprev (Hinv eq_refl))|].
        split; [done|].
        by apply (IH {| hasMatch := true; lastContext := caretContext doc |} (Some true)).
      * destruct (hasMatch st) eqn:Hst.
        -- split; [done|]. by apply (IH initial (Some false)).
        -- rewrite <- Hst. apply (IH st (Some false)); [by rewrite Hst | done].
    + destruct (hasMatch st) eqn:Hst.
      * split; [done|]. by apply (IH initial previous).
      * rewrite <- Hst. apply (IH st previous); [by rewrite Hst | done].
Qed.

(** C7.  For a watcher whose predicate toggles from each evaluation to the
    next, the events emitted from the initial state strictly alternate
    matched, unmatched, matched, ...: no two matched events follow each
    other, and an unmatched event comes only after a matched one.  The
    evaluations are the notifications at which the watcher calls the
    predicate: the changes of a batch that is not transparent and the
    changes of the selection, each with a collapsed selection.  Toggling
    between successive edits alone does not give the alternation, as the
    runs after this theorem show. *)
Theorem C7_events_alternate (ns : list (notification (Batch := Batch))) :
  toggles isTransparent test None ns →
  alternates true (run isTransparent test ns initial).
Proof. intros Htoggles. by apply (run_alternates ns initial None). Qed.

End WatcherFacts.

Lemma C7_witness :
  let typed := [ TextWatcher.ChangeApplied false (fooTyped 1);
                 TextWatcher.ChangeApplied false (fooTyped 2);
                 TextWatcher.ChangeApplied false (fooTyped 3) ] in
  TextWatcher.alternates true
    (TextWatcher.run (fun transparent : bool => transparent) oddLength typed
       TextWatcher.initial)
  ∧ length (TextWatcher.run (fun transparent : bool => transparent) oddLength typed
              TextWatcher.initial) = 3%nat.
Proof.
  intros typed. split.
  - apply (C7_events_alternate (fun transparent : bool => transparent) oddLength typed).
    vm_compute. repeat split; discriminate.
  - vm_compute. reflexivity.
Defined.

(** Three runs in which the predicate toggles between successive edits
    (odd, even, odd length of the context) and two matched events follow
    each other: the second edit is transparent; the caret is moved between
    the edits; the second edit is made while a range is selected. *)
Lemma C7_counterexample :
  let isTransparent := fun transparent : bool => transparent in
  let at_ (text : string) (caret : nat) : TextWatcher.snapshot :=
    {| TextWatcher.content := plain (str text);
       TextWatcher.anchor := caret; TextWatcher.focus := caret |} in
  let transparentEdit :=
    [ TextWatcher.ChangeApplied false (fooTyped 1);
      TextWatcher.ChangeApplied true (fooTyped 2);
      TextWatcher.ChangeApplied false (fooTyped 3) ] in
  let caretMoves :=
    [ TextWatcher.ChangeApplied false (at_ "foo @" 5%nat);
      TextWatcher.SelectionChanged (at_ "foo @" 4%nat);
      TextWatcher.ChangeApplied false (at_ "foo xy@" 6%nat);
      TextWatcher.SelectionChanged (at_ "foo xy@" 7%nat);
      TextWatcher.ChangeApplied false (at_ "foo xy@zw" 9%nat) ] in
  let rangeSelected :=
    [ TextWatcher.ChangeApplied false (fooTyped 1);
      TextWatcher.ChangeApplied false
        {| TextWatcher.content := plain (str "foo @@");
           TextWatcher.anchor := 0%nat; TextWatcher.focus := 6%nat |};
      TextWatcher.ChangeApplied false (fooTyped 3) ] in
  (TextWatcher.togglesBetweenEdits oddLength None transparentEdit
   ∧ TextWatcher.isMatched <$> TextWatcher.run isTransparent oddLength transparentEdit
                     TextWatcher.initial
     = [true; true]
   ∧ ¬ TextWatcher.alternates true
         (TextWatcher.run isTransparent oddLength transparentEdit TextWatcher.initial))
  ∧ (TextWatcher.togglesBetweenEdits oddLength None caretMoves
     ∧ TextWatcher.isMatched <$> TextWatcher.run isTransparent oddLength caretMoves
                       TextWatcher.initial
       = [true; false; true; true]
     ∧ ¬ TextWatcher.alternates true
           (TextWatcher.run isTransparent oddLength caretMoves TextWatcher.initial))
  ∧ (TextWatcher.togglesBetweenEdits oddLength None rangeSelected
     ∧ TextWatcher.isMatched <$> TextWatcher.run isTransparent oddLength rangeSelected
                       TextWatcher.initial
       = [true; true]
     ∧ ¬ TextWatcher.alternates true
           (TextWatcher.run isTransparent oddLength rangeSelected TextWatcher.initial)).
Proof.
  intros isTransparent at_ transparentEdit caretMoves rangeSelected.
  repeat split; try (vm_compute; congruence).
  all: vm_compute; intros; intuition congruence.
Qed.

(** ** Unsafe keystrokes *)

Section KeystrokeFacts.

Import UnsafeKeystrokes.
Context (getCode : string -> Z) (isAndroid : bool).

(** The buffered selection is reset by every run of the handler. *)
Lemma handleUnsafeKeystroke_resets evtData ed latest :
  fst (handleUnsafeKeystroke getCode evtData ed latest) = None.
Proof.
  unfold handleUnsafeKeystroke.
  repeat match goal with |- context [if ?b then _ else _] => destruct b end; done.
Qed.

(** With no buffered selection nothing is held back. *)
Lemma heldBack_None ev ed : heldBack getCode isAndroid ev ed None = false.
Proof. unfold heldBack. apply bool_decide_eq_false. by intros [-> ?]. Qed.

(** Events that do not run the handler do not read the buffer. *)
Lemma countHeldBack_None evs :
  Forall (fun p => isCompositionEnd (fst p) = false) evs →
  countHeldBack getCode isAndroid evs None = O.
Proof.
  induction 1 as [|[ev ed] evs Hev _ IH]; simpl; [done|].
  rewrite heldBack_None. simpl.
  replace (fst (dispatch getCode isAndroid ev ed None)) with (@None selection); [done|].
  destruct ev; simpl in *; try done;
    destruct isAndroid; simpl; by rewrite ?handleUnsafeKeystroke_resets.
Qed.

(** C8.  During a composition a keystroke with key code 229 never makes the
    handler delete the selected content; every run of the handler resets
    the selection buffered at [compositionend]; hence, over any sequence of
    events without a further [compositionend], the buffer holds back at
    most one deletion. *)
Theorem C8_composition_guard (evtData : KeyEventData) (ed : editor)
  (latest : option selection) (evs : list (view_event * editor)) :
  (isComposing ed = true → keyCode evtData = 229%Z →
   snd (handleUnsafeKeystroke getCode evtData ed latest) = [])
  ∧ fst (handleUnsafeKeystroke getCode evtData ed latest) = None
  ∧ (Forall (fun p => isCompositionEnd (fst p) = false) evs →
     (countHeldBack getCode isAndroid evs latest ≤ 1)%nat).
Proof.
  split; [|split].
  - intros Hcomposing Hcode. unfold handleUnsafeKeystroke.
    rewrite Hcomposing, Hcode. simpl.
    destruct (isEnabled ed); simpl; [|done].
    by destruct (isSafeKeystroke getCode evtData || isCollapsed (docSelection ed)).
  - apply handleUnsafeKeystroke_resets.
  - clear evtData ed. revert latest.
    induction evs as [|[ev ed] evs IH]; intros latest Hevs; simpl; [lia|].
    apply Forall_cons in Hevs as [Hev Hevs]. simpl in Hev.
    destruct (heldBack getCode isAndroid ev ed latest) eqn:Hheld.
    + (* the handler ran, so the buffer is empty from here on *)
      assert (fst (dispatch getCode isAndroid ev ed latest) = None) as ->.
      { unfold heldBack in Hheld. apply bool_decide_eq_true in Hheld as [H1 H2].
        destruct ev; simpl in *; try done;
          destruct isAndroid; simpl in *;
          try done; by rewrite handleUnsafeKeystroke_resets. }
      rewrite countHeldBack_None by done. lia.
    + specialize (IH (fst (dispatch getCode isAndroid ev ed latest)) Hevs). lia.
Qed.

(** C10.  A keystroke with Ctrl held is safe, whatever its key code: the
    handler deletes nothing, in every state of the editor, of the
    composition and of the buffered selection. *)
Theorem C10_ctrl_is_safe (evtData : KeyEventData) (ed : editor)
  (latest : option selection) :
  ctrlKey evtData = true →
  snd (handleUnsafeKeystroke getCode evtData ed latest) = [].
Proof.
  intros Hctrl. unfold handleUnsafeKeystroke, isSafeKeystroke.
  rewrite Hctrl. simpl. by destruct (isEnabled ed).
Qed.

End KeystrokeFacts.

Lemma C8_witness :
  let composing := {| UnsafeKeystrokes.isEnabled := true;
                      UnsafeKeystrokes.isComposing := true;
                      UnsafeKeystrokes.docSelection := threeSelected |} in
  let idle := {| UnsafeKeystrokes.isEnabled := true;
                 UnsafeKeystrokes.isComposing := false;
                 UnsafeKeystrokes.docSelection := threeSelected |} in
  let key229 := {| UnsafeKeystrokes.keyCode := 229; UnsafeKeystrokes.ctrlKey := false |} in
  let evs := [ (UnsafeKeystrokes.KeyDown key229, idle);
               (UnsafeKeystrokes.KeyDown key229, idle) ] in
  snd (UnsafeKeystrokes.handleUnsafeKeystroke arrowCodes key229 composing
         (Some threeSelected)) = []
  ∧ (UnsafeKeystrokes.countHeldBack arrowCodes false evs (Some threeSelected) ≤ 1)%nat
  ∧ UnsafeKeystrokes.countHeldBack arrowCodes false evs (Some threeSelected) = 1%nat.
Proof.
  intros composing idle key229 evs.
  destruct (C8_composition_guard arrowCodes false key229 composing
              (Some threeSelected) evs)
    as (Hguard & _ & Hcount).
  split; [|split].
  - apply Hguard; reflexivity.
  - apply Hcount. repeat constructor.
  - vm_compute. reflexivity.
Defined.

Lemma C10_witness :
  snd (UnsafeKeystrokes.handleUnsafeKeystroke arrowCodes
         {| UnsafeKeystrokes.keyCode := 86; UnsafeKeystrokes.ctrlKey := true |}
         {| UnsafeKeystrokes.isEnabled := true;
            UnsafeKeystrokes.isComposing := false;
            UnsafeKeystrokes.docSelection := threeSelected |}
         (Some threeSelected)) = [].
Proof.
  apply (C10_ctrl_is_safe arrowCodes). reflexivity.
Defined.

(** Without Ctrl the same keystroke deletes the selected content. *)
Example plain_v_deletes :
  snd (UnsafeKeystrokes.handleUnsafeKeystroke arrowCodes
         {| UnsafeKeystrokes.keyCode := 86; UnsafeKeystrokes.ctrlKey := false |}
         {| UnsafeKeystrokes.isEnabled := true;
            UnsafeKeystrokes.isComposing := false;
            UnsafeKeystrokes.docSelection := threeSelected |}
         None)
  = [UnsafeKeystrokes.BufferLock; UnsafeKeystrokes.DeleteContent threeSelected;
     UnsafeKeystrokes.BufferUnlock].
Proof. vm_compute. reflexivity. Qed.

(** ** The listener of the [delete] event *)

Section DeleteFacts.

Import Delete.
Context {ViewRange ModelRange : Type} (toModelRange : ViewRange -> outcome ModelRange).

(** Without a selection to remove the command works on the current
    selection of the model. *)
Lemma onDelete_without_selection (data : DeleteEventData) (current : list ModelRange) :
  selectionToRemove data = None →
  ∃ effects, onDelete toModelRange data = Ok effects
             ∧ operatedOn effects current = Some current.
Proof.
  intros Hnone. unfold onDelete. rewrite Hnone. simpl. eexists. split; [done|].
  done.
Qed.

(** C9, amended.  When the event carries a selection to remove, the
    listener maps each of its ranges and passes the mapped selection to
    the delete command, which then works on it and not on the current
    selection of the model; when the mapping of a range throws, the
    listener throws as well and no command is executed. *)
Theorem C9_mapped_selection_is_used (data : DeleteEventData)
  (viewRanges : list ViewRange) :
  selectionToRemove data = Some viewRanges →
  (∀ ranges, Forall2 (fun v r => toModelRange v = Ok r) viewRanges ranges →
     ∃ effects, onDelete toModelRange data = Ok effects
                ∧ ∀ current, operatedOn effects current = Some ranges)
  ∧ (∀ v e, v ∈ viewRanges → toModelRange v = Throw e →
       ∃ e', onDelete toModelRange data = Throw e').
Proof.
  intros Hsel. split.
  - intros ranges Hmap. apply mapM_Ok in Hmap.
    unfold onDelete. rewrite Hsel, Hmap. simpl. eexists. split; [done|]. done.
  - intros v e Hin Hthrow.
    destruct (mapM_Throw toModelRange viewRanges v e Hin Hthrow) as [e' He'].
    exists e'. unfold onDelete. by rewrite Hsel, He'.
Qed.

End DeleteFacts.

(** C9, as stated, fails: for a selection to remove whose range cannot be
    mapped, the listener does not run the command on the current selection
    of the model; it throws. *)
Lemma C9_counterexample :
  Delete.onDelete staleAtZero (deleteData [0%nat]) = Throw TypeError
  ∧ ¬ ∃ effects, Delete.onDelete staleAtZero (deleteData [0%nat]) = Ok effects
                 ∧ Delete.operatedOn effects [7%nat] = Some [7%nat].
Proof.
  split; [reflexivity|].
  intros (effects & Hok & _). vm_compute in Hok. discriminate.
Qed.

Lemma C9_witness :
  (∃ effects, Delete.onDelete staleAtZero (deleteData [1; 2]%nat) = Ok effects
              ∧ ∀ current, Delete.operatedOn effects current = Some [10; 20]%nat)
  ∧ ∃ e', Delete.onDelete staleAtZero (deleteData [1; 0]%nat) = Throw e'.
Proof.
  split.
  - apply (proj1 (C9_mapped_selection_is_used staleAtZero (deleteData [1; 2]%nat)
                    [1; 2]%nat eq_refl)).
    repeat constructor.
  - apply (proj2 (C9_mapped_selection_is_used staleAtZero (deleteData [1; 0]%nat)
                    [1; 0]%nat eq_refl) 0%nat TypeError).
    + set_solver.
    + reflexivity.
Defined.

(** ** More on the resolution of the configured transformations *)

Section ResolutionLaws.

Import TextTransformation.

Ltac not_listed H :=
  exfalso; revert H; apply (bool_decide_eq_false_1 _); vm_compute; reflexivity.

(** The names the tables inherit from [Object.prototype] are no own
    keys. *)
Lemma groupOf_Inherited (d : definition) :
  groupOf d = Inherited ↔ ∃ s, d = DString s ∧ s ∈ objectPrototypeKeys.
Proof.
  unfold groupOf, getProperty. split.
  - destruct (TRANSFORMATION_GROUPS !! toPropertyKey d); [done|].
    destruct (decide (toPropertyKey d ∈ objectPrototypeKeys)) as [Hin|]; [|done].
    intros _. destruct d as [s|ref]; cbn [toPropertyKey] in Hin.
    + by exists s.
    + not_listed Hin.
  - intros (s & -> & Hs). cbn [toPropertyKey].
    rewrite decide_True by done.
    destruct (TRANSFORMATION_GROUPS !! s) as [members|] eqn:Hg; [|done].
    apply lookup_group in Hg. exfalso.
    repeat (apply elem_of_cons in Hg as [[= -> ->]|Hg]; [not_listed Hs|]).
    by apply elem_of_nil in Hg.
Qed.

(** The expansion throws a TypeError, and only for such a name. *)
Lemma expandInto_Throw (definitions acc : list definition) (e : error) :
  expandInto acc definitions = Throw e
  ↔ e = TypeError ∧ ∃ d, d ∈ definitions ∧ groupOf d = Inherited.
Proof.
  revert acc. induction definitions as [|d ds IH]; intros acc; simpl.
  - split; [done|]. intros (_ & d & Hd & _). by apply elem_of_nil in Hd.
  - fold (groupOf d). destruct (groupOf d) as [members| |] eqn:Hd.
    + rewrite IH. setoid_rewrite elem_of_cons. split.
      * intros (-> & d' & ? & ?). split; [done|]. exists d'. by split; [right|].
      * intros (-> & d' & [-> | ?] & Hd'); [congruence|]. split; [done|]. by exists d'.
    + split.
      * intros [= <-]. split; [done|]. exists d. split; [by left|done].
      * by intros (-> & _).
    + rewrite IH. setoid_rewrite elem_of_cons. split.
      * intros (-> & d' & ? & ?). split; [done|]. exists d'. by split; [right|].
      * intros (-> & d' & [-> | ?] & Hd'); [congruence|]. split; [done|]. by exists d'.
Qed.

(** X1.  The resolution throws exactly when a name that is listed in [include]
    or [extra], and not removed, is a member of [Object.prototype]
    ("constructor", "toString", ...); the error is a TypeError. *)
Theorem resolution_throws_iff (config : config) (e : error) :
  getConfiguredTransformations config = Throw e
  ↔ e = TypeError
    ∧ ∃ s, s ∈ objectPrototypeKeys
           ∧ DString s ∈ include config ++ default [] (extra config)
           ∧ DString s ∉ default [] (remove config).
Proof.
  unfold getConfiguredTransformations, expandGroupsAndRemoveDuplicates.
  destruct (expandInto [] _) as [l|e'] eqn:Hexpand; cbn [mbind outcome_bind].
  - split; [done|]. intros (-> & s & Hs & Hin & Hkept).
    assert (expandInto [] (filter (fun t => t ∉ default [] (remove config))
                             (include config ++ default [] (extra config)))
            = Throw TypeError) as Hthrow; [|congruence].
    apply expandInto_Throw. split; [done|]. exists (DString s).
    split; [by apply list_elem_of_filter|]. apply groupOf_Inherited. by exists s.
  - apply expandInto_Throw in Hexpand as (-> & d & [Hkept Hin]%list_elem_of_filter & Hd).
    apply groupOf_Inherited in Hd as (s & -> & Hs).
    split.
    + intros [= <-]. split; [done|]. by exists s.
    + by intros (-> & _).
Qed.

(** [lookupTransformation] maps different definitions to different
    values. *)
Lemma lookupTransformation_inj (d1 d2 : definition) :
  lookupTransformation d1 = lookupTransformation d2 → d1 = d2.
Proof.
  assert (∀ ref, lookupTransformation (DObject ref) = VDefinition (DObject ref)) as Hobj
    by (intros ref; by vm_compute).
  assert (∀ s, lookupTransformation (DString s) = VBuiltin s
               ∨ lookupTransformation (DString s) = VInherited s
               ∨ lookupTransformation (DString s) = VDefinition (DString s)) as Hstr.
  { intros s. unfold lookupTransformation. cbn [toPropertyKey].
    destruct (getProperty TRANSFORMATIONS s); auto. }
  destruct d1 as [s1|r1], d2 as [s2|r2]; rewrite ?Hobj.
  - destruct (Hstr s1) as [-> | [-> | ->]], (Hstr s2) as [-> | [-> | ->]]; congruence.
  - destruct (Hstr s1) as [-> | [-> | ->]]; congruence.
  - destruct (Hstr s2) as [-> | [-> | ->]]; congruence.
  - congruence.
Qed.

(** X2.  No transformation is resolved twice, however often its name, its group
    or the object itself is listed. *)
Theorem resolution_NoDup (config : config) (l : list value) :
  getConfiguredTransformations config = Ok l → NoDup l.
Proof.
  unfold getConfiguredTransformations, expandGroupsAndRemoveDuplicates.
  intros (expanded & Hexpanded & [= <-])%bind_Ok.
  apply NoDup_fmap_2.
  - intros d1 d2. apply lookupTransformation_inj.
  - apply NoDup_filter. by apply (NoDup_expandInto _ [] _ (NoDup_nil_2)) in Hexpanded.
Qed.

(** X3.  The resolved list, element by element: a value is in it exactly when it
    stands for a definition that is not removed and that either is listed
    itself and names no group, or is a member of a listed group that is not
    removed. *)
Theorem resolution_elem_of (config : config) (l : list value) (v : value) :
  getConfiguredTransformations config = Ok l →
  v ∈ l ↔ (∃ d, v = lookupTransformation d
                ∧ (d ∉ default [] (remove config))
                ∧ ((d ∈ include config ++ default [] (extra config)
                    ∧ groupOf d = Undefined)
                   ∨ (∃ g members m,
                        DString g ∈ include config ++ default [] (extra config)
                        ∧ (DString g ∉ default [] (remove config))
                        ∧ TRANSFORMATION_GROUPS !! g = Some members
                        ∧ m ∈ members ∧ d = DString m))).
Proof.
  unfold getConfiguredTransformations, expandGroupsAndRemoveDuplicates.
  intros (expanded & Hexpanded & [= <-])%bind_Ok.
  rewrite list_elem_of_fmap. setoid_rewrite list_elem_of_filter.
  setoid_rewrite (elem_of_expandInto _ _ _ _ Hexpanded).
  setoid_rewrite list_elem_of_filter.
  split.
  - intros (d & -> & Hkept & [Hnil|[[[_ Hin] Hd]|(g & ms & m & [Hg Hin] & Hms & Hm & ->)]]).
    + by apply elem_of_nil in Hnil.
    + exists d. split; [done|]. split; [done|]. by left.
    + apply groupOf_Own in Hms as (g' & -> & Hg').
      exists (DString m). split; [done|]. split; [done|].
      right. by exists g', ms, m.
  - intros (d & -> & Hkept & [[Hin Hd]|(g & ms & m & Hin & Hg & Hms & Hm & ->)]).
    + exists d. split; [done|]. split; [done|]. right. left. done.
    + exists (DString m). split; [done|]. split; [done|].
      right. right. exists (DString g), ms, m.
      split; [done|]. split; [|done].
      unfold groupOf, getProperty. cbn [toPropertyKey]. by rewrite Hms.
Qed.

(** What is in the set stays at the front, in its order. *)
Lemma setAdd_prefix (s : list definition) (v : definition) : s `prefix_of` setAdd s v.
Proof.
  unfold setAdd. destruct (decide (v ∈ s)); [done|]. by apply prefix_app_r.
Qed.

Lemma foldl_setAdd_prefix (vs s : list definition) : s `prefix_of` foldl setAdd s vs.
Proof.
  revert s. induction vs as [|v vs IH]; intros s; simpl; [done|].
  etrans; [apply setAdd_prefix|apply IH].
Qed.

Lemma expandInto_prefix (definitions acc l : list definition) :
  expandInto acc definitions = Ok l → acc `prefix_of` l.
Proof.
  revert acc. induction definitions as [|d ds IH]; intros acc; simpl.
  - by intros [= <-].
  - destruct (getProperty _ _) as [members| |]; [|done|]; intros Hl.
    + etrans; [apply foldl_setAdd_prefix|by apply IH].
    + etrans; [apply setAdd_prefix|by apply IH].
Qed.

(** Expanding a list in two parts. *)
Lemma expandInto_app (l1 l2 acc : list definition) :
  expandInto acc (l1 ++ l2) = expandInto acc l1 ≫= (fun r => expandInto r l2).
Proof.
  revert acc. induction l1 as [|d l1 IH]; intros acc; simpl; [done|].
  destruct (getProperty _ _) as [members| |]; [apply IH|done|apply IH].
Qed.

(** X4.  The expansion is idempotent: its result holds no group name and no
    duplicate, so expanding it again gives it back. *)
Theorem expansion_idempotent (definitions l : list definition) :
  expandGroupsAndRemoveDuplicates definitions = Ok l →
  expandGroupsAndRemoveDuplicates l = Ok l.
Proof.
  unfold expandGroupsAndRemoveDuplicates. intros Hl.
  assert (NoDup l) as Hnodup by exact (NoDup_expandInto _ [] _ (NoDup_nil_2) Hl).
  assert (Forall (fun x => groupOf x = Undefined) l) as Hplain.
  { apply Forall_forall. intros x Hx.
    apply (elem_of_expandInto _ _ _ _ Hl) in Hx
      as [Hx|[[_ Hx]|(d & ms & m & _ & Hd & Hm & ->)]]; [by apply elem_of_nil in Hx|done|].
    apply groupOf_Own in Hd as (g & _ & Hg).
    by destruct (group_member g ms m Hg Hm) as (_ & Hnogroup & _). }
  clear Hl.
  assert (∀ acc, NoDup (acc ++ l) → expandInto acc l = Ok (acc ++ l)) as Hgen.
  { induction l as [|x l IH]; intros acc Hacc; simpl.
    - by rewrite app_nil_r.
    - apply Forall_cons in Hplain as [Hx Hplain]. apply NoDup_cons in Hnodup as [_ Hnodup].
      unfold groupOf in Hx. rewrite Hx.
      assert (x ∉ acc) as Hfresh.
      { apply NoDup_app in Hacc as (_ & Hdisjoint & _). intros Hin.
        apply (Hdisjoint x Hin). by left. }
      unfold setAdd. rewrite decide_False by done.
      rewrite IH; [by rewrite <- app_assoc|done|done|by rewrite <- app_assoc]. }
  by apply (Hgen []).
Qed.

(** X5.  [extra] only appends: what [include] alone resolves to is a prefix of
    what [include] and [extra] resolve to, for the same [remove]. *)
Theorem extra_appends (include_ : list definition) (extra_ remove_ : option (list definition))
  (l0 l : list value) :
  getConfiguredTransformations
    {| include := include_; extra := None; remove := remove_ |} = Ok l0 →
  getConfiguredTransformations
    {| include := include_; extra := extra_; remove := remove_ |} = Ok l →
  l0 `prefix_of` l.
Proof.
  unfold getConfiguredTransformations, expandGroupsAndRemoveDuplicates.
  cbn [include extra remove]. rewrite app_nil_r, filter_app, expandInto_app.
  intros (e0 & He0 & [= <-])%bind_Ok (e1 & He1 & [= <-])%bind_Ok.
  rewrite He0 in He1. cbn [mbind outcome_bind] in He1.
  apply expandInto_prefix in He1 as [k ->].
  rewrite filter_app, fmap_app. by apply prefix_app_r.
Qed.

(** The watcher [init] makes for a resolved value: a string [from] becomes
    the regular expression of the escaped string. *)
Lemma normalizeFrom_total (f : from_value) :
  normalizeFrom f
  = Ok match f with
       | FromString s => FromRegExp (suffixRegExp s)
       | _ => f
       end.
Proof. destruct f as [|s|rx]; [done| |done]. apply normalizeFrom_string. Qed.

(** X6.  [init] fails only when the resolution fails: it makes one watcher for
    each resolved value, in order, and building the regular expression of a
    string never throws, whatever characters the string holds. *)
Theorem init_watchers (objects : gmap nat description) (config : config) :
  init objects config
  = getConfiguredTransformations config
      ≫= (fun l : list value => Ok (watcherOf objects <$> l)).
Proof.
  unfold init. destruct (getConfiguredTransformations config) as [l|e]; [|done].
  cbn [mbind outcome_bind]. induction l as [|v l IH]; [done|].
  cbn [mapM fmap list_fmap]. rewrite normalizeFrom_total. cbn [mbind outcome_bind].
  cbn [mapM] in IH. rewrite IH. reflexivity.
Qed.

End ResolutionLaws.

(** ** The loop, one group at a time *)

Section SegmentLaws.

Import TextTransformation.

(** One turn of the loop for a group that is kept, and for one that is
    replaced. *)
Lemma replaceSegments_keep (captured : jsstring) (rest replaces : jsarray) (i : nat)
  (kept following : list item) :
  replaces !! (i - 1)%nat = Some None →
  length kept = length captured →
  replaceSegments (Some captured :: rest) i replaces (kept ++ following)
  = tail ← replaceSegments rest (S i) replaces following; Ok (kept ++ tail).
Proof.
  intros Hnull Hlen. cbn [replaceSegments lengthOf mbind outcome_bind].
  by rewrite Hnull, drop_app_length', take_app_length'.
Qed.

Lemma replaceSegments_replace (captured replaceWith : jsstring) (rest replaces : jsarray)
  (i : nat) (n : item) (old following : list item) :
  replaces !! (i - 1)%nat = Some (Some replaceWith) →
  length (n :: old) = length captured →
  replaceSegments (Some captured :: rest) i replaces (n :: old ++ following)
  = tail ← replaceSegments rest (S i) replaces following;
    Ok (createText replaceWith (getAttributes n) ++ tail).
Proof.
  intros Hwith Hlen. cbn [replaceSegments lengthOf mbind outcome_bind].
  rewrite Hwith. cbn [mbind outcome_bind].
  change (n :: old ++ following) with ((n :: old) ++ following).
  by rewrite (drop_app_length' (n :: old)).
Qed.

End SegmentLaws.

(** ** A string as [from]: when it matches, and what is replaced *)

Section StringRuleLaws.

Import TextTransformation.
Context {Batch : Type} (isInput : Batch -> bool).

(** Where the text does not end with the string, no start position
    matches. *)
Lemma execFrom_not_suffix (s text : jsstring) (n start : nat) :
  ¬ s `suffix_of` text →
  (start + n = length text)%nat →
  execFrom n (suffixRegExp s) text start = Ok None.
Proof.
  intros Hnot. revert start.
  assert (∀ start, (start ≤ length text)%nat →
            bool_decide (take (length s) (drop start text) = s)
            && (start + length s =? length text)%nat = false) as Hfail.
  { intros start Hstart. apply andb_false_iff.
    destruct (decide (take (length s) (drop start text) = s)) as [Htake|Htake];
      [|left; by apply bool_decide_eq_false].
    right. apply Nat.eqb_neq. intros Hlen. apply Hnot.
    exists (take start text).
    assert (s = drop start text) as Hs.
    { rewrite <- Htake at 1. apply take_ge. rewrite length_drop. lia. }
    rewrite Hs. by rewrite take_drop. }
  induction n as [|n IH]; intros start Hn;
    cbn [execFrom nGroups suffixRegExp replicate]; fold (suffixRegExp s);
    rewrite matcher_suffix, Hfail by lia; cbn [mbind outcome_bind]; [done|].
  apply IH. lia.
Qed.

(** X7.  A rule whose [from] is a string is tested against the end of the text:
    building its regular expression never throws, and the test holds
    exactly when the text ends with the string, whatever characters the
    string is made of. *)
Theorem string_from_tests_suffix (s text : jsstring) :
  ∃ from, normalizeFrom (FromString s) = Ok from
          ∧ fromTest from text = Ok (bool_decide (s `suffix_of` text)).
Proof.
  exists (FromRegExp (suffixRegExp s)). split; [apply normalizeFrom_string|].
  cbn [fromTest]. unfold RegExp.test.
  destruct (decide (s `suffix_of` text)) as [[pre ->]|Hnot].
  - rewrite exec_suffix. cbn [mbind outcome_bind].
    rewrite !bool_decide_eq_true_2; [done|by exists pre|by eexists].
  - unfold exec. rewrite execFrom_not_suffix by done. cbn [mbind outcome_bind].
    rewrite !bool_decide_eq_false_2; [done|done|by intros [? [=]]].
Qed.

(** X8.  A rule from a string to a string, item by item.  The listener
    takes the offset of the typed string in the caret context as an offset
    in the parent of the caret: the items of the parent at the offsets of
    the string are replaced by [to] with the attributes of the first of
    them, the other items stay as they are, and the change listeners are
    shown this one new content.  The replaced items are the typed string
    where the caret context starts the parent, and other items where an
    inline element comes before the context. *)
Theorem string_rule_items (s t pre : jsstring) (n : item)
  (before old following : list item) (batch : Batch) (seen : list (list item)) :
  isInput batch = true →
  length before = length pre →
  length (n :: old) = length s →
  let content := before ++ createText t (getAttributes n) ++ following in
  onMatchedData isInput (FromRegExp (suffixRegExp s)) (normalizeTo (ToString t))
    {| text := pre ++ s; batch := batch |}
    {| parent := before ++ n :: old ++ following; observed := seen |}
  = ({| parent := content; observed := seen ++ [content] |}, Ok ()).
Proof.
  intros Hinput Hbefore Hold content. subst content.
  unfold onMatchedData. cbn [TextTransformation.batch TextTransformation.text].
  rewrite Hinput. cbn [negb fromExec]. rewrite exec_suffix.
  cbn [normalizeTo callTo RegExp.matches RegExp.index drop].
  unfold enqueueChange. cbn [parent observed].
  rewrite replaceGroups_segments.
  rewrite drop_app_length', take_app_length' by done.
  rewrite (replaceSegments_replace _ t); [|done|done].
  reflexivity.
Qed.

(** X9.  An empty string as [from] matches every caret context, with an
    empty group at its end, and the listener acts at the offset in the
    parent that is the length of the context: where the parent has no item
    at that offset, as with the caret at the end of a paragraph that holds
    only this text, the listener throws a TypeError for an input batch;
    where it has one, as after a soft break, [to] is inserted there with
    the attributes of that item and nothing is removed. *)
Theorem empty_from_inserts_or_throws (t text : jsstring) (before following : list item)
  (batch : Batch) (seen : list (list item)) :
  isInput batch = true →
  length before = length text →
  ∃ from,
    normalizeFrom (FromString []) = Ok from
    ∧ fromTest from text = Ok true
    ∧ let result :=
        onMatchedData isInput from (normalizeTo (ToString t))
          {| text := text; batch := batch |}
          {| parent := before ++ following; observed := seen |} in
      match following with
      | [] => snd result = Throw TypeError
      | n :: _ =>
          let content := before ++ createText t (getAttributes n) ++ following in
          result = ({| parent := content; observed := seen ++ [content] |}, Ok ())
      end.
Proof.
  intros Hinput Hbefore.
  exists (FromRegExp (suffixRegExp [])). split; [apply normalizeFrom_string|].
  pose proof (exec_suffix [] text) as Hexec. rewrite app_nil_r in Hexec.
  split; [by cbn [fromTest]; unfold RegExp.test; rewrite Hexec|].
  cbv zeta. unfold onMatchedData.
  cbn [TextTransformation.batch TextTransformation.text].
  rewrite Hinput. cbn [negb fromExec]. rewrite Hexec.
  cbn [normalizeTo callTo RegExp.matches RegExp.index drop].
  unfold enqueueChange. cbn [parent observed].
  rewrite replaceGroups_segments.
  rewrite <- Hbefore, drop_app_length, take_app_length.
  destruct following as [|n following]; [reflexivity|].
  cbn [replaceSegments lengthOf mbind outcome_bind lookup list_lookup Nat.sub drop].
  reflexivity.
Qed.

End StringRuleLaws.


(** ** The replacement loop on text *)

Section LoopLaws.

Import TextTransformation.

Lemma drop_formatted_app (m rest : jsstring) (attrs : list attributes) :
  (length m ≤ length attrs)%nat →
  drop (length m) (formatted (m ++ rest) attrs)
  = formatted rest (drop (length m) attrs).
Proof.
  intros Hlen. rewrite formatted_app. apply drop_app_length'.
  rewrite length_formatted; [done|]. rewrite length_take. lia.
Qed.

Lemma take_formatted_app (m rest : jsstring) (attrs : list attributes) :
  (length m ≤ length attrs)%nat →
  take (length m) (formatted (m ++ rest) attrs)
  = formatted m (take (length m) attrs).
Proof.
  intros Hlen. rewrite formatted_app. apply take_app_length'.
  rewrite length_formatted; [done|]. rewrite length_take. lia.
Qed.

(** The segments, read as text: each group is replaced or kept, and what
    follows the groups is carried over with its formatting. *)
Lemma replaceSegments_text (captures : list jsstring) (i : nat) (replaces : jsarray)
  (post : jsstring) (attrs : list attributes) :
  length attrs = length (concat captures ++ post) →
  (∀ k m w, captures !! k = Some m → replaces !! (i + k - 1)%nat = Some (Some w) → m ≠ []) →
  ∃ following,
    replaceSegments (Some <$> captures) i replaces
      (formatted (concat captures ++ post) attrs) = Ok following
    ∧ textOf following = replacedText captures i replaces ++ post
    ∧ drop (length (replacedText captures i replaces)) following
      = formatted post (drop (length (concat captures)) attrs).
Proof.
  revert i attrs. induction captures as [|m rest IH]; intros i attrs Hattrs Hfull.
  - eexists. split; [reflexivity|]. cbn. split; [|by rewrite !drop_0].
    apply textOf_formatted. simpl in Hattrs. lia.
  - cbn [concat] in *. rewrite <- app_assoc in *.
    assert (length m ≤ length attrs)%nat as Hm by (rewrite Hattrs, length_app; lia).
    destruct (IH (S i) (drop (length m) attrs)) as (tail & Htail & Htext & Hdrop).
    { rewrite length_drop, Hattrs, length_app. lia. }
    { intros k m' w Hk Hw. apply (Hfull (S k) m' w Hk).
      by replace (i + S k - 1)%nat with (S i + k - 1)%nat by lia. }
    cbn [fmap list_fmap replaceSegments lengthOf mbind outcome_bind replacedText].
    rewrite drop_formatted_app, Htail by done. cbn [mbind outcome_bind].
    rewrite drop_drop in Hdrop. rewrite !length_app.
    destruct (replaces !! (i - 1)%nat) as [[w|]|] eqn:Hw.
    + assert (m ≠ []) as Hne.
      { apply (Hfull 0%nat m w); [done|]. by rewrite Nat.add_0_r. }
      destruct m as [|c m]; [done|]. destruct attrs as [|a attrs]; [simpl in Hm; lia|].
      cbn [app formatted zip_with getAttributes mbind outcome_bind].
      eexists. split; [reflexivity|].
      rewrite textOf_app, textOf_createText, Htext. split; [by rewrite app_assoc|].
      rewrite <- Hdrop, <- drop_drop. f_equal. apply drop_app_length'.
      unfold createText. by rewrite length_fmap.
    + eexists. split; [reflexivity|].
      rewrite take_formatted_app by done.
      rewrite textOf_app, textOf_formatted, Htext by (rewrite length_take; lia).
      split; [by rewrite app_assoc|]. rewrite <- Hdrop, <- drop_drop. f_equal.
      apply drop_app_length'. rewrite length_formatted; [done|]. rewrite length_take. lia.
    + eexists. split; [reflexivity|].
      rewrite take_formatted_app by done.
      rewrite textOf_app, textOf_formatted, Htext by (rewrite length_take; lia).
      split; [by rewrite app_assoc|]. rewrite <- Hdrop, <- drop_drop. f_equal.
      apply drop_app_length'. rewrite length_formatted; [done|]. rewrite length_take. lia.
Qed.

(** X10.  The loop, read as text.  For a paragraph of text whose part at
    [changeIndex] is the captured groups one after the other, and where the
    groups that are replaced are not empty, the loop does not throw; the
    text afterwards is the text before the match, then each group replaced
    or kept, then the text after the match; and the items before and after
    the match are the items that were there. *)
Theorem replaceGroups_text (captures : list jsstring) (replaces : jsarray)
  (pre post : jsstring) (attrs : list attributes) :
  length attrs = length (pre ++ concat captures ++ post) →
  (∀ k m w, captures !! k = Some m → replaces !! k = Some (Some w) → m ≠ []) →
  let before := formatted (pre ++ concat captures ++ post) attrs in
  ∃ after,
    replaceGroups (Some <$> captures) 1 replaces (length pre) before = Ok after
    ∧ textOf after = pre ++ replacedText captures 1 replaces ++ post
    ∧ take (length pre) after = take (length pre) before
    ∧ drop (length pre + length (replacedText captures 1 replaces)) after
      = drop (length pre + length (concat captures)) before.
Proof.
  intros Hattrs Hfull before. subst before.
  assert (length pre ≤ length attrs)%nat as Hpre by (rewrite Hattrs, length_app; lia).
  destruct (replaceSegments_text captures 1 replaces post (drop (length pre) attrs))
    as (following & Hfollowing & Htext & Hdrop).
  { rewrite length_drop, Hattrs, !length_app. lia. }
  { intros k m w Hk Hw. apply (Hfull k m w Hk).
    by replace (1 + k - 1)%nat with k in Hw by lia. }
  rewrite replaceGroups_segments, drop_formatted_app, Hfollowing by done.
  cbn [mbind outcome_bind]. eexists. split; [reflexivity|].
  rewrite take_formatted_app by done.
  assert (length (formatted pre (take (length pre) attrs)) = length pre) as Hlen.
  { apply length_formatted. rewrite length_take. lia. }
  split; [|split].
  - rewrite textOf_app, textOf_formatted, Htext by (rewrite length_take; lia). done.
  - by apply take_app_length'.
  - rewrite <- drop_drop, drop_app_length' by done. rewrite Hdrop.
    rewrite <- drop_drop, drop_formatted_app by done.
    rewrite drop_formatted_app; [done|]. rewrite length_drop, Hattrs, !length_app. lia.
Qed.

(** X11.  The attributes for the inserted text: those of the item at the offset,
    the same inside a text node and at its start; at the end of the parent,
    and beyond, there is none and the function throws a TypeError. *)
Theorem attributes_after_position (parent : list item) (offset : nat) :
  (∀ n, parent !! offset = Some n →
        getTextAttributesAfterPosition parent offset = Ok (getAttributes n))
  ∧ ((length parent ≤ offset)%nat ↔
     getTextAttributesAfterPosition parent offset = Throw TypeError).
Proof.
  rewrite getTextAttributesAfterPosition_lookup. split.
  - by intros n ->.
  - destruct (parent !! offset) as [n|] eqn:Hn.
    + apply lookup_lt_Some in Hn. split; [lia|done].
    + apply lookup_ge_None in Hn. done.
Qed.

End LoopLaws.

(** ** More on the unsafe keystrokes *)

Section KeystrokeLaws.

Import UnsafeKeystrokes.
Context (getCode : string -> Z) (isAndroid : bool).

(** The comparison holds of a selection and itself. *)
Lemma isEqual_refl (s : selection) : isEqual s s = true.
Proof.
  unfold isEqual. rewrite Nat.eqb_refl. cbn [negb].
  destruct (length (ranges s) =? 0)%nat; [done|].
  rewrite !bool_decide_eq_true_2 by done. cbn [negb orb].
  apply forallb_forall. intros r Hr. apply existsb_exists.
  exists r. split; [done|]. by apply bool_decide_eq_true.
Qed.

(** X12.  The handler deletes the selected content in exactly one case: the
    input command is enabled, Ctrl is not held, the key code is not in the
    list of safe ones, the selection is not collapsed, and, for the key
    code 229, no composition is going on and [isEqual] does not hold of the
    selection buffered at the last [compositionend], if there is one, and
    the selection of the document.  It then locks the buffer, deletes the
    selection of the document and unlocks the buffer. *)
Theorem unsafe_keystroke_deletes_iff (evtData : KeyEventData) (ed : editor)
  (latest : option selection) :
  (snd (handleUnsafeKeystroke getCode evtData ed latest) = []
   ∨ snd (handleUnsafeKeystroke getCode evtData ed latest)
     = [BufferLock; DeleteContent (docSelection ed); BufferUnlock])
  ∧ (snd (handleUnsafeKeystroke getCode evtData ed latest) ≠ []
     ↔ isEnabled ed = true
       ∧ ctrlKey evtData = false
       ∧ (keyCode evtData ∉ safeKeycodes getCode)
       ∧ isCollapsed (docSelection ed) = false
       ∧ (keyCode evtData = 229%Z →
          isComposing ed = false
          ∧ ∀ s, latest = Some s → isEqual s (docSelection ed) = false)).
Proof.
  unfold handleUnsafeKeystroke, isSafeKeystroke, deleteSelectionContent.
  destruct (isEnabled ed); cbn [negb]; [|split; [by left|split; [done|by intros [? _]]]].
  destruct (ctrlKey evtData); cbn [orb];
    [split; [by left|split; [done|by intros (_ & ? & _)]]|].
  destruct (decide (keyCode evtData ∈ safeKeycodes getCode)) as [Hsafe|Hsafe].
  { rewrite bool_decide_eq_true_2 by done. cbn [orb].
    split; [by left|split; [done|by intros (_ & _ & ? & _)]]. }
  rewrite bool_decide_eq_false_2 by done. cbn [orb].
  destruct (isCollapsed (docSelection ed));
    [split; [by left|split; [done|by intros (_ & _ & _ & ? & _)]]|].
  destruct (Z.eqb_spec (keyCode evtData) 229) as [Hcode|Hcode].
  - destruct (isComposing ed); cbn [andb negb].
    + split; [by left|]. split; [done|]. intros (_ & _ & _ & _ & H).
      by destruct (H Hcode).
    + destruct latest as [s|].
      * destruct (isEqual s (docSelection ed)) eqn:Hequal.
        -- split; [by left|]. split; [done|]. intros (_ & _ & _ & _ & H).
           destruct (H Hcode) as [_ Hs]. specialize (Hs s eq_refl). congruence.
        -- split; [by right|]. split; [|done]. intros _. repeat split; try done.
           by intros s' [= <-].
      * split; [by right|]. split; [|done]. intros _. by repeat split.
  - rewrite !andb_false_r.
    split; [by right|]. split; [|done]. intros _. by repeat split.
Qed.

(** X13.  The loop that adds the function keys adds the key codes 112 to 135 and
    no other, and a keystroke with one of these codes never deletes. *)
Theorem function_keys_are_safe (evtData : KeyEventData) (ed : editor)
  (latest : option selection) (code : Z) :
  (code ∈ functionKeys ↔ (112 ≤ code ≤ 135)%Z)
  ∧ ((112 ≤ keyCode evtData ≤ 135)%Z →
     snd (handleUnsafeKeystroke getCode evtData ed latest) = []).
Proof.
  assert (∀ c, c ∈ functionKeys ↔ (112 ≤ c ≤ 135)%Z) as Hkeys.
  { intros c. unfold functionKeys. rewrite list_elem_of_fmap. split.
    - intros (i & -> & Hi%elem_of_seq). lia.
    - intros Hc. exists (Z.to_nat (c - 112)). split; [lia|]. apply elem_of_seq. lia. }
  split; [apply Hkeys|]. intros Hcode.
  unfold handleUnsafeKeystroke, isSafeKeystroke.
  destruct (isEnabled ed); [|done]. cbn [negb].
  assert (keyCode evtData ∈ safeKeycodes getCode) as Hsafe.
  { unfold safeKeycodes. apply elem_of_app. right. by apply Hkeys. }
  rewrite (bool_decide_eq_true_2 _ Hsafe). by destruct (ctrlKey evtData).
Qed.

(** X14.  After a composition ends, the first key event with the code 229 that
    finds the selection as it was spares it, and the next one, in the same
    state, deletes it: the buffered selection is used once. *)
Theorem composition_end_spares_once (ed : editor) (latest : option selection) :
  isAndroid = false →
  isEnabled ed = true →
  isComposing ed = false →
  isCollapsed (docSelection ed) = false →
  (229%Z ∉ safeKeycodes getCode) →
  let key := KeyDown {| keyCode := 229; ctrlKey := false |} in
  let '(buffered, ended) := dispatch getCode isAndroid CompositionEnd ed latest in
  let '(after, first) := dispatch getCode isAndroid key ed buffered in
  let '(_, second) := dispatch getCode isAndroid key ed after in
  ended = [] ∧ first = []
  ∧ second = [BufferLock; DeleteContent (docSelection ed); BufferUnlock].
Proof.
  intros -> Henabled Hcomposing Hcollapsed Hsafe. cbn [dispatch].
  unfold handleUnsafeKeystroke, isSafeKeystroke, deleteSelectionContent.
  cbn [keyCode ctrlKey].
  rewrite Henabled, Hcomposing, Hcollapsed, (bool_decide_eq_false_2 _ Hsafe).
  by rewrite isEqual_refl.
Qed.

(** X15.  At the start of a composition the selected content is deleted exactly
    when the selection is one range whose ends lie in different parents;
    the listener does not ask whether the input command is enabled. *)
Theorem composition_start_deletes_iff (ed : editor) :
  handleCompositionStart ed ≠ []
  ↔ ∃ r, ranges (docSelection ed) = [r]
         ∧ removelast (start r) ≠ removelast (end_ r).
Proof.
  unfold handleCompositionStart, isCollapsed, isFlat, deleteSelectionContent.
  destruct (ranges (docSelection ed)) as [|r [|r' rs]].
  - split; [done|]. by intros (r & [=] & _).
  - destruct (decide (removelast (start r) = removelast (end_ r))) as [Hflat|Hflat].
    + rewrite (bool_decide_eq_true_2 _ Hflat), orb_true_r.
      split; [done|]. by intros (r0 & [= <-] & ?).
    + rewrite (bool_decide_eq_false_2 _ Hflat), orb_false_r.
      rewrite bool_decide_eq_false_2 by (intros Heq; by rewrite Heq in Hflat).
      split; [|done]. intros _. by exists r.
  - split; [done|]. by intros (r0 & [=] & _).
Qed.

End KeystrokeLaws.

(** ** The listeners of [delete] and [keyup] for Android *)

Section AndroidLaws.

Import Delete.

(** X16.  On Android, each [keyup] sets the selection of the DOM again that
    was there when the deletion before it was handled, wherever the
    selection has been moved in between: in a run that goes through, the
    selection set at the [keyup] after a [delete] is the one of that
    [delete]. *)
Theorem keyup_restores_deletion (before after : list android_event)
  (atDeletion atKeyup : DomSelection) (saved : option DomSelection)
  (set : list DomSelection) :
  runAndroid true (before ++ DeleteEvent atDeletion :: KeyupEvent atKeyup :: after) saved
  = Ok set →
  set !! keyups before = Some atDeletion.
Proof.
  revert saved set. induction before as [|[d|d] before IH]; intros saved set;
    cbn [app runAndroid keyups].
  - cbn [onDeleteLowest onKeyup mbind outcome_bind].
    destruct (runAndroid true after None) as [rest|e]; [|done].
    intros [= <-]. by destruct atDeletion.
  - apply IH.
  - destruct saved as [s|]; [|done]. cbn [onKeyup mbind outcome_bind].
    destruct (runAndroid true _ None) as [rest|e] eqn:Hrest; [|done].
    intros [= <-]. cbn [lookup list_lookup]. by apply (IH None).
Qed.

(** X17.  On Android, the [keyup] listener throws a TypeError whenever no deletion
    was handled since the last [keyup]: a run of events goes through
    exactly when every [keyup] follows a [delete] of its own.  Off Android
    no listener is registered and every run goes through. *)
Theorem keyup_needs_deletion (isAndroid : bool) (evs : list android_event)
  (saved : option DomSelection) :
  is_ok (runAndroid isAndroid evs saved)
  = negb isAndroid || keyupsFollowDeletes (bool_decide (is_Some saved)) evs.
Proof.
  destruct isAndroid; cbn [negb orb].
  - revert saved. induction evs as [|[d|d] evs IH]; intros saved;
      cbn [runAndroid keyupsFollowDeletes]; [done|..].
    + by rewrite IH.
    + destruct saved as [s|]; [|done].
      specialize (IH None). cbn [onKeyup mbind outcome_bind].
      change (bool_decide (is_Some (@None DomSelection))) with false in IH.
      change (bool_decide (is_Some (Some s))) with true. cbn [andb].
      rewrite <- IH. by destruct (runAndroid true evs None).
  - revert saved. induction evs as [|[d|d] evs IH]; intros saved;
      cbn [runAndroid]; done.
Qed.

End AndroidLaws.

(** ** Patterns with a star: the quotation rules and the dash rules *)

Section PatternLaws.

Import TextTransformation.

(** The patterns of the two dash rules, as the parser reads them. *)
Lemma compile_dashes (n : nat) :
  (2 ≤ n ≤ 3)%nat →
  compile (str "(^| )(" ++ replicate n (ch "-") ++ str ")( )$")
  = Ok (dashPattern (replicate n (ch "-"))).
Proof.
  intros Hn. assert (n = 2 ∨ n = 3)%nat as [-> | ->] by lia; reflexivity.
Qed.

Context (input : list N).

(** A group around a literal. *)
Lemma matcher_group_literal (i : nat) (s : jsstring) (x : mstate) (c : continuation) :
  matcher (RGroup i (literal s)) input x c
  = if bool_decide (take (length s) (drop (endIndex x) input) = s)
    then c {| endIndex := endIndex x + length s;
              captures := <[pred i := Some (substring (endIndex x)
                                              (endIndex x + length s) input)]>
                            (captures x) |}
    else Ok None.
Proof. cbn [matcher]. by rewrite matcher_literal. Qed.

(** One step of a star over a class of characters: the longer match is
    tried first. *)
Lemma star_unfold (neg : bool) (items : list class_item) (x : mstate) (c : continuation) :
  matcher (RRepeat 0 None (RClass neg items)) input x c
  = match input !! endIndex x with
    | Some d =>
        if class_matches neg items d then
          z ← matcher (RRepeat 0 None (RClass neg items)) input (advance x) c;
          match z with
          | Some _ => Ok z
          | None => c x
          end
        else c x
    | None => c x
    end.
Proof.
  destruct x as [e caps]. cbn [matcher groupsOf endIndex Nat.add].
  cbn [repeatMatcher]. rewrite bool_decide_eq_false_2 by done.
  cbn [Nat.eqb andb clearCaptures foldr endIndex captures matcher].
  unfold matchChar at 1. cbn [endIndex]. unfold jsstring.
  destruct (input !! e) as [d|] eqn:Hd; [|done].
  destruct (class_matches neg items d); [|done].
  apply lookup_lt_Some in Hd. unfold advance. cbn [endIndex captures].
  rewrite (proj2 (Nat.eqb_neq (S e) e)) by lia.
  replace (length input - e)%nat with (S (length input - S e)) by lia.
  reflexivity.
Qed.

Lemma shift_0 (x : mstate) : shift x 0 = x.
Proof. destruct x. unfold shift. cbn. by rewrite Nat.add_0_r. Qed.

Lemma shift_advance (x : mstate) (k : nat) : shift (advance x) k = shift x (S k).
Proof. unfold shift, advance. cbn. f_equal. lia. Qed.

(** A star over a class, at a run of characters of the class that ends at
    a character outside of it or at the end of the input: when the
    continuation accepts the whole run, this is the match. *)
Lemma star_takes_run (neg : bool) (items : list class_item) (run rest : jsstring)
  (x : mstate) (c : continuation) (z : mstate) :
  drop (endIndex x) input = run ++ rest →
  Forall (fun d => class_matches neg items d = true) run →
  match rest with
  | d :: _ => class_matches neg items d = false
  | [] => True
  end →
  c (shift x (length run)) = Ok (Some z) →
  matcher (RRepeat 0 None (RClass neg items)) input x c = Ok (Some z).
Proof.
  revert x. induction run as [|d run IH]; intros x Hdrop Hrun Hrest Hc;
    rewrite star_unfold, lookup_head_drop, Hdrop.
  - rewrite shift_0 in Hc. destruct rest as [|d rest]; cbn; [done|]. by rewrite Hrest.
  - apply Forall_cons in Hrun as [Hd Hrun]. cbn [app head]. rewrite Hd.
    rewrite (IH (advance x)); [done| |done|done|by rewrite shift_advance].
    unfold advance. cbn [endIndex].
    replace (S (endIndex x)) with (endIndex x + 1)%nat by lia.
    by rewrite <- drop_drop, Hdrop.
Qed.

(** When the continuation rejects the run and each of its prefixes, the
    star fails. *)
Lemma star_rejects_run (neg : bool) (items : list class_item) (run rest : jsstring)
  (x : mstate) (c : continuation) :
  drop (endIndex x) input = run ++ rest →
  Forall (fun d => class_matches neg items d = true) run →
  match rest with
  | d :: _ => class_matches neg items d = false
  | [] => True
  end →
  (∀ k, (k ≤ length run)%nat → c (shift x k) = Ok None) →
  matcher (RRepeat 0 None (RClass neg items)) input x c = Ok None.
Proof.
  revert x. induction run as [|d run IH]; intros x Hdrop Hrun Hrest Hc;
    rewrite star_unfold, lookup_head_drop, Hdrop.
  - specialize (Hc 0%nat (Nat.le_refl _)). rewrite shift_0 in Hc.
    destruct rest as [|d rest]; cbn; [done|]. by rewrite Hrest.
  - apply Forall_cons in Hrun as [Hd Hrun]. cbn [app head]. rewrite Hd.
    rewrite (IH (advance x)); [| |done|done|].
    + cbn [mbind outcome_bind]. rewrite <- (shift_0 x). apply Hc. lia.
    + unfold advance. cbn [endIndex].
      replace (S (endIndex x)) with (endIndex x + 1)%nat by lia.
      by rewrite <- drop_drop, Hdrop.
    + intros k Hk. rewrite shift_advance. apply Hc. simpl. lia.
Qed.

(** The part of a text up to the first occurrence of a character. *)
Lemma first_occurrence (q : N) (u : jsstring) :
  ∃ run rest, u ++ [q] = run ++ q :: rest ∧ q ∉ run.
Proof.
  induction u as [|d u (run & rest & Heq & Hrun)].
  - exists [], []. split; [done|]. apply not_elem_of_nil.
  - destruct (decide (d = q)) as [->|Hne].
    + exists [], (u ++ [q]). split; [done|]. apply not_elem_of_nil.
    + exists (d :: run), rest. cbn. rewrite Heq. split; [done|].
      rewrite not_elem_of_cons. split; [congruence|done].
Qed.

Lemma class_not_char (q d : N) : class_matches true [CChar q] d = negb (d =? q).
Proof. unfold class_matches. cbn. by rewrite orb_false_r. Qed.

Lemma Forall_not_char (q : N) (run : jsstring) :
  q ∉ run → Forall (fun d => class_matches true [CChar q] d = true) run.
Proof.
  intros Hq. apply Forall_forall. intros d Hd. rewrite class_not_char.
  apply negb_true_iff, N.eqb_neq. intros ->. done.
Qed.

(** The first group of a pattern that starts with [(^|L)]: empty at the
    start of the input, else one character that [L] matches. *)
Lemma matcher_lead (L T : re) (x : mstate) (k : continuation) :
  matcher (leadPattern L T) input x k
  = let enter (y : mstate) :=
      matcher T input
        {| endIndex := endIndex y;
           captures := <[0%nat := Some (substring (endIndex x) (endIndex y) input)]>
                         (captures y) |} k in
    z ← (if (endIndex x =? 0)%nat then enter x else Ok None);
    match z with
    | Some _ => Ok z
    | None => matcher (RSeq L REmpty) input x enter
    end.
Proof. reflexivity. Qed.

Lemma substring_app (pre s rest : list N) :
  substring (length pre) (length pre + length s) (pre ++ s ++ rest) = s.
Proof.
  unfold substring. rewrite drop_app_length.
  replace (length pre + length s - length pre)%nat with (length s) by lia.
  by rewrite take_app_length.
Qed.

(** [exec] for such a pattern, on a text that is [pre], the lead and a rest,
    when [T] matches the rest and nothing that starts earlier: the match is
    found at the end of [pre]. *)
Lemma execFrom_lead (L T : re) (pL : N -> bool) (n : nat)
  (pre lead rest : list N) (fin : mstate) :
  input = pre ++ lead ++ rest →
  (∀ x c, matcher (RSeq L REmpty) input x c = matchChar pL input x c) →
  ((∃ w, lead = [w] ∧ pL w = true) ∨ (lead = [] ∧ pre = [])) →
  (∀ y, (endIndex y < length pre + length lead)%nat →
        matcher T input y (fun z => Ok (Some z)) = Ok None) →
  matcher T input
    {| endIndex := length pre + length lead;
       captures := <[0%nat := Some lead]> (replicate n None) |}
    (fun z => Ok (Some z)) = Ok (Some fin) →
  ∀ m start,
    (start + m = length input)%nat → (start ≤ length pre)%nat →
    execFrom m {| pattern := leadPattern L T; nGroups := n |} input start
    = Ok (Some {| matches := Some (substring (length pre) (endIndex fin) input)
                             :: captures fin;
                  index := length pre |}).
Proof.
  intros Hinput HL Hlead Hfail Hfin.
  assert (∀ start, (start < length pre)%nat →
            matcher (leadPattern L T) input
              {| endIndex := start; captures := replicate n None |}
              (fun z => Ok (Some z)) = Ok None) as Hearlier.
  { intros start Hstart. rewrite matcher_lead. cbv zeta. cbn [endIndex captures].
    assert (∃ w, lead = [w]) as [w ->].
    { destruct Hlead as [(w & -> & _)|[_ ->]]; [by exists w|simpl in Hstart; lia]. }
    rewrite HL. unfold matchChar, jsstring. cbn [endIndex].
    assert (∀ a, (if (start =? 0)%nat
                  then matcher T input {| endIndex := start; captures := a |}
                         (fun z => Ok (Some z))
                  else Ok None) = Ok None) as ->.
    { intros a. destruct (start =? 0)%nat; [|done]. apply Hfail. cbn. lia. }
    cbn [mbind outcome_bind].
    destruct (input !! start) as [d|]; [|done]. destruct (pL d); [|done].
    apply Hfail. cbn. lia. }
  assert (matcher (leadPattern L T) input
            {| endIndex := length pre; captures := replicate n None |}
            (fun z => Ok (Some z)) = Ok (Some fin)) as Hhere.
  { rewrite matcher_lead. cbv zeta. cbn [endIndex captures].
    destruct Hlead as [(w & -> & Hw)|[-> ->]].
    - assert ((if (length pre =? 0)%nat
               then matcher T input
                      {| endIndex := length pre;
                         captures := <[0%nat := Some (substring (length pre) (length pre)
                                                        input)]> (replicate n None) |}
                      (fun z => Ok (Some z))
               else Ok None) = Ok None) as ->.
      { destruct (length pre =? 0)%nat; [|done]. apply Hfail. cbn. lia. }
      cbn [mbind outcome_bind]. rewrite HL. unfold matchChar, jsstring. cbn [endIndex].
      assert (input !! length pre = Some w) as ->.
      { rewrite Hinput. by rewrite lookup_app_r, Nat.sub_diag by lia. }
      rewrite Hw. unfold advance. cbn [endIndex captures].
      replace (substring (length pre) (S (length pre)) input) with [w].
      + rewrite <- Hfin. repeat f_equal. simpl. lia.
      + rewrite Hinput.
        replace (S (length pre)) with (length pre + length [w])%nat by (simpl; lia).
        by rewrite substring_app.
    - cbn [length Nat.eqb Nat.add] in *.
      match goal with
      | |- ?m ≫= _ = _ =>
          replace m with (Ok (Some fin) : outcome (option mstate))
            by (symmetry; exact Hfin)
      end.
      done. }
  induction m as [|m IH]; intros start Hm Hstart; cbn [execFrom pattern nGroups].
  - assert (start = length pre) as ->.
    { rewrite Hinput, !length_app in Hm. lia. }
    by rewrite Hhere.
  - destruct (decide (start = length pre)) as [->|Hne].
    + by rewrite Hhere.
    + rewrite Hearlier by lia. cbn [mbind outcome_bind]. apply IH; lia.
Qed.

Lemma matcher_seq (a b : re) (x : mstate) (c : continuation) :
  matcher (RSeq a b) input x c = matcher a input x (fun y => matcher b input y c).
Proof. reflexivity. Qed.

Lemma matcher_group_rest (i : nat) (a : re) (x : mstate) (c : continuation) :
  matcher (RGroup i (RSeq a REmpty)) input x c
  = matcher a input x (fun y =>
      c {| endIndex := endIndex y;
           captures := <[pred i := Some (substring (endIndex x) (endIndex y) input)]>
                         (captures y) |}).
Proof. reflexivity. Qed.

Lemma matcher_eol (x : mstate) (c : continuation) :
  matcher (RSeq REol REmpty) input x c
  = if (endIndex x =? length input)%nat then c x else Ok None.
Proof. reflexivity. Qed.

Lemma substring_at (a b : nat) (pre s rest l : list N) :
  l = pre ++ s ++ rest → a = length pre → b = (a + length s)%nat →
  substring a b l = s.
Proof. intros -> -> ->. apply substring_app. Qed.

Lemma take_1_drop (p : nat) (q : N) (l : list N) :
  take 1 (drop p l) = [q] ↔ l !! p = Some q.
Proof.
  rewrite lookup_head_drop. destruct (drop p l) as [|d t]; cbn; [done|].
  rewrite take_0. split; congruence.
Qed.

(** The part of a quotation pattern after its lead, at an opening quote
    that is followed by text without the quote character, the closing
    quote and the end of the input. *)
Lemma quotesTail_succeeds (q : N) (front inner : list N) (y : mstate) :
  input = front ++ [q] ++ inner ++ [q] →
  q ∉ inner →
  endIndex y = length front →
  matcher (quotesTail q) input y (fun z => Ok (Some z))
  = Ok (Some {| endIndex := length input;
                captures := <[3%nat := Some [q]]>
                              (<[2%nat := Some inner]>
                                 (<[1%nat := Some [q]]> (captures y))) |}).
Proof.
  intros Hinput Hq Hy. unfold quotesTail.
  rewrite matcher_seq, matcher_group_literal, Hy.
  rewrite bool_decide_eq_true_2 by (by rewrite Hinput, drop_app_length).
  rewrite matcher_seq, matcher_group_rest.
  apply star_takes_run with (run := inner) (rest := [q]).
  - cbn [endIndex length]. rewrite Hinput, (app_assoc front).
    apply drop_app_length'. rewrite length_app. done.
  - by apply Forall_not_char.
  - by rewrite class_not_char, N.eqb_refl.
  - cbn [shift endIndex captures length].
    rewrite matcher_seq, matcher_group_literal. cbn [endIndex captures length].
    rewrite bool_decide_eq_true_2; cycle 1.
    { rewrite Hinput, (app_assoc front), (app_assoc _ inner).
      rewrite drop_app_length'; [done|]. rewrite !length_app. cbn. lia. }
    rewrite matcher_eol. cbn [endIndex captures pred].
    rewrite (proj2 (Nat.eqb_eq _ _)) by (rewrite Hinput, !length_app; cbn; lia).
    do 3 f_equal; [rewrite Hinput, !length_app; cbn; lia|].
    f_equal; [|f_equal; [|f_equal]]; f_equal.
    + apply (substring_at _ _ (front ++ [q] ++ inner) [q] []);
        [by rewrite Hinput, <- !app_assoc, app_nil_r|..];
        rewrite ?length_app; cbn; lia.
    + apply (substring_at _ _ (front ++ [q]) inner [q]);
        [by rewrite Hinput, <- !app_assoc|..]; rewrite ?length_app; cbn; lia.
    + apply (substring_at _ _ front [q] (inner ++ [q])); [done|..]; cbn; lia.
Qed.

(** It fails at every position before that opening quote. *)
Lemma quotesTail_fails (q : N) (front u inner : list N) (y : mstate) :
  input = front ++ u ++ [q] ++ inner ++ [q] →
  u ≠ [] →
  endIndex y = length front →
  matcher (quotesTail q) input y (fun z => Ok (Some z)) = Ok None.
Proof.
  intros Hinput Hu Hy. destruct u as [|d u]; [done|].
  unfold quotesTail. rewrite matcher_seq, matcher_group_literal, Hy.
  case_bool_decide as Hd; [|done].
  destruct (first_occurrence q u) as (run & rest & Heq & Hrun).
  assert (input = (front ++ [d]) ++ run ++ (q :: rest) ++ inner ++ [q]) as Hsplit.
  { rewrite Hinput, <- !app_assoc. cbn. do 2 f_equal.
    change (u ++ q :: inner ++ [q]) with (u ++ [q] ++ inner ++ [q]).
    by rewrite (app_assoc u), Heq, <- app_assoc. }
  assert (length (front ++ [d]) = length front + 1)%nat as Hfront
    by (rewrite length_app; done).
  rewrite matcher_seq, matcher_group_rest.
  apply star_rejects_run with (run := run) (rest := (q :: rest) ++ inner ++ [q]).
  - cbn [endIndex length]. rewrite Hsplit. by apply drop_app_length'.
  - by apply Forall_not_char.
  - cbn [app]. by rewrite class_not_char, N.eqb_refl.
  - intros k Hk. cbn [shift endIndex captures length].
    rewrite matcher_seq, matcher_group_literal. cbn [endIndex captures length].
    case_bool_decide as Hclose; [|done].
    rewrite matcher_eol. cbn [endIndex].
    apply take_1_drop in Hclose.
    rewrite Hsplit, lookup_app_r in Hclose by lia.
    replace (length front + 1 + k - length (front ++ [d]))%nat with k in Hclose by lia.
    destruct (decide (k < length run)%nat) as [Hlt|Hge].
    + rewrite lookup_app_l in Hclose by done.
      apply list_elem_of_lookup_2 in Hclose. done.
    + rewrite (proj2 (Nat.eqb_neq _ _)); [done|].
      rewrite Hsplit, !length_app. cbn. lia.
Qed.

Lemma class_space (d : N) : class_matches false [CSpace true] d = isSpace d.
Proof.
  unfold class_matches. cbn [existsb item_matches xorb]. by destruct (isSpace d).
Qed.

(** [exec] of a quotation pattern on a text that ends with a quotation
    after white space or at the start: the match is the quotation with
    its lead, whatever quotes the text has before it. *)
Lemma exec_quotes (q : N) (pre lead inner : list N) :
  input = pre ++ lead ++ [q] ++ inner ++ [q] →
  q ∉ inner →
  ((∃ w, lead = [w] ∧ isSpace w = true) ∨ (lead = [] ∧ pre = [])) →
  exec (quotesPattern q) input
  = Ok (Some {| matches := [Some (lead ++ [q] ++ inner ++ [q]); Some lead; Some [q];
                            Some inner; Some [q]];
                index := length pre |}).
Proof.
  intros Hinput Hq Hlead. unfold exec, quotesPattern.
  rewrite (execFrom_lead _ _ (class_matches false [CSpace true]) 4 pre lead
             ([q] ++ inner ++ [q])
             {| endIndex := length input;
                captures := [Some lead; Some [q]; Some inner; Some [q]] |});
    [|done|done| | | |lia|lia].
  - cbn [endIndex captures]. do 5 f_equal.
    apply (substring_at _ _ pre (lead ++ [q] ++ inner ++ [q]) []);
      [by rewrite Hinput, <- !app_assoc, app_nil_r|done|].
    rewrite Hinput, !length_app. cbn. lia.
  - destruct Hlead as [(w & -> & Hw)|[-> ->]]; [left|by right].
    exists w. by rewrite class_space.
  - intros y Hy. rewrite <- length_app in Hy.
    apply (quotesTail_fails q (take (endIndex y) (pre ++ lead))
             (drop (endIndex y) (pre ++ lead)) inner).
    + by rewrite app_assoc, take_drop, <- app_assoc.
    + intros Hnil. apply (f_equal length) in Hnil. rewrite length_drop in Hnil.
      simpl in Hnil. lia.
    + rewrite length_take. lia.
  - rewrite (quotesTail_succeeds q (pre ++ lead) inner).
    + done.
    + by rewrite Hinput, <- app_assoc.
    + done.
    + cbn [endIndex]. by rewrite length_app.
Qed.

(** The part of a dash pattern after its lead matches where the rest of
    the input is the dashes and a space, and nowhere else. *)
Lemma matcher_dashTail (dashes : list N) (y : mstate) :
  matcher (dashTail dashes) input y (fun z => Ok (Some z))
  = if bool_decide (drop (endIndex y) input = dashes ++ [32])
    then Ok (Some {| endIndex := length input;
                     captures := <[2%nat := Some [32]]>
                                   (<[1%nat := Some dashes]> (captures y)) |})
    else Ok None.
Proof.
  unfold dashTail. rewrite matcher_seq, matcher_group_literal.
  case_bool_decide as Hdashes.
  - rewrite matcher_seq, matcher_group_literal. cbn [endIndex captures length].
    case_bool_decide as Hspace.
    + rewrite matcher_eol. cbn [endIndex captures pred].
      destruct (Nat.eqb_spec (endIndex y + length dashes + 1) (length input))
        as [Hend|Hend].
      * assert (drop (endIndex y) input = dashes ++ [32]) as Hdrop.
        { rewrite <- (take_drop (length dashes) (drop (endIndex y) input)), Hdashes.
          f_equal. rewrite drop_drop.
          rewrite <- (take_ge (drop _ input) 1); [done|].
          rewrite length_drop. lia. }
        rewrite bool_decide_eq_true_2 by done. do 3 f_equal; [done|].
        unfold substring.
        replace (endIndex y + length dashes + 1 - (endIndex y + length dashes))%nat
          with 1%nat by lia.
        replace (endIndex y + length dashes - endIndex y)%nat
          with (length dashes) by lia.
        by rewrite Hspace, Hdashes.
      * rewrite bool_decide_eq_false_2; [done|]. intros Hdrop.
        apply (f_equal length) in Hdrop.
        rewrite length_drop, length_app in Hdrop. cbn in Hdrop.
        apply Hend. enough (endIndex y ≤ length input)%nat by lia.
        destruct (decide (endIndex y ≤ length input)%nat); [done|].
        rewrite drop_ge in Hspace by lia. done.
    + rewrite bool_decide_eq_false_2; [done|]. intros Hdrop. apply Hspace.
      by rewrite <- drop_drop, Hdrop, drop_app_length.
  - rewrite bool_decide_eq_false_2; [done|]. intros Hdrop. apply Hdashes.
    by rewrite Hdrop, take_app_length.
Qed.

(** [exec] of a dash pattern on a text that ends with the dashes and a
    space, after a space or at the start. *)
Lemma exec_dashes (dashes pre lead : list N) :
  input = pre ++ lead ++ dashes ++ [32] →
  (lead = [32] ∨ (lead = [] ∧ pre = [])) →
  exec (dashPattern dashes) input
  = Ok (Some {| matches := [Some (lead ++ dashes ++ [32]); Some lead; Some dashes;
                            Some [32]];
                index := length pre |}).
Proof.
  intros Hinput Hlead. unfold exec, dashPattern.
  rewrite (execFrom_lead _ _ (N.eqb 32) 3 pre lead (dashes ++ [32])
             {| endIndex := length input;
                captures := [Some lead; Some dashes; Some [32]] |});
    [|done|done| | | |lia|lia].
  - cbn [endIndex captures]. do 5 f_equal.
    apply (substring_at _ _ pre (lead ++ dashes ++ [32]) []);
      [by rewrite Hinput, <- !app_assoc, app_nil_r|done|].
    rewrite Hinput, !length_app. cbn. lia.
  - destruct Hlead as [->|[-> ->]]; [left|by right]. by exists 32.
  - intros y Hy. rewrite matcher_dashTail, bool_decide_eq_false_2; [done|].
    intros Hdrop. apply (f_equal length) in Hdrop.
    rewrite length_drop, Hinput, !length_app in Hdrop. lia.
  - rewrite matcher_dashTail. cbn [endIndex captures].
    rewrite bool_decide_eq_true_2; [done|].
    rewrite Hinput, app_assoc. apply drop_app_length'. by rewrite length_app.
Qed.

(** A match of a pattern that starts with [(^|L)]: there is a lead at
    the position, after which [T] matches. *)
Lemma matcher_lead_inv (L T : re) (pL : N -> bool) (x z : mstate) :
  (∀ x c, matcher (RSeq L REmpty) input x c = matchChar pL input x c) →
  matcher (leadPattern L T) input x (fun z => Ok (Some z)) = Ok (Some z) →
  ∃ pre lead rest y,
    input = pre ++ lead ++ rest
    ∧ ((∃ w, lead = [w] ∧ pL w = true) ∨ (lead = [] ∧ pre = []))
    ∧ endIndex y = (length pre + length lead)%nat
    ∧ matcher T input y (fun z => Ok (Some z)) = Ok (Some z).
Proof.
  intros HL. destruct x as [s caps].
  rewrite matcher_lead. cbv zeta. cbn [endIndex captures].
  rewrite HL. unfold matchChar, jsstring. cbn [endIndex].
  assert (match input !! s with
          | Some d =>
              if pL d
              then matcher T input
                     {| endIndex := endIndex (advance {| endIndex := s; captures := caps |});
                        captures :=
                          <[0%nat := Some (substring s
                                             (endIndex (advance {| endIndex := s;
                                                                   captures := caps |}))
                                             input)]>
                            (captures (advance {| endIndex := s; captures := caps |})) |}
                     (fun z => Ok (Some z))
              else Ok None
          | None => Ok None
          end = Ok (Some z) →
          ∃ pre lead rest y,
            input = pre ++ lead ++ rest
            ∧ ((∃ w, lead = [w] ∧ pL w = true) ∨ (lead = [] ∧ pre = []))
            ∧ endIndex y = (length pre + length lead)%nat
            ∧ matcher T input y (fun z => Ok (Some z)) = Ok (Some z)) as Hchar.
  { destruct (input !! s) as [d|] eqn:Hd; [|done].
    destruct (pL d) eqn:Hp; [|done]. intros Hz.
    exists (take s input), [d], (drop (S s) input). eexists.
    split; [symmetry; by apply take_drop_middle|].
    split; [left; by exists d|]. split; [|exact Hz].
    unfold advance. cbn [endIndex length].
    apply lookup_lt_Some in Hd. rewrite length_take. lia. }
  destruct (s =? 0)%nat eqn:Hs; [|exact Hchar].
  match goal with
  | |- ?m ≫= _ = _ → _ => destruct m as [[z'|]|e] eqn:Hz
  end; cbn [mbind outcome_bind]; [|exact Hchar|done].
  intros [= ->]. apply Nat.eqb_eq in Hs as ->.
  exists [], [], input. eexists. split; [done|]. split; [by right|].
  split; [|exact Hz]. done.
Qed.

(** [exec] finds a match only where the pattern matches. *)
Lemma execFrom_Some (rx : regexp) (m start : nat) (found : match_array) :
  execFrom m rx input start = Ok (Some found) →
  ∃ s z, matcher (pattern rx) input
           {| endIndex := s; captures := replicate (nGroups rx) None |}
           (fun y => Ok (Some y)) = Ok (Some z).
Proof.
  revert start. induction m as [|m IH]; intros start; cbn [execFrom];
    destruct (matcher _ _ _ _) as [[z|]|e] eqn:Hz; cbn [mbind outcome_bind];
    try done; try (intros _; by exists start, z).
  apply IH.
Qed.

(** A dash pattern matches the texts that are the dashes and a space, or
    end with a space, the dashes and a space, and no other. *)
Lemma test_dashes (dashes : list N) :
  test (dashPattern dashes) input
  = Ok (bool_decide (([32] ++ dashes ++ [32]) `suffix_of` input
                     ∨ input = dashes ++ [32])).
Proof.
  unfold test. case_bool_decide as Hshape.
  - destruct Hshape as [[pre Hpre]| Hpre].
    + by rewrite (exec_dashes dashes pre [32]); [|done|left].
    + by rewrite (exec_dashes dashes [] []); [|done|right].
  - destruct (exec_answers input (dashPattern dashes)) as [[found|] Hfound];
      rewrite Hfound; [|done].
    exfalso. apply Hshape.
    apply execFrom_Some in Hfound as (s & z & Hz).
    apply (matcher_lead_inv _ _ (N.eqb 32)) in Hz
      as (pre & lead & rest & y & Hinput & Hlead & Hy & Htail); [|done].
    rewrite matcher_dashTail in Htail. case_bool_decide as Hrest; [|done].
    rewrite Hy, Hinput, app_assoc, drop_app_length' in Hrest by (by rewrite length_app).
    subst rest. destruct Hlead as [(w & -> & Hw)|[-> ->]].
    + apply N.eqb_eq in Hw as <-. left. by exists pre.
    + by right.
Qed.

(** The part of a quotation pattern after its lead fails at an opening
    quote whose next quote is not the last character of the input. *)
Lemma quotesTail_unclosed (q : N) (run rest : list N) (y : mstate) :
  drop (endIndex y) input = [q] ++ run ++ rest →
  q ∉ run →
  (rest = [] ∨ ∃ r, rest = q :: r ∧ r ≠ []) →
  matcher (quotesTail q) input y (fun z => Ok (Some z)) = Ok None.
Proof.
  intros Hdrop Hrun Hrest. unfold quotesTail.
  rewrite matcher_seq, matcher_group_literal, Hdrop.
  rewrite bool_decide_eq_true_2 by done.
  rewrite matcher_seq, matcher_group_rest.
  assert (length input - endIndex y = 1 + length run + length rest)%nat as Hlen.
  { rewrite <- length_drop, Hdrop, !length_app. simpl. lia. }
  apply star_rejects_run with (run := run) (rest := rest).
  - cbn [endIndex length]. by rewrite <- drop_drop, Hdrop.
  - by apply Forall_not_char.
  - destruct Hrest as [->|(r & -> & _)]; [done|]. by rewrite class_not_char, N.eqb_refl.
  - intros k Hk. cbn [shift endIndex captures length].
    rewrite matcher_seq, matcher_group_literal. cbn [endIndex captures length].
    case_bool_decide as Hclose; [|done].
    rewrite matcher_eol. cbn [endIndex].
    apply take_1_drop in Hclose.
    rewrite <- Nat.add_assoc, <- lookup_drop, Hdrop in Hclose.
    change (([q] ++ run ++ rest) !! (1 + k)%nat) with ((run ++ rest) !! k) in Hclose.
    destruct (decide (k < length run)%nat) as [Hlt|Hge].
    + rewrite lookup_app_l in Hclose by done.
      apply list_elem_of_lookup_2 in Hclose. done.
    + rewrite lookup_app_r in Hclose by lia.
      destruct Hrest as [->|(r & -> & Hr)]; [done|].
      rewrite (proj2 (Nat.eqb_neq _ _)); [done|].
      destruct r; [done|]. simpl in Hlen. lia.
Qed.

(** Where the part of a quotation pattern after its lead matches, the
    rest of the input is a quotation. *)
Lemma quotesTail_inv (q : N) (y z : mstate) :
  matcher (quotesTail q) input y (fun z => Ok (Some z)) = Ok (Some z) →
  ∃ inner, drop (endIndex y) input = [q] ++ inner ++ [q] ∧ q ∉ inner.
Proof.
  intros Hz.
  destruct (drop (endIndex y) input) as [|d rest] eqn:Hdrop.
  { unfold quotesTail in Hz. rewrite matcher_seq, matcher_group_literal, Hdrop in Hz.
    by rewrite bool_decide_eq_false_2 in Hz. }
  destruct (decide (d = q)) as [->|Hd]; cycle 1.
  { unfold quotesTail in Hz. rewrite matcher_seq, matcher_group_literal, Hdrop in Hz.
    rewrite bool_decide_eq_false_2 in Hz; [done|]. cbn. rewrite take_0. congruence. }
  destruct (decide (q ∈ rest)) as [Hin|Hnotin]; cycle 1.
  { rewrite (quotesTail_unclosed q rest []) in Hz; [done| |done|by left].
    by rewrite app_nil_r. }
  apply list_elem_of_split_l in Hin as (inner & rest' & -> & Hinner).
  destruct rest' as [|d' rest']; [by exists inner|].
  rewrite (quotesTail_unclosed q inner (q :: d' :: rest')) in Hz; [done|done|done|].
  right. by eexists.
Qed.

(** A quotation pattern matches the texts that end with a quotation,
    after white space or at the start, and no other. *)
Lemma test_quotes (q : N) :
  ∃ b, test (quotesPattern q) input = Ok b
       ∧ (b = true ↔
          ∃ pre lead inner,
            input = pre ++ lead ++ [q] ++ inner ++ [q]
            ∧ (q ∉ inner)
            ∧ ((∃ w, lead = [w] ∧ isSpace w = true) ∨ (lead = [] ∧ pre = []))).
Proof.
  unfold test.
  destruct (exec_answers input (quotesPattern q)) as [[found|] Hfound];
    rewrite Hfound; cbn [mbind outcome_bind]; eexists; (split; [reflexivity|]).
  - rewrite bool_decide_eq_true_2 by done. split; [intros _|done].
    apply execFrom_Some in Hfound as (s & z & Hz).
    apply (matcher_lead_inv _ _ (class_matches false [CSpace true])) in Hz
      as (pre & lead & rest & y & Hinput & Hlead & Hy & Htail); [|done].
    apply quotesTail_inv in Htail as (inner & Hrest & Hinner).
    rewrite Hy in Hrest.
    rewrite Hinput, app_assoc, drop_app_length' in Hrest by (by rewrite length_app).
    subst rest. exists pre, lead, inner. split; [done|]. split; [done|].
    destruct Hlead as [(w & -> & Hw)|[-> ->]]; [left|by right].
    exists w. by rewrite <- class_space.
  - rewrite bool_decide_eq_false_2 by (by intros [? ?]). split; [done|].
    intros (pre & lead & inner & Hinput & Hinner & Hlead).
    by rewrite (exec_quotes q pre lead inner) in Hfound.
Qed.

End PatternLaws.

(** ** The quotation rules and the dash rules on any text *)

Section PatternRuleLaws.

Import TextTransformation.
Context {Batch : Type} (isInput : Batch -> bool).

(** X18.  A quotation rule, item by item, on a caret context that ends with
    a quotation at its start or after one white space character, the
    quoted text holding no quote.  The listener takes the offsets of the
    groups in the caret context as offsets in the parent of the caret: the
    item at the offset of each straight quote is replaced by the
    typographic quote, with the attributes of the item it replaces; the
    items at the offsets of the text before the quotation, of the leading
    white space and of the quoted text, and the items after them, stay as
    they are; the change listeners are shown this one new content.  Quotes
    earlier in the context do not matter.  The replaced items are the two
    straight quotes where the caret context starts the parent, and other
    items where an inline element comes before the context. *)
Theorem quote_rule_replaces (q : N) (opening closing pre lead inner : jsstring)
  (atOpening atClosing : item) (before atLead atInner following : list item)
  (batch : Batch) (seen : list (list item)) :
  isInput batch = true →
  q ∉ inner →
  ((∃ w, lead = [w] ∧ isSpace w = true) ∨ (lead = [] ∧ pre = [])) →
  length before = length pre →
  length atLead = length lead →
  length atInner = length inner →
  let content := before ++ atLead ++ createText opening (getAttributes atOpening)
                 ++ atInner ++ createText closing (getAttributes atClosing)
                 ++ following in
  onMatchedData isInput (FromRegExp (quotesPattern q))
    (normalizeTo (ToArray [None; Some opening; None; Some closing]))
    {| text := pre ++ lead ++ [q] ++ inner ++ [q]; batch := batch |}
    {| parent := before ++ atLead ++ [atOpening] ++ atInner ++ [atClosing] ++ following;
       observed := seen |}
  = ({| parent := content; observed := seen ++ [content] |}, Ok ()).
Proof.
  intros Hinput Hq Hlead Hbefore HatLead HatInner content. subst content.
  unfold onMatchedData. cbn [TextTransformation.batch TextTransformation.text].
  rewrite Hinput. cbn [negb fromExec].
  rewrite (exec_quotes _ q pre lead inner) by done.
  cbn [normalizeTo callTo RegExp.matches RegExp.index drop].
  unfold enqueueChange. cbn [parent observed].
  rewrite replaceGroups_segments.
  rewrite drop_app_length', take_app_length' by done.
  rewrite replaceSegments_keep; [|done|done].
  change ([atOpening] ++ atInner ++ [atClosing] ++ following)
    with (atOpening :: [] ++ atInner ++ (atClosing :: [] ++ following)).
  rewrite (replaceSegments_replace _ opening); [|done|done].
  rewrite replaceSegments_keep; [|done|done].
  rewrite (replaceSegments_replace _ closing); [|done|done].
  reflexivity.
Qed.

(** X19.  A dash rule, item by item, on a caret context that ends with the
    dashes and a space, at its start or after a space.  The listener takes
    the offsets of the groups in the caret context as offsets in the parent
    of the caret: the items at the offsets of the dashes are replaced by
    the one dash, with the attributes of the first of them; the items at
    the offsets of the text before, of the leading space and of the closing
    space, and the items after them, stay as they are; the change listeners
    are shown this one new content.  The replaced items are the dashes
    where the caret context starts the parent, and other items where an
    inline element comes before the context. *)
Theorem dash_rule_replaces (d : N) (ds dash pre lead : jsstring)
  (atDash atSpace : item) (before atLead atDashes following : list item)
  (batch : Batch) (seen : list (list item)) :
  isInput batch = true →
  (lead = [32] ∨ (lead = [] ∧ pre = [])) →
  length before = length pre →
  length atLead = length lead →
  length atDashes = length ds →
  let content := before ++ atLead ++ createText dash (getAttributes atDash)
                 ++ [atSpace] ++ following in
  onMatchedData isInput (FromRegExp (dashPattern (d :: ds)))
    (normalizeTo (ToArray [None; Some dash; None]))
    {| text := pre ++ lead ++ (d :: ds) ++ [32]; batch := batch |}
    {| parent := before ++ atLead ++ (atDash :: atDashes) ++ [atSpace] ++ following;
       observed := seen |}
  = ({| parent := content; observed := seen ++ [content] |}, Ok ()).
Proof.
  intros Hinput Hlead Hbefore HatLead HatDashes content. subst content.
  unfold onMatchedData. cbn [TextTransformation.batch TextTransformation.text].
  rewrite Hinput. cbn [negb fromExec].
  rewrite (exec_dashes _ (d :: ds) pre lead) by done.
  cbn [normalizeTo callTo RegExp.matches RegExp.index drop].
  unfold enqueueChange. cbn [parent observed].
  rewrite replaceGroups_segments.
  rewrite drop_app_length', take_app_length' by done.
  rewrite replaceSegments_keep; [|done|done].
  change ((atDash :: atDashes) ++ [atSpace] ++ following)
    with (atDash :: atDashes ++ ([atSpace] ++ following)).
  rewrite (replaceSegments_replace _ dash); [|done|simpl; by f_equal].
  rewrite replaceSegments_keep; [|done|done].
  reflexivity.
Qed.

End PatternRuleLaws.

(** ** When the quotation rules and the dash rules fire *)

Section PatternRuleTests.

Import TextTransformation.

(** X20.  The patterns of the two dash rules compile, and such a pattern matches
    exactly the texts that are the dashes and a space, or end with a space,
    the dashes and a space. *)
Theorem dash_rule_fires_iff (n : nat) (text : jsstring) :
  (2 ≤ n ≤ 3)%nat →
  let dashes := replicate n (ch "-") in
  ∃ rx,
    compile (str "(^| )(" ++ dashes ++ str ")( )$") = Ok rx
    ∧ fromTest (FromRegExp rx) text
      = Ok (bool_decide ((str " " ++ dashes ++ str " ") `suffix_of` text
                         ∨ text = dashes ++ str " ")).
Proof.
  intros Hn dashes. exists (dashPattern dashes). split; [by apply compile_dashes|].
  apply test_dashes.
Qed.

(** X21.  No text is matched by both dash rules: where two dashes are turned
    into an en dash, three are not turned into an em dash. *)
Theorem dash_rules_exclusive (text : jsstring) :
  test (dashPattern (str "--")) text = Ok true →
  test (dashPattern (str "---")) text = Ok false.
Proof.
  rewrite !test_dashes. intros [= Hen]. f_equal.
  apply bool_decide_eq_true in Hen. apply bool_decide_eq_false.
  change (str "--") with [45; 45]%N in Hen. change (str "---") with [45; 45; 45]%N.
  intros Hem.
  destruct Hen as [[k1 Hen]|Hen]; destruct Hem as [[k2 Hem]|Hem];
    rewrite Hen in Hem.
  - change (k1 ++ [32; 45; 45; 32] = k2 ++ [32] ++ [45; 45; 45; 32])%N in Hem.
    rewrite (app_assoc k2) in Hem.
    apply app_inj_2 in Hem as [_ Hem]; [discriminate|done].
  - destruct k1 as [|c k1]; [discriminate|].
    apply (f_equal length) in Hem. rewrite length_app in Hem. simpl in Hem. lia.
  - apply (f_equal length) in Hem. rewrite length_app in Hem. simpl in Hem. lia.
  - discriminate.
Qed.

(** X22.  The pattern that [buildQuotesRegExp] builds for the double and the
    single straight quote always answers, and it matches exactly the texts
    that end with a quotation: a quote, text without that quote, a quote,
    at the start of the text or after one white space character. *)
Theorem quote_rule_fires_iff (q : N) (text : jsstring) :
  q = 34%N ∨ q = 39%N →
  ∃ rx b,
    buildQuotesRegExp [q] = Ok rx
    ∧ fromTest (FromRegExp rx) text = Ok b
    ∧ (b = true ↔
       ∃ pre lead inner,
         text = pre ++ lead ++ [q] ++ inner ++ [q]
         ∧ (q ∉ inner)
         ∧ ((∃ w, lead = [w] ∧ isSpace w = true) ∨ (lead = [] ∧ pre = []))).
Proof.
  intros Hq. destruct (test_quotes text q) as (b & Hb & Hiff).
  exists (quotesPattern q), b. split; [|done].
  destruct Hq as [->| ->]; reflexivity.
Qed.

End PatternRuleTests.

(** ** Groups that take no part in a match *)

Section GroupLaws.

Import TextTransformation.
Context {Batch : Type} (isInput : Batch -> bool).

Lemma getTextAttributesAfterPosition_error (parent : list item) (offset : nat) (e : error) :
  getTextAttributesAfterPosition parent offset = Throw e → e = TypeError.
Proof.
  rewrite getTextAttributesAfterPosition_lookup.
  destruct (parent !! offset); [done|]. by intros [= <-].
Qed.

Lemma replaceGroups_unmatched (groups replaces : jsarray) (i changeIndex : nat)
  (parent : list item) :
  None ∈ groups →
  replaceGroups groups i replaces changeIndex parent = Throw TypeError.
Proof.
  revert i changeIndex parent.
  induction groups as [|g rest IH]; intros i changeIndex parent Hin.
  - by apply elem_of_nil in Hin.
  - cbn [replaceGroups]. destruct g as [s|].
    + apply elem_of_cons in Hin as [|Hin]; [done|].
      cbn [lengthOf mbind outcome_bind].
      destruct (replaces !! (i - 1)%nat) as [[w|]|]; [|by apply IH..].
      destruct (getTextAttributesAfterPosition parent changeIndex) as [a|e] eqn:Ha;
        cbn [mbind outcome_bind]; [by apply IH|].
      by rewrite (getTextAttributesAfterPosition_error _ _ _ Ha).
    + by destruct (replaces !! (i - 1)%nat) as [[w|]|].
Qed.

(** X23.  A group that took no part in the match is [undefined], and the loop
    reads its [length] whether it is replaced or not: when the pattern of a
    rule matches with such a group, the listener throws a TypeError for an
    input batch, whatever [to] is and whatever the paragraph holds. *)
Theorem unmatched_group_throws (from : from_value) (to : to_value) (data : matched_data)
  (st : state) (found : match_array) :
  isInput (batch data) = true →
  fromExec from (text data) = Ok (Some found) →
  None ∈ drop 1 (RegExp.matches found) →
  snd (onMatchedData isInput from to data st) = Throw TypeError.
Proof.
  intros Hinput Hfound Hnone. unfold onMatchedData. rewrite Hinput, Hfound.
  cbn [negb]. destruct to as [| | |f]; try done.
  cbn [callTo]. unfold enqueueChange. by rewrite replaceGroups_unmatched.
Qed.

End GroupLaws.

(** ** Instances of the laws *)

Section ResolutionInstances.

Import TextTransformation.

Lemma resolution_NoDup_witness :
  NoDup [VBuiltin "quotesPrimary"; VBuiltin "quotesSecondary";
         VBuiltin "horizontalEllipsis"; VBuiltin "emDash"].
Proof.
  apply (resolution_NoDup
           (defineConfig
              (Some [DString "quotes"; DString "quotesPrimary"; DString "typography"])
              None (Some [DString "enDash"]))).
  vm_compute. reflexivity.
Defined.

Lemma resolution_elem_of_witness :
  let config :=
    defineConfig (Some [DString "quotes"; DString "quotesPrimary"; DString "typography"])
      None (Some [DString "enDash"]) in
  let l := [VBuiltin "quotesPrimary"; VBuiltin "quotesSecondary";
            VBuiltin "horizontalEllipsis"; VBuiltin "emDash"] in
  VBuiltin "emDash" ∈ l
  ↔ (∃ d, VBuiltin "emDash" = lookupTransformation d
          ∧ (d ∉ default [] (remove config))
          ∧ ((d ∈ include config ++ default [] (extra config)
              ∧ groupOf d = Undefined)
             ∨ (∃ g members m,
                  DString g ∈ include config ++ default [] (extra config)
                  ∧ (DString g ∉ default [] (remove config))
                  ∧ TRANSFORMATION_GROUPS !! g = Some members
                  ∧ m ∈ members ∧ d = DString m))).
Proof.
  intros config l. apply (resolution_elem_of config l (VBuiltin "emDash")).
  vm_compute. reflexivity.
Defined.

Lemma expansion_idempotent_witness :
  expandGroupsAndRemoveDuplicates
    [DString "quotesPrimary"; DString "quotesSecondary"; DString "oneHalf"]
  = Ok [DString "quotesPrimary"; DString "quotesSecondary"; DString "oneHalf"].
Proof.
  apply (expansion_idempotent
           [DString "quotes"; DString "quotesPrimary"; DString "oneHalf"]).
  vm_compute. reflexivity.
Defined.

Lemma extra_appends_witness :
  [VBuiltin "copyright"; VBuiltin "registeredTrademark"]
  `prefix_of` [VBuiltin "copyright"; VBuiltin "registeredTrademark";
               VBuiltin "quotesPrimary"; VBuiltin "quotesSecondary"].
Proof.
  apply (extra_appends [DString "symbols"]
           (Some [DString "quotes"; DString "copyright"])
           (Some [DString "trademark"])).
  - vm_compute. reflexivity.
  - vm_compute. reflexivity.
Defined.

End ResolutionInstances.

Section RuleInstances.

Import TextTransformation.

Lemma string_rule_items_witness :
  let paragraph := [Char (ch "a") bold; Char (ch "b") ∅; softBreak] ++ plain (str "(c)") in
  let content := [] ++ createText [169] bold ++ plain (str "(c)") in
  TextWatcher.caretContext
    {| TextWatcher.content := paragraph;
       TextWatcher.anchor := 6%nat; TextWatcher.focus := 6%nat |}
  = str "(c)"
  ∧ onMatchedData (fun b : nat => bool_decide (b = 1%nat))
      (FromRegExp (suffixRegExp (str "(c)"))) (normalizeTo (ToString [169]))
      {| text := [] ++ str "(c)"; batch := 1%nat |}
      {| parent := paragraph; observed := [] |}
    = ({| parent := content; observed := [] ++ [content] |}, Ok ())
  ∧ textOf content = [169] ++ str "(c)".
Proof.
  intros paragraph content. split; [reflexivity|]. split; [|reflexivity].
  apply (string_rule_items (fun b : nat => bool_decide (b = 1%nat))
           (str "(c)") [169] [] (Char (ch "a") bold) []
           [Char (ch "b") ∅; softBreak] (plain (str "(c)")) 1%nat []).
  - reflexivity.
  - reflexivity.
  - reflexivity.
Defined.

Lemma empty_from_inserts_or_throws_witness :
  (∃ from,
     normalizeFrom (FromString []) = Ok from
     ∧ fromTest from (str "a") = Ok true
     ∧ snd (onMatchedData (fun b : nat => bool_decide (b = 1%nat)) from
              (normalizeTo (ToString [8482]))
              {| text := str "a"; batch := 1%nat |}
              {| parent := [Char (ch "a") bold] ++ []; observed := [] |})
       = Throw TypeError)
  ∧ (∃ from,
       normalizeFrom (FromString []) = Ok from
       ∧ fromTest from (str "a") = Ok true
       ∧ let content := [softBreak] ++ createText [8482] bold ++ [Char (ch "a") bold] in
         onMatchedData (fun b : nat => bool_decide (b = 1%nat)) from
           (normalizeTo (ToString [8482]))
           {| text := str "a"; batch := 1%nat |}
           {| parent := [softBreak] ++ [Char (ch "a") bold]; observed := [] |}
         = ({| parent := content; observed := [] ++ [content] |}, Ok ())).
Proof.
  split.
  - apply (empty_from_inserts_or_throws (fun b : nat => bool_decide (b = 1%nat))
             [8482] (str "a") [Char (ch "a") bold] [] 1%nat []).
    + reflexivity.
    + reflexivity.
  - apply (empty_from_inserts_or_throws (fun b : nat => bool_decide (b = 1%nat))
             [8482] (str "a") [softBreak] [Char (ch "a") bold] 1%nat []).
    + reflexivity.
    + reflexivity.
Defined.

Lemma replaceGroups_text_witness :
  let captures := [str " "; [34]; str "ab"; [34]] in
  let replaces := [None; Some [8220]; None; Some [8221]] in
  let before := formatted (str "x" ++ concat captures ++ []) (replicate 6 bold) in
  ∃ after,
    replaceGroups (Some <$> captures) 1 replaces (length (str "x")) before = Ok after
    ∧ textOf after = str "x" ++ replacedText captures 1 replaces ++ []
    ∧ take (length (str "x")) after = take (length (str "x")) before
    ∧ drop (length (str "x") + length (replacedText captures 1 replaces)) after
      = drop (length (str "x") + length (concat captures)) before.
Proof.
  intros captures replaces.
  apply (replaceGroups_text captures replaces (str "x") [] (replicate 6 bold)).
  - reflexivity.
  - subst captures replaces.
    intros [|[|[|[|k]]]] m w Hk Hw; simpl in Hk, Hw; try congruence.
    by rewrite lookup_nil in Hk.
Defined.

Lemma attributes_after_position_witness :
  getTextAttributesAfterPosition (formatted (str "ab") [∅; bold]) 1 = Ok bold.
Proof.
  apply (proj1 (attributes_after_position (formatted (str "ab") [∅; bold]) 1)
           (Char (ch "b") bold)).
  reflexivity.
Defined.

Lemma quote_rule_replaces_witness :
  let paragraph := [softBreak] ++ [Char (ch "x") ∅] ++ [Char 32 ∅]
                   ++ [Char 34 bold; Char (ch "o") bold] ++ [Char (ch "k") bold]
                   ++ [Char 34 ∅] in
  let content := [softBreak] ++ [Char (ch "x") ∅] ++ createText [8220] ∅
                 ++ [Char 34 bold; Char (ch "o") bold] ++ createText [8221] bold
                 ++ [Char 34 ∅] in
  TextWatcher.caretContext
    {| TextWatcher.content := paragraph;
       TextWatcher.anchor := 7%nat; TextWatcher.focus := 7%nat |}
  = str "x" ++ str " " ++ [34] ++ str "ok" ++ [34]
  ∧ (∃ rule,
       TRANSFORMATIONS !! "quotesPrimary" = Some rule
       ∧ onMatchedData (fun b : nat => bool_decide (b = 1%nat))
           (TextTransformation.from rule) (normalizeTo (to rule))
           {| text := str "x" ++ str " " ++ [34] ++ str "ok" ++ [34]; batch := 1%nat |}
           {| parent := paragraph; observed := [] |}
         = ({| parent := content; observed := [] ++ [content] |}, Ok ()))
  ∧ textOf content = str "x" ++ [8220; 34] ++ str "o" ++ [8221; 34].
Proof.
  intros paragraph content. split; [reflexivity|]. split; [|reflexivity].
  eexists. split; [reflexivity|].
  apply (quote_rule_replaces (fun b : nat => bool_decide (b = 1%nat)) 34 [8220] [8221]
           (str "x") (str " ") (str "ok") (Char 32 ∅) (Char (ch "k") bold)
           [softBreak] [Char (ch "x") ∅] [Char 34 bold; Char (ch "o") bold]
           [Char 34 ∅] 1%nat []).
  - reflexivity.
  - apply (bool_decide_unpack _). vm_compute. exact I.
  - left. exists 32. split; reflexivity.
  - reflexivity.
  - reflexivity.
  - reflexivity.
Defined.

Lemma dash_rule_replaces_witness :
  let paragraph := [softBreak] ++ [Char (ch "a") ∅] ++ (Char 32 bold :: [Char 45 ∅])
                   ++ [Char 45 ∅] ++ [Char 32 ∅] in
  let content := [softBreak] ++ [Char (ch "a") ∅] ++ createText [8211] bold
                 ++ [Char 45 ∅] ++ [Char 32 ∅] in
  TextWatcher.caretContext
    {| TextWatcher.content := paragraph;
       TextWatcher.anchor := 6%nat; TextWatcher.focus := 6%nat |}
  = str "a" ++ str " " ++ str "--" ++ [32]
  ∧ (∃ rule,
       TRANSFORMATIONS !! "enDash" = Some rule
       ∧ onMatchedData (fun b : nat => bool_decide (b = 1%nat))
           (TextTransformation.from rule) (normalizeTo (to rule))
           {| text := str "a" ++ str " " ++ str "--" ++ [32]; batch := 1%nat |}
           {| parent := paragraph; observed := [] |}
         = ({| parent := content; observed := [] ++ [content] |}, Ok ()))
  ∧ textOf content = str "a" ++ [8211] ++ str "- ".
Proof.
  intros paragraph content. split; [reflexivity|]. split; [|reflexivity].
  eexists. split; [reflexivity|].
  apply (dash_rule_replaces (fun b : nat => bool_decide (b = 1%nat)) 45 [45] [8211]
           (str "a") (str " ") (Char 32 bold) (Char 45 ∅)
           [softBreak] [Char (ch "a") ∅] [Char 45 ∅] [Char 32 ∅] 1%nat []).
  - reflexivity.
  - left. reflexivity.
  - reflexivity.
  - reflexivity.
  - reflexivity.
Defined.

Lemma dash_rule_fires_iff_witness :
  let dashes := replicate 3 (ch "-") in
  ∃ rx,
    compile (str "(^| )(" ++ dashes ++ str ")( )$") = Ok rx
    ∧ fromTest (FromRegExp rx) (str "a --- ")
      = Ok (bool_decide ((str " " ++ dashes ++ str " ") `suffix_of` str "a --- "
                         ∨ str "a --- " = dashes ++ str " ")).
Proof.
  apply (dash_rule_fires_iff 3 (str "a --- ")). lia.
Defined.

Lemma dash_rules_exclusive_witness :
  test (dashPattern (str "---")) (str "a -- ") = Ok false.
Proof.
  apply (dash_rules_exclusive (str "a -- ")). vm_compute. reflexivity.
Defined.

Lemma quote_rule_fires_iff_witness :
  ∃ rx b,
    buildQuotesRegExp [39] = Ok rx
    ∧ fromTest (FromRegExp rx) (str "it's 'so'") = Ok b
    ∧ (b = true ↔
       ∃ pre lead inner,
         str "it's 'so'" = pre ++ lead ++ [39] ++ inner ++ [39]
         ∧ (39 ∉ inner)
         ∧ ((∃ w, lead = [w] ∧ isSpace w = true) ∨ (lead = [] ∧ pre = []))).
Proof.
  apply (quote_rule_fires_iff 39 (str "it's 'so'")). right. reflexivity.
Defined.

Lemma unmatched_group_throws_witness :
  ∃ rx,
    compile (str "(a)|(b)$") = Ok rx
    ∧ ∀ to,
        snd (onMatchedData (fun b : nat => bool_decide (b = 1%nat)) (FromRegExp rx) to
               {| text := str "xb"; batch := 1%nat |}
               {| parent := formatted (str "xb") (replicate 2 ∅); observed := [] |})
        = Throw TypeError.
Proof.
  eexists. split; [vm_compute; reflexivity|]. intros to.
  apply (unmatched_group_throws (fun b : nat => bool_decide (b = 1%nat)) _ to _ _
           {| matches := [Some [98]; None; Some [98]]; index := 1 |}).
  - reflexivity.
  - vm_compute. reflexivity.
  - apply list_elem_of_here.
Defined.

End RuleInstances.

Section KeystrokeInstances.

Import UnsafeKeystrokes.

Lemma function_keys_are_safe_witness :
  snd (handleUnsafeKeystroke arrowCodes {| keyCode := 113; ctrlKey := false |}
         {| isEnabled := true; isComposing := false; docSelection := threeSelected |}
         None) = [].
Proof.
  apply (proj2 (function_keys_are_safe arrowCodes {| keyCode := 113; ctrlKey := false |}
                  {| isEnabled := true; isComposing := false;
                     docSelection := threeSelected |} None 113)).
  simpl. lia.
Defined.

Lemma composition_end_spares_once_witness :
  let ed := {| isEnabled := true; isComposing := false; docSelection := threeSelected |} in
  let key := KeyDown {| keyCode := 229; ctrlKey := false |} in
  let '(buffered, ended) := dispatch arrowCodes false CompositionEnd ed None in
  let '(after, first) := dispatch arrowCodes false key ed buffered in
  let '(_, second) := dispatch arrowCodes false key ed after in
  ended = [] ∧ first = []
  ∧ second = [BufferLock; DeleteContent (docSelection ed); BufferUnlock].
Proof.
  intros ed.
  apply (composition_end_spares_once arrowCodes false ed None).
  - reflexivity.
  - reflexivity.
  - reflexivity.
  - reflexivity.
  - apply (bool_decide_unpack _). vm_compute. exact I.
Defined.

(** A selection of several ranges that the document stores in another
    order than the buffered one, with the same range last, is the same
    selection for [isEqual]: the key event after the composition spares
    it. *)
Example reordered_selection_is_spared :
  let range (i : nat) := {| start := [i; 0]%nat; end_ := [i; 2]%nat |} in
  let buffered := {| ranges := [range 0%nat; range 1%nat; range 2%nat];
                     isBackward := false |} in
  let stored := {| ranges := [range 1%nat; range 0%nat; range 2%nat];
                   isBackward := false |} in
  buffered ≠ stored
  ∧ snd (handleUnsafeKeystroke arrowCodes {| keyCode := 229; ctrlKey := false |}
           {| isEnabled := true; isComposing := false; docSelection := stored |}
           (Some buffered)) = []
  ∧ snd (handleUnsafeKeystroke arrowCodes {| keyCode := 229; ctrlKey := false |}
           {| isEnabled := true; isComposing := false; docSelection := stored |}
           None)
    = [BufferLock; DeleteContent stored; BufferUnlock].
Proof. intros range buffered stored. split; [discriminate|]. by vm_compute. Qed.

End KeystrokeInstances.

Section AndroidInstances.

Import Delete.

Lemma keyup_restores_deletion_witness :
  let first := {| anchorNode := 1; anchorOffset := 2; focusNode := 1; focusOffset := 2 |} in
  let second := {| anchorNode := 1; anchorOffset := 1; focusNode := 1; focusOffset := 1 |} in
  let moved := {| anchorNode := 2; anchorOffset := 0; focusNode := 2; focusOffset := 0 |} in
  [first; second] !! 1%nat = Some second.
Proof.
  intros first second moved.
  apply (keyup_restores_deletion [DeleteEvent first; KeyupEvent moved] []
           second moved None [first; second]).
  reflexivity.
Defined.

End AndroidInstances.
